(** * pymob: evaluator dispatch, parameter flattening and ODE solving

    A shallow embedding of the parts of [pymob/simulation.py] and
    [pymob/solvers/diffrax.py] that the specification talks about, and
    of the functions around them; the properties of the specification
    checked against them, and further properties of the code.

    Python values are embedded as follows.
    - A function that can raise returns [result]: [Ok v] or [Raise e].
    - A [dict] iterated in insertion order is an association list with
      the update discipline of Python ([dict_set]); a [dict] that is
      only looked up is a [gmap].
    - A numpy array that is mutated in place lives in an explicit store
      ([heap]) and is referred to by address, so that sharing between
      two dictionaries is visible.
    - Floating point numbers are [pyfloat] where only their identity
      matters, and rationals where arithmetic is done on them. *)

From Stdlib Require Import ZArith QArith Qminmax Lia Lqa String Ascii.
From Stdlib Require Import Decimal DecimalString DecimalNat.
From stdpp Require Import gmap strings list.

#[local] Open Scope Z_scope.
#[local] Open Scope nat_scope.
#[local] Open Scope string_scope.
#[local] Open Scope list_scope.

(** ** Python basics *)

Module Py.

(** The exceptions that the embedded code can raise. [SolverDivergence]
    stands for the runtime fault of the integrator when the step
    budget is used up. *)
Inductive exn : Set :=
| KeyError
| ValueError
| IndexError
| TypeError
| AttributeError
| AssertionError
| SolverDivergence.

Inductive result (A : Type) : Type :=
| Ok (a : A)
| Raise (e : exn).
Arguments Ok {A} a.
Arguments Raise {A} e.

Definition bind {A B} (r : result A) (k : A -> result B) : result B :=
  match r with
  | Ok a => k a
  | Raise e => Raise e
  end.

#[global] Instance result_ret : MRet result := @Ok.
#[global] Instance result_bind : MBind result := fun A B k r => bind r k.
#[global] Instance result_fmap : FMap result :=
  fun A B f r => bind r (fun a => Ok (f a)).

(** A Python float: a finite value, an infinity or NaN. *)
Inductive pyfloat : Set :=
| Fin (q : Q)
| PInf
| NInf
| NaN.

(** The value of a parameter: a scalar, or a one-dimensional array
    of fixed length. The arrays are arrays of floats (numpy's
    [float64]). *)
Inductive param_value : Set :=
| Scalar (x : pyfloat)
| Vector (xs : list pyfloat).

(** *** Dictionaries in insertion order *)

Abbreviation dict V := (list (string * V)) (only parsing).

Fixpoint dict_get {V} (k : string) (d : dict V) : option V :=
  match d with
  | [] => None
  | (k', v) :: d' => if String.eqb k k' then Some v else dict_get k d'
  end.

(** [d[k] = v] and [d.update({k: v})]: an existing key keeps its
    place, a new key goes to the end. *)
Fixpoint dict_set {V} (k : string) (v : V) (d : dict V) : dict V :=
  match d with
  | [] => [(k, v)]
  | (k', v') :: d' =>
      if String.eqb k k' then (k, v) :: d' else (k', v') :: dict_set k v d'
  end.

Definition dict_mem {V} (k : string) (d : dict V) : bool :=
  match dict_get k d with Some _ => true | None => false end.

Definition keys {V} (d : dict V) : list string := map fst d.

(** [k in l] for a list of strings. *)
Definition str_in (k : string) (l : list string) : bool :=
  existsb (String.eqb k) l.

(** *** Strings *)

(** [t.startswith(p)]. *)
Fixpoint starts_with (p t : string) : bool :=
  match p, t with
  | EmptyString, _ => true
  | String a p', String b t' => Ascii.eqb a b && starts_with p' t'
  | String _ _, EmptyString => false
  end.

(** [p in t] for strings. *)
Fixpoint contains (p t : string) : bool :=
  starts_with p t
  || match t with
     | EmptyString => false
     | String _ t' => contains p t'
     end.

(** [t.endswith(c)] for one character. *)
Fixpoint ends_with_char (c : ascii) (t : string) : bool :=
  match t with
  | EmptyString => false
  | String a EmptyString => Ascii.eqb a c
  | String _ t' => ends_with_char c t'
  end.

Definition string_of_rev (cur : list ascii) : string :=
  string_of_list_ascii (rev cur).

(** [str.split(sep)] for a non-empty separator: the text is cut at
    the leftmost occurrences of [sep] that do not overlap. [cur] holds
    the characters of the piece being read, last one first, and
    [skip] counts the characters of a separator still to be passed. *)
Fixpoint split_from (sep : string) (skip : nat) (cur : list ascii)
    (t : string) : list string :=
  match t with
  | EmptyString => [string_of_rev cur]
  | String c t' =>
      match skip with
      | S k => split_from sep k cur t'
      | O =>
          if starts_with sep t
          then string_of_rev cur :: split_from sep (String.length sep - 1) [] t'
          else split_from sep 0 (c :: cur) t'
      end
  end.

Definition split (sep t : string) : list string := split_from sep 0 [] t.

(** [str(i)] for a natural number. *)
Definition str (i : nat) : string := NilEmpty.string_of_uint (Nat.to_uint i).

Definition digits_value (t : string) : result Z :=
  match t with
  | EmptyString => Raise ValueError
  | String _ _ =>
      match NilEmpty.uint_of_string t with
      | Some d => Ok (Z.of_nat (Nat.of_uint d))
      | None => Raise ValueError
      end
  end.

(** [int(t)] on a run of decimal digits with an optional sign; every
    other text is a [ValueError]. (Python also accepts surrounding
    blanks and single underscores between digits; no key written by
    the embedded code has them.) *)
Definition int (t : string) : result Z :=
  match t with
  | EmptyString => Raise ValueError
  | String a t' =>
      if Ascii.eqb a "-" then Z.opp <$> digits_value t'
      else if Ascii.eqb a "+" then digits_value t'
      else digits_value t
  end.

End Py.
Import Py.

(** ** [flatten_parameter_dict] *)

Module Flatten.

Definition sep : string := "___".

(** The numpy arrays made by [np.full_like] live in a store and the
    dictionaries hold their addresses: [empty_map.copy()] copies the
    dictionary and shares the arrays. *)
Abbreviation addr := nat (only parsing).
Abbreviation heap := (list (list pyfloat)) (only parsing).

Inductive pyval : Set :=
| VFloat (x : pyfloat)
| VArray (a : addr).

Definition is_iterable (value : param_value) : bool :=
  match value with
  | Vector _ => true
  | Scalar _ => false
  end.

Fixpoint enumerate_from {A} (i : nat) (l : list A) : list (nat * A) :=
  match l with
  | [] => []
  | x :: l' => (i, x) :: enumerate_from (S i) l'
  end.

Definition enumerate {A} (l : list A) : list (nat * A) := enumerate_from 0 l.

(** The f-string [f"{par}___{i}"]. *)
Definition key (par : string) (i : nat) : string := par +:+ sep +:+ str i.

(** The inner loop: one flat entry [par___i] per element. *)
Definition flatten_vector (par : string) (value : list pyfloat)
    (flat_params : dict pyfloat) : dict pyfloat :=
  foldl (fun flat '(i, subvalue) => dict_set (key par i) subvalue flat)
        flat_params (enumerate value).

(** The state of the outer loop: [flat_params], [empty_map] and the
    store of the arrays that [empty_map] refers to. *)
Abbreviation loop_state :=
  (dict pyfloat * dict pyval * heap)%type (only parsing).

(** One round of the outer loop. The test [is_iterable(value)] is the
    case distinction on the value. [np.full_like] keeps the [dtype] of
    the value: for the float arrays embedded here the array of the
    template is filled with NaN. *)
Definition flatten_step (exclude_params : list string) (st : loop_state)
    (item : string * param_value) : loop_state :=
  let '(flat_params, empty_map, h) := st in
  let '(par, value) := item in
  if str_in par exclude_params then st
  else
    let '(flat_params1, empty_map1, h1) :=
      match value with
      | Vector xs =>
          (flatten_vector par xs flat_params,
           dict_set par (VArray (length h)) empty_map,
           h ++ [replicate (length xs) NaN])
      | Scalar x =>
          (dict_set par x flat_params, empty_map, h)
      end in
    let empty_map2 :=
      if dict_mem par empty_map1 then empty_map1
      else dict_set par (VFloat NaN) empty_map1 in
    (flat_params1, empty_map2, h1).

(** The function returns [flat_params] and the closure
    [reverse_mapper], which is [empty_map] with its arrays. *)
Definition flatten_parameter_dict (model_parameter_dict : dict param_value)
    (exclude_params : list string) : loop_state :=
  foldl (flatten_step exclude_params) ([], [], []) model_parameter_dict.

(** [a[i] = v] on a one-dimensional array: a negative index counts
    from the end, an index outside the array is an [IndexError]. *)
Definition setitem (h : heap) (a : addr) (i : Z) (v : pyfloat) : result heap :=
  match h !! a with
  | None => Raise IndexError
  | Some arr =>
      let n := Z.of_nat (length arr) in
      if ((0 <=? i) && (i <? n))%Z
      then Ok (<[a := <[Z.to_nat i := v]> arr]> h)
      else if ((- n <=? i) && (i <? 0))%Z
      then Ok (<[a := <[Z.to_nat (n + i) := v]> arr]> h)
      else Raise IndexError
  end.

(** One round of the loop of [reverse_mapper]. In
    [param_dict[par][int(par_index)] = value] the lookup of [par]
    comes first, then [int], then the assignment. *)
Definition reverse_step (st : dict pyval * heap) (item : string * pyfloat)
    : result (dict pyval * heap) :=
  let '(param_dict, h) := st in
  let '(subpar, value) := item in
  match split sep subpar with
  | [par] => Ok (dict_set par (VFloat value) param_dict, h)
  | [par; par_index] =>
      match dict_get par param_dict with
      | None => Raise KeyError
      | Some target =>
          i ← int par_index;
          match target with
          | VFloat _ => Raise TypeError
          | VArray a => h' ← setitem h a i value; Ok (param_dict, h')
          end
      end
  | _ => Raise ValueError
  end.

(** The loop of [reverse_mapper] from a given state; an exception
    ends it. *)
Definition reverse_loop (st : result (dict pyval * heap))
    (parameters : dict pyfloat) : result (dict pyval * heap) :=
  foldl (fun st item => st' ← st; reverse_step st' item) st parameters.

(** [reverse_mapper]: [h] is the store as the call finds it; the
    store as the call leaves it is returned with [param_dict]. The
    loop starts from [empty_map.copy()], which has the entries of
    [empty_map] and shares its arrays. *)
Definition reverse_mapper (empty_map : dict pyval) (h : heap)
    (parameters : dict pyfloat) : result (dict pyval * heap) :=
  reverse_loop (Ok (empty_map, h)) parameters.

(** What a dictionary holds once its arrays are read from the store. *)
Definition read (h : heap) (v : pyval) : param_value :=
  match v with
  | VFloat x => Scalar x
  | VArray a => Vector (default [] (h !! a))
  end.

Definition read_dict (h : heap) (d : dict pyval) : dict param_value :=
  map (fun kv => (kv.1, read h kv.2)) d.

(** Names that the flat keys can carry: the separator does not occur
    in the name, and the name of a vector does not end in an
    underscore (which would join the separator). *)
Definition name_ok (item : string * param_value) : bool :=
  negb (contains sep item.1)
  && match item.2 with
     | Vector _ => negb (ends_with_char "_" item.1)
     | Scalar _ => true
     end.

(** *** Closed forms of what the two loops compute *)

Definition entry_of (par : string) (ix : nat * pyfloat) : string * pyfloat :=
  (key par ix.1, ix.2).

(** The flat entries of one item. *)
Definition entries (item : string * param_value) : dict pyfloat :=
  match item.2 with
  | Scalar x => [(item.1, x)]
  | Vector xs => map (entry_of item.1) (enumerate xs)
  end.

(** The parameter that a flat key belongs to. *)
Definition owner (k : string) : string := hd "" (split sep k).

Definition flat_of (p : dict param_value) : dict pyfloat :=
  concat (map entries p).

(** [empty_map] when the first free address is [base], and the
    arrays that it refers to. *)
Fixpoint template_of (base : nat) (p : dict param_value) : dict pyval :=
  match p with
  | [] => []
  | (par, Scalar _) :: p' => (par, VFloat NaN) :: template_of base p'
  | (par, Vector _) :: p' => (par, VArray base) :: template_of (S base) p'
  end.

Fixpoint arrays_of (p : dict param_value) : heap :=
  match p with
  | [] => []
  | (_, Scalar _) :: p' => arrays_of p'
  | (_, Vector xs) :: p' => replicate (length xs) NaN :: arrays_of p'
  end.

(** [param_dict] and its arrays once every flat entry is written. *)
Fixpoint filled_of (base : nat) (p : dict param_value) : dict pyval :=
  match p with
  | [] => []
  | (par, Scalar x) :: p' => (par, VFloat x) :: filled_of base p'
  | (par, Vector _) :: p' => (par, VArray base) :: filled_of (S base) p'
  end.

Fixpoint vectors_of (p : dict param_value) : heap :=
  match p with
  | [] => []
  | (_, Scalar _) :: p' => vectors_of p'
  | (_, Vector xs) :: p' => xs :: vectors_of p'
  end.

(** Two stores with arrays of the same lengths at the same
    addresses. *)
Definition same_shape (h1 h2 : heap) : Prop :=
  Forall2 (fun a1 a2 => length a1 = length a2) h1 h2.

(** The items that [exclude_params] leaves. *)
Definition included (exclude_params : list string) (p : dict param_value)
    : dict param_value :=
  filter (fun item => str_in item.1 exclude_params = false) p.

(** What a flat mapping [q] supplies for the key [k]: its value, or
    NaN when the key is absent. *)
Definition supplied (q : dict pyfloat) (k : string) : pyfloat :=
  default NaN (dict_get k q).

(** The state of the loop of [reverse_mapper] after the entries [q],
    from the template as [flatten_parameter_dict] leaves it: the
    arrays keep their lengths and [d] the names of [p]; a scalar holds
    what [q] supplies for its name, a vector holds its address; and the
    array of a vector holds at each index what [q] supplies for the
    key of the index. *)
Definition partial_state (p : dict param_value) (q : dict pyfloat)
    (d : dict pyval) (h : heap) : Prop :=
  same_shape h (arrays_of p) /\
  keys d = keys p /\
  (forall par,
     match dict_get par (template_of 0 p) with
     | Some (VArray a) => dict_get par d = Some (VArray a)
     | Some (VFloat _) => dict_get par d = Some (VFloat (supplied q par))
     | None => True
     end) /\
  (forall par a arr i,
     dict_get par (template_of 0 p) = Some (VArray a) ->
     h !! a = Some arr -> i < length arr ->
     arr !! i = Some (supplied q (key par i))).

Definition p_example : dict param_value :=
  [("k", Vector [Fin 1; Fin 2]); ("a", Scalar (Fin 3))].

End Flatten.

(** ** [SimulationBase]: dispatch, coordinates, result assembly, scaler *)

Module Simulation.

(** *** [parameterize] and [dispatch] *)

(** [toopy.param.Param], as far as [parameterize] reads it. *)
Record Param : Set := mkParam {
  name : string;
  value : param_value
}.

(** The dictionary with the keys ["parameters"] and ["y0"]. *)
Record ModelParameters : Type := mkModelParameters {
  parameters : gmap string param_value;
  y0 : gmap string param_value
}.

(** [m.update({p.name: p.value for p in theta})]. *)
Definition merge_loop (m : gmap string param_value) (theta : list Param)
    : gmap string param_value :=
  foldl (fun m p => <[name p := value p]> m) m theta.

(** What a caller passes as [theta]: a list of [Param] objects, as the
    signature of [parameterize] has it, or a mapping from names to
    values, as [benchmark] passes it. Iterating over a mapping yields
    its keys, and a string has no attribute [name]. *)
Inductive theta_arg : Set :=
| ThetaParams (ps : list Param)
| ThetaMapping (d : dict param_value).

(** [parameters.update(...)] writes into the dictionary that
    [model_parameters] holds. *)
Definition parameterize (free_parameters : theta_arg)
    (model_parameters : ModelParameters) : result ModelParameters :=
  let parameters := parameters model_parameters in
  let y0 := y0 model_parameters in
  match free_parameters with
  | ThetaParams ps => Ok (mkModelParameters (merge_loop parameters ps) y0)
  | ThetaMapping [] => Ok (mkModelParameters parameters y0)
  | ThetaMapping (_ :: _) => Raise AttributeError
  end.

Record Sim : Type := mkSim {
  free_model_parameters : list Param;
  model_parameters : ModelParameters;
  dimensions : list string;
  data_variables : list string;
  n_ode_states : Z;
  modeltype : string
}.

Definition model_parameter_names (sim : Sim) : list string :=
  map name (free_model_parameters sim).

(** Modelled from the spec: the class [Evaluator] of
    [pymob.sim.evaluator] is not among the source files. By the spec
    an evaluator is a bundle of the resolved [ModelParameters], the
    dimensions, the state count and the stochastic flag; it is
    embedded as the record of the keyword arguments that [dispatch]
    passes. *)
Record Evaluator : Type := mkEvaluator {
  ev_parameters : ModelParameters;
  ev_dimensions : list string;
  ev_n_ode_states : Z;
  ev_data_variables : list string;
  ev_stochastic : bool
}.

(** [dispatch] returns the evaluator; the simulation is returned too,
    because [parameterize] has written into its parameter
    dictionary. *)
Definition dispatch (sim : Sim) (theta : theta_arg)
    : result (Evaluator * Sim) :=
  model_parameters ← parameterize theta (model_parameters sim);
  let stochastic := modeltype sim in
  let evaluator :=
    mkEvaluator model_parameters (dimensions sim) (n_ode_states sim)
                (data_variables sim)
                (if String.eqb stochastic "stochastic" then true else false) in
  Ok (evaluator,
      mkSim (free_model_parameters sim) model_parameters (dimensions sim)
            (data_variables sim) (n_ode_states sim) (modeltype sim)).

(** *** [create_coordinates] *)

(** The argument of [create_coordinates]: a list or tuple of
    coordinate arrays, or one object of another type. *)
Inductive coordinate_arg (A : Type) : Type :=
| CoordSeq (xs : list (list A))
| CoordOther (x : list A).
Arguments CoordSeq {A} xs.
Arguments CoordOther {A} x.

(** The dictionary comprehension [{dim: x_i for dim, x_i in l}], from
    the entries [acc]. *)
Definition coords_loop {A} (acc : dict (list A)) (l : list (string * list A))
    : dict (list A) :=
  foldl (fun coords '(dim, x_i) => dict_set dim x_i coords) acc l.

Definition create_coordinates {A} (dimensions : list string)
    (coordinate_data : coordinate_arg A) : result (dict (list A)) :=
  let coordinate_data :=
    match coordinate_data with
    | CoordSeq xs => xs
    | CoordOther x => [x]
    end in
  if Nat.eqb (length dimensions) (length coordinate_data) then
    let coord_zipper := zip dimensions coordinate_data in
    Ok (coords_loop [] coord_zipper)
  else Raise AssertionError.

(** *** [create_dataset_from_numpy] *)

(** A numpy array: its shape and its elements in row-major order. *)
Record ndarray : Set := mk_ndarray {
  shape : list nat;
  data : list Q
}.

Definition size (sh : list nat) : nat := foldr Nat.mul 1 sh.

(** [Y.shape[-1]]. *)
Definition shape_last (Y : ndarray) : result nat :=
  match last (shape Y) with
  | Some n => Ok n
  | None => Raise IndexError
  end.

(** [Y[..., k]]: the [k]-th item of the iteration over
    [Y.transpose((n_dims - 1, *range(n_dims - 1)))]. *)
Definition trailing_slice (Y : ndarray) (n_vars k : nat) : ndarray :=
  let lead := removelast (shape Y) in
  mk_ndarray lead
    (map (fun j => nth (j * n_vars + k) (data Y) 0%Q) (seq 0 (size lead))).

Definition transpose_last_first (Y : ndarray) (n_vars : nat) : list ndarray :=
  map (trailing_slice Y n_vars) (seq 0 n_vars).

Section Labelled.

(** [C] is the type of the coordinate labels. *)
Variable C : Type.

Record DataArray : Type := mkDataArray {
  da_name : string;
  da_dims : list string;
  da_coords : dict (list C);
  da_values : ndarray
}.

Record Dataset : Type := mkDataset {
  data_vars : dict (list string * ndarray);
  ds_coords : dict (list C)
}.

Fixpoint index_of (k : string) (l : list string) : option nat :=
  match l with
  | [] => None
  | k' :: l' => if String.eqb k k' then Some 0 else S <$> index_of k l'
  end.

(** Modelled from the spec: xarray is not among the source files.
    The labelled dataset of the spec is built by
    [xr.DataArray(y, coords=..., name=...)] and [xr.merge]. The
    constructor takes the dimension names from the keys of [coords]
    when there is one coordinate per axis (and calls the axes [dim_0],
    [dim_1], ... otherwise); every coordinate must name an axis and
    have its length, else the constructor raises [ValueError]. *)
Definition DataArray_new (y : ndarray) (coords : dict (list C)) (name : string)
    : result DataArray :=
  let n := length (shape y) in
  let dims :=
    if Nat.eqb (length coords) n then keys coords
    else map (fun i => "dim_" +:+ str i) (seq 0 n) in
  if forallb (fun kv : string * list C =>
                match index_of kv.1 dims with
                | Some i => Nat.eqb (nth i (shape y) 0) (length kv.2)
                | None => false
                end) coords
  then Ok (mkDataArray name dims coords y)
  else Raise ValueError.

Definition values_agree (a b : list string * ndarray) : bool :=
  bool_decide (a.1 = b.1)
  && bool_decide (shape a.2 = shape b.2)
  && forallb (fun xy : Q * Q => Qeq_bool xy.1 xy.2) (zip (data a.2) (data b.2)).

(** Modelled from the spec: one step of [xr.merge] (xarray is not
    among the source files). A data array whose name is also the name
    of one of its coordinates cannot become a dataset; two variables
    of one name must agree ([MergeError] is a [ValueError]). *)
Definition merge_step (ds : Dataset) (da : DataArray) : result Dataset :=
  if str_in (da_name da) (keys (da_coords da)) then Raise ValueError
  else
    let var := (da_dims da, da_values da) in
    match dict_get (da_name da) (data_vars ds) with
    | Some var' =>
        if values_agree var' var then Ok ds else Raise ValueError
    | None =>
        Ok (mkDataset (dict_set (da_name da) var (data_vars ds)) (da_coords da))
    end.

Definition merge_loop_ds (ds : result Dataset) (data_arrays : list DataArray)
    : result Dataset :=
  foldl (fun ds da => ds' ← ds; merge_step ds' da) ds data_arrays.

Definition merge (data_arrays : list DataArray) : result Dataset :=
  merge_loop_ds (Ok (mkDataset [] [])) data_arrays.

(** The loop that builds [data_arrays]. *)
Fixpoint make_data_arrays (coordinates : dict (list C))
    (items : list (ndarray * string)) : result (list DataArray) :=
  match items with
  | [] => Ok []
  | (y, y_name) :: items' =>
      da ← DataArray_new y coordinates y_name;
      data_arrays ← make_data_arrays coordinates items';
      Ok (da :: data_arrays)
  end.

Definition create_dataset_from_numpy (Y : ndarray) (Y_names : list string)
    (coordinates : dict (list C)) : result Dataset :=
  n_vars ← shape_last Y;
  if Nat.eqb n_vars (length Y_names) then
    let Y_transposed := transpose_last_first Y n_vars in
    data_arrays ← make_data_arrays coordinates (zip Y_transposed Y_names);
    merge data_arrays
  else Raise AssertionError.

(** The coordinates fit an array when there is one per axis, in the
    order of the axes and of the length of its axis. *)
Definition coords_fit (coordinates : dict (list C)) (sh : list nat) : Prop :=
  map (fun kv : string * list C => length kv.2) coordinates = sh.

(** The data array of the [k]-th name, and the dataset entry of a
    data array. *)
Definition data_array_of (Y : ndarray) (n_vars : nat)
    (coordinates : dict (list C)) (kn : nat * string) : DataArray :=
  mkDataArray kn.2 (keys coordinates) coordinates (trailing_slice Y n_vars kn.1).

Definition var_of (da : DataArray) : string * (list string * ndarray) :=
  (da_name da, (da_dims da, da_values da)).

End Labelled.

Arguments mkDataArray {C}.
Arguments da_name {C}.
Arguments da_dims {C}.
Arguments da_coords {C}.
Arguments da_values {C}.
Arguments mkDataset {C}.
Arguments data_vars {C}.
Arguments ds_coords {C}.
Arguments DataArray_new {C}.
Arguments merge_step {C}.
Arguments merge_loop_ds {C}.
Arguments merge {C}.
Arguments data_array_of {C}.
Arguments var_of {C}.
Arguments make_data_arrays {C}.
Arguments create_dataset_from_numpy {C}.
Arguments coords_fit {C}.

(** *** The data scaler *)

Definition column (j : nat) (X : list (list Q)) : list Q :=
  map (fun row => nth j row 0%Q) X.

Definition min_list (x : Q) (xs : list Q) : Q := foldl Qmin x xs.
Definition max_list (x : Q) (xs : list Q) : Q := foldl Qmax x xs.

(** The attributes of a fitted [MinMaxScaler]. *)
Record MinMaxScaler : Set := mkMinMaxScaler {
  data_min_ : list Q;
  data_max_ : list Q;
  sk_scale_ : list Q;
  sk_min_ : list Q
}.

(** A feature without spread is scaled by 1. *)
Definition handle_zeros_in_scale (r : Q) : Q :=
  if Qeq_bool r 0 then 1%Q else r.

(** Modelled from the spec: [sklearn.preprocessing.MinMaxScaler] is
    not among the source files. By the spec the scaler fits a min-max
    range per output variable and rescales each variable into that
    range: [fit] takes the minimum and the maximum of every column,
    with the feature range (0, 1), and [transform] is the linear map
    [x * scale_ + min_]. Numbers are rationals. *)
Definition fit (X : list (list Q)) : result MinMaxScaler :=
  match X with
  | [] => Raise ValueError
  | row :: rows =>
      let n := length row in
      let data_min :=
        map (fun j => min_list (nth j row 0%Q) (column j rows)) (seq 0 n) in
      let data_max :=
        map (fun j => max_list (nth j row 0%Q) (column j rows)) (seq 0 n) in
      let data_range := zip_with Qminus data_max data_min in
      let scale := map (fun r => (1 / handle_zeros_in_scale r)%Q) data_range in
      let min := zip_with (fun mn sc => (0 - mn * sc)%Q) data_min scale in
      Ok (mkMinMaxScaler data_min data_max scale min)
  end.

(** Modelled from the spec: [MinMaxScaler.transform] (not among the
    source files), row by row. *)
Definition transform_row (scaler : MinMaxScaler) (row : list Q) : list Q :=
  zip_with (fun x sm => (x * sm.1 + sm.2)%Q) row
           (zip (sk_scale_ scaler) (sk_min_ scaler)).

Definition transform (scaler : MinMaxScaler) (X : list (list Q))
    : list (list Q) :=
  map (transform_row scaler) X.

(** [np.row_stack] wants rows of one length. *)
Definition row_stack (rows : list (list Q)) : result (list (list Q)) :=
  match rows with
  | [] => Raise ValueError
  | row :: rows' =>
      if forallb (fun r => Nat.eqb (length r) (length row)) rows'
      then Ok rows else Raise ValueError
  end.

(** [create_data_scaler], on the observations as the two-dimensional
    array of [dataset_to_2Darray]: one row per stacked index, one
    column per data variable. The result is [self.scaler]. *)
Definition create_data_scaler (data_variables_min data_variables_max : list Q)
    (obs_2D_array : list (list Q)) : result MinMaxScaler :=
  let lower_bounds := data_variables_min in
  let upper_bounds := data_variables_max in
  stacked_array ← row_stack (lower_bounds :: upper_bounds :: obs_2D_array);
  fit stacked_array.

(** [scale_], on the two-dimensional array of the dataset. *)
Definition scale_ (scaler : MinMaxScaler) (data_2D_array : list (list Q))
    : list (list Q) :=
  transform scaler data_2D_array.

(** *** Examples *)

Definition sim_example : Sim :=
  mkSim [mkParam "alpha" (Scalar (Fin 5));
         mkParam "beta" (Scalar (Fin (2 # 100)))]
        (mkModelParameters ∅ ∅) ["time"; "id"] ["cext"; "cint"] 2
        "deterministic".

Definition Y_example : ndarray :=
  mk_ndarray [2; 3] [1; 2; 3; 4; 5; 6]%Q.

End Simulation.

(** ** [JaxSolver] *)

Module Diffrax.

Record JaxSolver : Set := mkJaxSolver {
  rtol : Q;
  atol : Q;
  pcoeff : Q;
  icoeff : Q;
  dcoeff : Q;
  max_steps : Z;
  throw_exception : bool;
  (** [self.x], the time coordinate of the solve *)
  x : list Q;
  (** [self.coordinates_input_vars["x_in"][self.x_dim]] *)
  x_in_coordinate : list Q
}.

Record PIDController : Set := mkPIDController {
  pid_rtol : Q;
  pid_atol : Q;
  pid_pcoeff : Q;
  pid_icoeff : Q;
  pid_dcoeff : Q;
  jump_ts : option (list Q)
}.

Record LinearInterpolation : Set := mkLinearInterpolation {
  li_ts : list Q;
  li_ys : list Q
}.

(** [l[i]] and [l[-1]]. *)
Definition getitem {A} (l : list A) (i : nat) : result A :=
  match l !! i with
  | Some a => Ok a
  | None => Raise IndexError
  end.

Definition getitem_last {A} (l : list A) : result A :=
  match last l with
  | Some a => Ok a
  | None => Raise IndexError
  end.

Definition Qltb (a b : Q) : bool := negb (Qle_bool b a).

(** [a[mask]] for a boolean mask: the mask has the length of [a]. *)
Definition mask_select (a : list Q) (mask : list bool) : result (list Q) :=
  if Nat.eqb (length a) (length mask)
  then Ok (map fst (filter (fun am : Q * bool => am.2 = true) (zip a mask)))
  else Raise IndexError.

(** The branch on [len(x_in) > 0] of [odesolve]: the interpolation of
    the forcing and the jump times. *)
Definition forcing (s : JaxSolver) (x_in : list (list Q))
    : result (option LinearInterpolation * option (list Q)) :=
  if Nat.ltb 0 (length x_in) then
    ts ← getitem x_in 0;
    ys ← getitem x_in 1;
    let interp := mkLinearInterpolation ts ys in
    x_last ← getitem_last (x s);
    jumps ← mask_select ts (map (fun c => Qltb c x_last) (x_in_coordinate s));
    Ok (Some interp, Some jumps)
  else Ok (None, None).

Definition stepsize_controller (s : JaxSolver) (jumps : option (list Q))
    : PIDController :=
  mkPIDController (rtol s) (atol s) (pcoeff s) (icoeff s) (dcoeff s) jumps.

(** The state of an integration: the time reached, the state vector
    there and the next step size. *)
Record istate : Set := mkIstate {
  t : Q;
  y : list pyfloat;
  dt : Q
}.

Inductive RESULTS : Set :=
| successful
| max_steps_reached.

(** [SaveAt(ts=...)] of diffrax (not among the source files): an
    empty list of save times is refused with a [ValueError], there
    being nothing to save. *)
Definition SaveAt (ts : list Q) : result (list Q) :=
  match ts with
  | [] => Raise ValueError
  | _ :: _ => Ok ts
  end.

Definition inf_row (n : nat) : list pyfloat := replicate n PInf.

(** One trajectory per state variable out of one row per save time. *)
Definition per_state (n : nat) (rows : list (list pyfloat))
    : list (list pyfloat) :=
  map (fun j => map (fun row => nth j row NaN) rows) (seq 0 n).

Section Integration.

(** [A] is the type of the arguments of the model. [attempt_step] is
    one attempt of the adaptive method on the model: a step of the
    solver, taken or rejected by the controller, which also proposes
    the next step size. [dense] is the dense output between two
    states. *)
Variable A : Type.
Variable attempt_step :
  PIDController -> option LinearInterpolation * A -> istate -> istate.
Variable dense : istate -> istate -> Q -> list pyfloat.

(** Modelled from the spec: saving inside [diffrax.diffeqsolve] (not
    among the source files). The save times passed by a step receive
    the dense output. *)
Definition save (ts : list Q) (prev next : istate)
    (out : list (list pyfloat)) : list (list pyfloat) :=
  zip_with (fun t_i row =>
              if Qltb (t prev) t_i && Qle_bool t_i (t next)
              then dense prev next t_i else row)
           ts out.

(** Modelled from the spec: the stepping loop of
    [diffrax.diffeqsolve] (not among the source files). It ends when
    the final time [t1] is reached, or when [fuel] attempts have been
    made. *)
Fixpoint steps (c : PIDController) (args : option LinearInterpolation * A)
    (t1 : Q) (ts : list Q) (fuel : nat) (st : istate)
    (out : list (list pyfloat)) : RESULTS * istate * list (list pyfloat) :=
  if Qle_bool t1 (t st) then (successful, st, out)
  else
    match fuel with
    | O => (max_steps_reached, st, out)
    | S fuel' =>
        let st' := attempt_step c args st in
        steps c args t1 ts fuel' st' (save ts st st' out)
    end.

(** Modelled from the spec: [diffrax.diffeqsolve] is not among the
    source files. By the spec it is a single adaptive-step integration
    from [t0] to [t1] that saves the state at every requested time;
    the step count is limited by [max_steps]. The rows of the save
    times not reached start as [+inf] and stay so. *)
Definition integrate (t0 t1 dt0 : Q) (y0 : list pyfloat)
    (args : option LinearInterpolation * A) (saveat : list Q)
    (c : PIDController) (max_steps : Z)
    : RESULTS * istate * list (list pyfloat) :=
  let out0 :=
    map (fun t_i => if Qle_bool t_i t0 then y0 else inf_row (length y0)) saveat in
  steps c args t1 saveat (Z.to_nat max_steps) (mkIstate t0 y0 dt0) out0.

(** Modelled from the spec: the two failure policies of
    [diffrax.diffeqsolve] (not among the source files). When the step
    budget is used up before the final time, [throw=True] raises the
    divergence fault, and [throw=False] returns what was saved, with
    [+inf] after the time at which the solver broke. *)
Definition diffeqsolve (t0 t1 dt0 : Q) (y0 : list pyfloat)
    (args : option LinearInterpolation * A) (saveat : list Q)
    (c : PIDController) (max_steps : Z) (throw : bool)
    : result (list (list pyfloat)) :=
  let '(res, _, out) := integrate t0 t1 dt0 y0 args saveat c max_steps in
  match res with
  | successful => Ok (per_state (length y0) out)
  | max_steps_reached =>
      if throw then Raise SolverDivergence
      else Ok (per_state (length y0) out)
  end.

(** The integration that [odesolve] asks for: the call of
    [diffeqsolve] with the arguments of [odesolve], before the failure
    policy is applied to its outcome. *)
Definition odesolve_integration (s : JaxSolver) (y0 : list pyfloat) (args : A)
    (x_in : list (list Q)) : result (RESULTS * istate * list (list pyfloat)) :=
  '(interp, jumps) ← forcing s x_in;
  saveat ← SaveAt (x s);
  t_min ← getitem (x s) 0;
  t_max ← getitem_last (x s);
  Ok (integrate t_min t_max (1 # 10) y0 (interp, args) saveat
        (stepsize_controller s jumps) (max_steps s)).

Definition odesolve (s : JaxSolver) (y0 : list pyfloat) (args : A)
    (x_in : list (list Q))
    : result (list (list pyfloat) * option LinearInterpolation) :=
  '(interp, jumps) ← forcing s x_in;
  let args := (interp, args) in
  saveat ← SaveAt (x s);
  t_min ← getitem (x s) 0;
  t_max ← getitem_last (x s);
  let stepsize_controller := stepsize_controller s jumps in
  sol ← diffeqsolve t_min t_max (1 # 10) y0 args saveat stepsize_controller
          (max_steps s) (throw_exception s);
  Ok (sol, interp).

(** The rows of the save times up to the time reached hold what the
    integration has saved: the initial state at a save time that is
    not after the start time, the dense output of a step otherwise. *)
Definition saved_upto (y0 : list pyfloat) (t0 : Q) (ts : list Q) (st : istate)
    (out : list (list pyfloat)) : Prop :=
  forall i t_i, ts !! i = Some t_i -> (t_i <= t st)%Q ->
    ((t_i <= t0)%Q /\ out !! i = Some y0) \/
    exists prev next, out !! i = Some (dense prev next t_i).

End Integration.

(** The rows of the save times beyond the time reached are [+inf]. *)
Definition beyond_is_inf (n : nat) (ts : list Q) (st : istate)
    (out : list (list pyfloat)) : Prop :=
  forall i t_i, ts !! i = Some t_i -> (t st < t_i)%Q ->
    out !! i = Some (inf_row n).

(** *** Examples *)

Definition s_example : JaxSolver :=
  mkJaxSolver (1 # 1000000) (1 # 10000000) 0 1 0 5 false
              [0; 1; 2]%Q [0; 1; 2]%Q.

Definition x_in_example : list (list Q) := [[0; 1; 2]; [5; 5; 5]]%Q.

(** The solver of the examples with a budget of ten steps. *)
Definition s_ten_steps : JaxSolver :=
  mkJaxSolver (1 # 1000000) (1 # 10000000) 0 1 0 10 false
              [0; 1; 2]%Q [0; 1; 2]%Q.

(** An integrator for examples: every attempt advances the time by
    one tenth and keeps the state. *)
Definition tenth_step (c : PIDController)
    (args : option LinearInterpolation * unit) (st : istate) : istate :=
  mkIstate (t st + (1 # 10))%Q (y st) (dt st).

Definition hold (prev next : istate) (t_i : Q) : list pyfloat := y prev.

End Diffrax.

(** ** The seed pool of [SimulationBase] *)

Module SeedPool.
Section WithGenerator.

(** [G] is the state of the numpy generator [self.RNG]; [integers g n]
    is [RNG.integers(low=0, high=int(1e18), size=n).tolist()] at a
    size [n] that numpy accepts, together with the advanced state. *)
Context {G : Type}.
Variable integers : G -> nat -> list Z * G.

(** The seed fields of [SimulationBase], with
    [config.multiprocessing.n_cores]. *)
Record Sim : Type := mkSim {
  n_cores : Z;
  _seed_buffer_size : Z;
  RNG : G;
  _random_integers : list Z
}.

(** numpy refuses a negative [size]. *)
Definition create_random_integers (g : G) (n : Z) : result (list Z * G) :=
  if (n <? 0)%Z then Raise ValueError
  else Ok (integers g (Z.to_nat n)).

(** The three seed lines of [__init__]. *)
Definition init (cores : Z) (g : G) : result Sim :=
  let size := (cores * 2)%Z in
  '(seeds, g') ← create_random_integers g size;
  Ok (mkSim cores size g' seeds).

Definition refill_consumed_seeds (s : Sim) : result Sim :=
  let n_seeds_left := Z.of_nat (length (_random_integers s)) in
  if (n_seeds_left =? n_cores s)%Z then
    let n_new_seeds := (_seed_buffer_size s - n_seeds_left)%Z in
    '(new_seeds, g') ← create_random_integers (RNG s) n_new_seeds;
    Ok (mkSim (n_cores s) (_seed_buffer_size s) g'
              (_random_integers s ++ new_seeds))
  else Ok s.

(** [list.pop(0)] raises [IndexError] on the empty list. *)
Definition draw_seed (s : Sim) : result (Z * Sim) :=
  s1 ← refill_consumed_seeds s;
  match _random_integers s1 with
  | [] => Raise IndexError
  | seed :: rest =>
      Ok (seed, mkSim (n_cores s1) (_seed_buffer_size s1) (RNG s1) rest)
  end.

(** The states of a simulation that only ever calls [draw_seed], one
    call after the other. *)
Inductive reachable (cores : Z) (g : G) : Sim -> Prop :=
| reach_init s :
    init cores g = Ok s -> reachable cores g s
| reach_draw s seed s' :
    reachable cores g s -> draw_seed s = Ok (seed, s') ->
    reachable cores g s'.

End WithGenerator.
Arguments Sim : clear implicits.

(** A generator for examples: a counter. *)
Definition counter_integers (g : nat) (n : nat) : list Z * nat :=
  (map Z.of_nat (seq g n), g + n).

End SeedPool.

(** ** The state count read from the source of the model *)

Module OdeStates.

(** The line feed. *)
Definition nl : string := String "010"%char "".

(** [l[-2]]. *)
Definition getitem_neg2 {A} (l : list A) : result A :=
  match rev l with
  | _ :: a :: _ => Ok a
  | _ => Raise IndexError
  end.

(** [t.replace(" ", "")]. *)
Fixpoint replace_blank (t : string) : string :=
  match t with
  | EmptyString => EmptyString
  | String c t' =>
      if Ascii.eqb c " " then replace_blank t' else String c (replace_blank t')
  end.

(** [sep.join(l)]. *)
Fixpoint join (sep : string) (l : list string) : string :=
  match l with
  | [] => ""
  | [a] => a
  | a :: l' => a +:+ sep +:+ join sep l'
  end.

(** [get_return_arguments], on the text that [inspect.getsource]
    returns for the model. *)
Definition get_return_arguments (ode_model_source : string)
    : result (list string) :=
  return_statement ← getitem_neg2 (split nl ode_model_source);
  return_args ← Diffrax.getitem (split "return" return_statement) 1;
  Ok (split "," (replace_blank return_args)).

(** [infer_ode_states]: [n_ode_states] is the configured value, and
    [source] the outcome of [inspect.getsource(self.model)], which can
    raise. The bare [except] catches every exception of the [try]
    block. The warnings are left out. *)
Definition infer_ode_states (n_ode_states : Z) (source : result string) : Z :=
  if (n_ode_states =? -1)%Z then
    match ode_model_source ← source; get_return_arguments ode_model_source with
    | Ok return_args => Z.of_nat (length return_args)
    | Raise _ => (-1)%Z
    end
  else n_ode_states.

(** A text without the character [c]. *)
Fixpoint no_char (c : ascii) (t : string) : bool :=
  match t with
  | EmptyString => true
  | String a t' => negb (Ascii.eqb a c) && no_char c t'
  end.

(** A name as it stands in a return statement: no blank, no comma
    and no line feed. *)
Definition plain_name (t : string) : bool :=
  no_char " " t && no_char "," t && no_char "010" t.

End OdeStates.

(** ** Coordinates and dimension order from the observations *)

Module Dims.

(** [[f(dim) for dim in l]], where [f] can raise. *)
Fixpoint comprehension {A B} (f : A -> result B) (l : list A)
    : result (list B) :=
  match l with
  | [] => Ok []
  | a :: l' =>
      b ← f a;
      rest ← comprehension f l';
      Ok (b :: rest)
  end.

Section WithObservations.

(** [A] is the type of the coordinate labels. [observations_values dim]
    is [self.observations[dim].values], and [obs_ordered_dims var] is
    [obs_ordered[var].dims], the dimension names of a variable of the
    transposed observations; both are lookups in the dataset and can
    raise. *)
Context {A : Type}.
Variable observations_values : string -> result (list A).
Variable obs_ordered_dims : string -> result (list string).

Definition set_coordinates (dimensions : list string)
    : result (list (list A)) :=
  comprehension observations_values dimensions.

(** The line [self.coordinates = self.set_coordinates(...)] of the
    setter of [observations]: the setter of [coordinates] passes the
    list to [create_coordinates]. *)
Definition coordinates_from_observations (dimensions : list string)
    : result (dict (list A)) :=
  value ← set_coordinates dimensions;
  Simulation.create_coordinates dimensions (Simulation.CoordSeq value).

(** [t.index(e)] on a tuple: the first position, or a [ValueError]. *)
Definition tuple_index (e : string) (l : list string) : result nat :=
  match Simulation.index_of e l with
  | Some i => Ok i
  | None => Raise ValueError
  end.

(** [[obs_var_dims.index(e_i) for e_i in evaluator_dims
      if e_i in obs_var_dims]]. *)
Fixpoint dim_positions (evaluator_dims obs_var_dims : list string)
    : result (list nat) :=
  match evaluator_dims with
  | [] => Ok []
  | e_i :: evaluator_dims' =>
      if str_in e_i obs_var_dims then
        i ← tuple_index e_i obs_var_dims;
        rest ← dim_positions evaluator_dims' obs_var_dims;
        Ok (i :: rest)
      else dim_positions evaluator_dims' obs_var_dims
  end.

(** The loop of [create_dim_index] from the entries
    [var_dim_mapper]. *)
Fixpoint create_dim_index_loop (data_variables evaluator_dims : list string)
    (var_dim_mapper : dict (list nat)) : result (dict (list nat)) :=
  match data_variables with
  | [] => Ok var_dim_mapper
  | var :: data_variables' =>
      obs_var_dims ← obs_ordered_dims var;
      positions ← dim_positions evaluator_dims obs_var_dims;
      create_dim_index_loop data_variables' evaluator_dims
        (dict_set var positions var_dim_mapper)
  end.

Definition create_dim_index (data_variables evaluator_dims : list string)
    : result (dict (list nat)) :=
  create_dim_index_loop data_variables evaluator_dims [].

End WithObservations.

(** What a function that can raise returns where it returns, and [d]
    where it raises. *)
Definition value_or {A B} (d : B) (f : A -> result B) (a : A) : B :=
  match f a with
  | Ok b => b
  | Raise _ => d
  end.

(** The dimensions of a variable at the given positions. *)
Definition dims_at (obs_var_dims : list string) (positions : list nat)
    : list (option string) :=
  map (fun i => obs_var_dims !! i) positions.

(** Observations for examples: two coordinates, and the dimensions of
    one variable. *)
Definition values_example (dim : string) : result (list Z) :=
  if String.eqb dim "time" then Ok [0; 1; 2]%Z
  else if String.eqb dim "id" then Ok [7]%Z
  else Raise KeyError.

Definition dims_example (var : string) : result (list string) :=
  if String.eqb var "cext" then Ok ["id"; "time"] else Raise KeyError.

End Dims.

(** ** The parameter mapping of [benchmark] *)

Module Benchmark.

(** The property [model_parameter_dict]. *)
Definition model_parameter_dict (sim : Simulation.Sim) : dict param_value :=
  foldl (fun d p => dict_set (Simulation.name p) (Simulation.value p) d) []
        (Simulation.free_model_parameters sim).

(** The first statement of [benchmark]. *)
Definition benchmark_dispatch (sim : Simulation.Sim)
    : result (Simulation.Evaluator * Simulation.Sim) :=
  Simulation.dispatch sim (Simulation.ThetaMapping (model_parameter_dict sim)).

End Benchmark.

(** ** Fixed model parameters *)

Module FixedParameters.

(** A value of the mapping that [parse_config_section] returns for
    the section (the function is not among the source files). The
    values are Python objects, of which the loop uses the method
    [split]: a text has it; an [int], which the function returns for a
    value made of digits only, has not. *)
Inductive section_value : Set :=
| SText (v : string)
| SInt (z : Z).

Section WithFloat.

(** [float_of] is Python's [float] on a text. *)
Variable float_of : string -> result pyfloat.

(** [[float(v) for v in vlist]]. *)
Definition floats (vlist : list string) : result (list pyfloat) :=
  Dims.comprehension float_of vlist.

(** The body of the loop of [fixed_model_parameters] for one value.
    [v.split(" ")] on an [int] is an [AttributeError]. *)
Definition parse_value (v : section_value) : result param_value :=
  match v with
  | SInt _ => Raise AttributeError
  | SText v =>
      let vlist := split " " v in
      floatlist ← floats vlist;
      if Nat.eqb (length vlist) 1 then
        v_ ← Diffrax.getitem floatlist 0;
        Ok (Scalar v_)
      else Ok (Vector floatlist)
  end.

(** [fixed_model_parameters], on the mapping that
    [parse_config_section] returns for the section
    [fixed-model-parameters], from the entries [fixed_parameters]. *)
Fixpoint fixed_model_parameters_loop (params : dict section_value)
    (fixed_parameters : dict param_value) : result (dict param_value) :=
  match params with
  | [] => Ok fixed_parameters
  | (k, v) :: params' =>
      v_ ← parse_value v;
      fixed_model_parameters_loop params' (dict_set k v_ fixed_parameters)
  end.

Definition fixed_model_parameters (params : dict section_value)
    : result (dict param_value) :=
  fixed_model_parameters_loop params [].

End WithFloat.

(** The value of an entry that reads as the floats [xs]. *)
Definition parsed (xs : list pyfloat) : param_value :=
  match xs with
  | [x] => Scalar x
  | _ => Vector xs
  end.

(** A reader for examples: it reads the runs of decimal digits with an
    optional sign, and refuses every other text. *)
Definition float_of_digits (t : string) : result pyfloat :=
  (fun z => Fin (inject_Z z)) <$> int t.

End FixedParameters.

(** ** [odesolve_splitargs] *)

Module SplitArgs.

(** [l[a:b]] for indices that are not negative. *)
Definition slice {A} (l : list A) (a b : nat) : list A :=
  take (b - a) (drop a l).

Section WithSolver.

(** [V] is the type of the positional arguments, [S] of a solved
    trajectory, [I] of the interpolation, [X] of the array of [self.x]
    and [R] of the result of the post-processing. [odesolve] and
    [post_processing] stand for [self.odesolve] and
    [self.post_processing], and [x] for [jnp.array(self.x)]. *)
Context {V S I X R : Type}.
Variable odesolve : list V -> list V -> list V -> result (list (list S) * I).
Variable post_processing : dict (list S) -> X -> I -> list V -> result R.
Variable x : X.

Definition odesolve_splitargs (args : list V) (odestates : list string)
    (n_odeargs n_ppargs n_xin : nat) : result R :=
  let n_odestates := length odestates in
  let y0 := slice args 0 n_odestates in
  let odeargs := slice args n_odestates (n_odeargs + n_odestates) in
  let ppargs :=
    slice args (n_odeargs + n_odestates) (n_odeargs + n_odestates + n_ppargs) in
  let x_in :=
    slice args (n_odestates + n_odeargs + n_ppargs)
               (n_odestates + n_odeargs + n_ppargs + n_xin) in
  '(sol, interp) ← odesolve y0 odeargs x_in;
  let res_dict := Simulation.coords_loop [] (zip odestates sol) in
  post_processing res_dict x interp ppargs.

End WithSolver.

End SplitArgs.

(** ** Several seeds in a row *)

Module SeedRuns.
Section WithGenerator.

Context {G : Type}.
Variable integers : G -> nat -> list Z * G.

(** [k] calls of [draw_seed], one after the other: the seeds in the
    order of the calls, and the simulation after the last call. *)
Fixpoint draw_seeds (k : nat) (s : SeedPool.Sim G)
    : result (list Z * SeedPool.Sim G) :=
  match k with
  | O => Ok ([], s)
  | S k' =>
      '(seed, s1) ← SeedPool.draw_seed integers s;
      '(seeds, s2) ← draw_seeds k' s1;
      Ok (seed :: seeds, s2)
  end.

(** A pool within the bounds of its buffer. *)
Definition pool_ok (s : SeedPool.Sim G) : Prop :=
  SeedPool._seed_buffer_size s = (SeedPool.n_cores s * 2)%Z /\
  (1 <= SeedPool.n_cores s)%Z /\
  (SeedPool.n_cores s <= Z.of_nat (length (SeedPool._random_integers s))
   <= SeedPool.n_cores s * 2)%Z.

End WithGenerator.
End SeedRuns.

(** ** Flat keys and mappings for the inverse *)

Module FlatKeys.

(** The flat key of an index written with a minus sign,
    [par___-j]. *)
Definition minus_key (par : string) (j : nat) : string :=
  par +:+ Flatten.sep +:+ String "-" (str j).

(** The mapping with every scalar replaced by NaN. *)
Definition scalars_blank (p : dict param_value) : dict param_value :=
  map (fun item => (item.1, match item.2 with
                            | Scalar _ => Scalar NaN
                            | Vector xs => Vector xs
                            end)) p.

End FlatKeys.

(** * Properties *)

Import Flatten.

(** Unfolds the binds of the [result] monad that stand on a value. *)
Ltac run_bind := cbn [mbind result_bind Py.bind].

(** Settles a decidable fact, such as [NoDup] of a list of names, by
    evaluation. *)
Ltac nodup_by_compute := apply (bool_decide_unpack _); vm_compute; reflexivity.

(** ** Strings *)

#[local] Arguments String.append : simpl nomatch.

Lemma string_of_snoc (l : list ascii) (c : ascii) (t : string) :
  string_of_list_ascii (l ++ [c]) +:+ t = string_of_list_ascii l +:+ String c t.
Proof. induction l as [|a l IH]; cbn; [reflexivity|]. now rewrite IH. Qed.

Lemma append_empty_r (t : string) : t +:+ "" = t.
Proof. induction t as [|a t IH]; cbn; [reflexivity|]. now rewrite IH. Qed.

Lemma contains_cons p c t :
  contains p (String c t) = false ->
  starts_with p (String c t) = false /\ contains p t = false.
Proof. cbn [contains]. intros H. now apply orb_false_elim in H. Qed.

Lemma split_from_no_sep p t cur :
  contains p t = false ->
  split_from p 0 cur t = [string_of_rev cur +:+ t].
Proof.
  revert cur. induction t as [|c t IH]; intros cur H.
  - cbn. now rewrite append_empty_r.
  - apply contains_cons in H as [Hs Hc].
    cbn [split_from]. rewrite Hs, (IH _ Hc).
    unfold string_of_rev. cbn [rev]. now rewrite string_of_snoc.
Qed.

Lemma split_no_sep p t : contains p t = false -> split p t = [t].
Proof. intros H. unfold split. now rewrite split_from_no_sep. Qed.

Lemma ends_with_char_cons c a t :
  t <> "" -> ends_with_char c (String a t) = ends_with_char c t.
Proof. destruct t; [congruence|reflexivity]. Qed.

(** The separator can only begin inside [par +:+ sep +:+ d] where it
    begins inside [par], or where [par] ends in an underscore. *)
Lemma starts_with_sep_app c par d :
  starts_with sep (String c par) = false ->
  ends_with_char "_" (String c par) = false ->
  starts_with sep (String c par +:+ sep +:+ d) = false.
Proof.
  unfold sep. cbn [starts_with append].
  destruct (Ascii.eqb_spec "_" c) as [<-|]; [|reflexivity].
  destruct par as [|c2 par]; [cbn; discriminate|].
  cbn [starts_with append].
  destruct (Ascii.eqb_spec "_" c2) as [<-|]; [|reflexivity].
  destruct par as [|c3 par]; [cbn; discriminate|].
  cbn [starts_with append andb].
  destruct (Ascii.eqb_spec "_" c3) as [<-|]; [discriminate|reflexivity].
Qed.

Lemma split_from_key par d cur :
  contains sep par = false ->
  ends_with_char "_" par = false ->
  contains sep d = false ->
  split_from sep 0 cur (par +:+ sep +:+ d) = [string_of_rev cur +:+ par; d].
Proof.
  revert cur. induction par as [|c par IH]; intros cur Hc He Hd.
  - cbn. rewrite append_empty_r. f_equal.
    change (split_from "___" 0 [] d) with (split sep d).
    now apply split_no_sep.
  - pose proof (contains_cons _ _ _ Hc) as [Hs Hc'].
    pose proof (starts_with_sep_app c par d Hs He) as Hs'.
    change (String c par +:+ sep +:+ d) with (String c (par +:+ sep +:+ d)) in *.
    cbn [split_from]. rewrite Hs'.
    rewrite IH; [| assumption | | assumption].
    + unfold string_of_rev. cbn [rev]. now rewrite string_of_snoc.
    + destruct par; [reflexivity|]. now rewrite ends_with_char_cons in He.
Qed.

Lemma str_no_sep i : contains sep (str i) = false.
Proof.
  unfold str. generalize (Nat.to_uint i) as d.
  induction d; cbn; try rewrite IHd; reflexivity.
Qed.

Lemma split_key par i :
  contains sep par = false ->
  ends_with_char "_" par = false ->
  split sep (key par i) = [par; str i].
Proof.
  intros Hc He. unfold split, key.
  rewrite split_from_key; auto using str_no_sep.
Qed.

Lemma to_uint_not_nil i : Nat.to_uint i <> Nil.
Proof.
  intros H. pose proof (Unsigned.of_to i) as Hi. rewrite H in Hi.
  cbn in Hi. subst i. discriminate.
Qed.

Lemma int_string_of_uint (u : uint) :
  u <> Nil ->
  int (NilEmpty.string_of_uint u) = Ok (Z.of_nat (Nat.of_uint u)).
Proof.
  intros Hu. unfold int.
  destruct u as [|u|u|u|u|u|u|u|u|u|u]; [congruence|..];
    match goal with
    | |- context [NilEmpty.string_of_uint ?d] =>
        pose proof (NilEmpty.usu d) as H
    end;
    cbn [NilEmpty.string_of_uint] in *;
    cbn [Ascii.eqb Bool.eqb]; unfold digits_value; now rewrite H.
Qed.

Lemma int_str i : int (str i) = Ok (Z.of_nat i).
Proof.
  unfold str. rewrite int_string_of_uint by apply to_uint_not_nil.
  now rewrite Unsigned.of_to.
Qed.

(** ** Dictionaries *)

Lemma dict_get_None {V} k (d : dict V) : dict_get k d = None <-> k ∉ keys d.
Proof.
  induction d as [|[k' v] d IH]; cbn.
  - split; [intros _; apply not_elem_of_nil|reflexivity].
  - rewrite not_elem_of_cons. destruct (String.eqb_spec k k') as [->|Hne].
    + split; [discriminate|]. intros []; congruence.
    + rewrite IH. tauto.
Qed.

Lemma dict_set_fresh {V} k (v : V) d :
  k ∉ keys d -> dict_set k v d = d ++ [(k, v)].
Proof.
  induction d as [|[k' v'] d IH]; cbn; [reflexivity|].
  rewrite not_elem_of_cons. intros [Hne Hd].
  destruct (String.eqb_spec k k'); [congruence|]. now rewrite IH.
Qed.

Lemma dict_set_middle {V} k (v old : V) pre post :
  k ∉ keys pre ->
  dict_set k v (pre ++ (k, old) :: post) = pre ++ (k, v) :: post.
Proof.
  induction pre as [|[k' v'] pre IH]; cbn.
  - intros _. now rewrite String.eqb_refl.
  - rewrite not_elem_of_cons. intros [Hne Hd].
    destruct (String.eqb_spec k k'); [congruence|]. now rewrite IH.
Qed.

Lemma dict_get_middle {V} k (v : V) pre post :
  k ∉ keys pre -> dict_get k (pre ++ (k, v) :: post) = Some v.
Proof.
  induction pre as [|[k' v'] pre IH]; cbn.
  - intros _. now rewrite String.eqb_refl.
  - rewrite not_elem_of_cons. intros [Hne Hd].
    destruct (String.eqb_spec k k'); [congruence|]. now apply IH.
Qed.

Lemma dict_get_set_eq {V} k (v : V) d : dict_get k (dict_set k v d) = Some v.
Proof.
  induction d as [|[k' v'] d IH]; cbn.
  - now rewrite String.eqb_refl.
  - destruct (String.eqb_spec k k') as [->|Hne]; cbn.
    + now rewrite String.eqb_refl.
    + destruct (String.eqb_spec k k'); [congruence|assumption].
Qed.

Lemma dict_get_set_ne {V} k k' (v : V) d :
  k <> k' -> dict_get k (dict_set k' v d) = dict_get k d.
Proof.
  intros Hne. induction d as [|[k2 v2] d IH]; cbn.
  - destruct (String.eqb_spec k k'); [congruence|reflexivity].
  - destruct (String.eqb_spec k' k2) as [->|Hne2]; cbn.
    + destruct (String.eqb_spec k k2); [congruence|reflexivity].
    + destruct (String.eqb_spec k k2); [reflexivity|assumption].
Qed.

Lemma keys_app {V} (d1 d2 : dict V) : keys (d1 ++ d2) = keys d1 ++ keys d2.
Proof. apply map_app. Qed.

(** ** The flat keys *)

Lemma append_inj_l (s t t' : string) : s +:+ t = s +:+ t' -> t = t'.
Proof. induction s as [|a s IH]; cbn; [tauto|]. intros [= H]. auto. Qed.

Lemma key_inj par i j : key par i = key par j -> i = j.
Proof.
  unfold key. intros H. do 2 apply append_inj_l in H.
  pose proof (int_str i) as Hi. rewrite H, int_str in Hi.
  injection Hi. lia.
Qed.

Lemma name_ok_scalar par x :
  name_ok (par, Scalar x) = true -> contains sep par = false.
Proof. unfold name_ok; cbn. rewrite andb_true_r. now intros ->%negb_true_iff. Qed.

Lemma name_ok_vector par xs :
  name_ok (par, Vector xs) = true ->
  contains sep par = false /\ ends_with_char "_" par = false.
Proof.
  unfold name_ok; cbn. intros [H1 H2]%andb_true_iff.
  now rewrite negb_true_iff in H1, H2.
Qed.

Lemma owner_entry item k :
  name_ok item = true -> k ∈ keys (entries item) -> owner k = item.1.
Proof.
  destruct item as [par [x|xs]]; intros Hok; unfold entries, keys; cbn [fst snd].
  - cbn [map]. intros ->%list_elem_of_singleton. unfold owner. cbn [fst].
    now rewrite split_no_sep by eauto using name_ok_scalar.
  - apply name_ok_vector in Hok as [Hc He].
    rewrite list_elem_of_fmap. intros (kx & -> & Hin).
    apply list_elem_of_fmap in Hin as (iy & -> & _).
    unfold owner, entry_of. cbn [fst snd]. now rewrite split_key.
Qed.

#[local] Arguments Flatten.sep : simpl never.

(** ** The first loop in closed form *)

Lemma flatten_vector_from par xs i flat :
  (forall j, i <= j -> key par j ∉ keys flat) ->
  foldl (fun flat '(i, subvalue) => dict_set (key par i) subvalue flat)
        flat (enumerate_from i xs)
  = flat ++ map (entry_of par) (enumerate_from i xs).
Proof.
  revert i flat. induction xs as [|x xs IH]; intros i flat Hfresh; cbn [enumerate_from foldl map].
  - now rewrite app_nil_r.
  - rewrite dict_set_fresh by (apply (Hfresh i); lia).
    rewrite IH.
    + now rewrite <- app_assoc.
    + intros j Hj. rewrite keys_app, elem_of_app. intros [Hin|Hin].
      * apply (Hfresh j); [lia|assumption].
      * apply list_elem_of_singleton in Hin. apply key_inj in Hin. lia.
Qed.

Lemma flatten_step_closed flat em h item :
  name_ok item = true ->
  item.1 ∉ keys em ->
  (forall k, k ∈ keys flat -> owner k <> item.1) ->
  flatten_step [] (flat, em, h) item
  = (flat ++ entries item,
     em ++ template_of (length h) [item],
     h ++ arrays_of [item]).
Proof.
  destruct item as [par [x|xs]]; cbn [fst]; intros Hok Hem Hflat;
    unfold flatten_step; cbn [str_in existsb].
  - apply name_ok_scalar in Hok.
    assert (par ∉ keys flat) as Hfresh.
    { intros Hin. apply (Hflat _ Hin). unfold owner.
      now rewrite split_no_sep. }
    unfold dict_mem. apply dict_get_None in Hem as Hget. rewrite Hget.
    rewrite !dict_set_fresh by assumption.
    cbn. now rewrite app_nil_r.
  - apply name_ok_vector in Hok as [Hc He].
    unfold dict_mem. rewrite (dict_set_fresh _ _ _ Hem).
    rewrite dict_get_middle by assumption.
    unfold flatten_vector, enumerate. rewrite flatten_vector_from.
    + reflexivity.
    + intros j _ Hin. apply (Hflat _ Hin). unfold owner.
      now rewrite split_key.
Qed.

Lemma flatten_loop_closed p : forall flat em h,
  NoDup (keys p) ->
  Forall (fun item => name_ok item = true) p ->
  (forall k, k ∈ keys em -> k ∉ keys p) ->
  (forall k, k ∈ keys flat -> owner k ∉ keys p) ->
  foldl (flatten_step []) (flat, em, h) p
  = (flat ++ flat_of p, em ++ template_of (length h) p, h ++ arrays_of p).
Proof.
  induction p as [|item p IH]; intros flat em h Hnd Hok Hem Hflat.
  - cbn. now rewrite !app_nil_r.
  - cbn [keys map] in Hnd. apply NoDup_cons in Hnd as [Hfresh Hnd].
    apply Forall_cons in Hok as [Hok1 Hok].
    cbn [foldl]. rewrite flatten_step_closed; [|assumption|..].
    + rewrite IH; [|assumption|assumption|..].
      * unfold flat_of. cbn [map concat]. rewrite <- !app_assoc.
        destruct item as [par [x|xs]]; cbn [template_of arrays_of app].
        -- now rewrite app_nil_r.
        -- rewrite length_app. cbn [length]. now rewrite Nat.add_1_r.
      * intros k. rewrite keys_app, elem_of_app. intros [Hin|Hin].
        -- specialize (Hem k Hin). cbn [keys map] in Hem.
           now apply not_elem_of_cons in Hem.
        -- destruct item as [par [x|xs]]; cbn in Hin;
             apply list_elem_of_singleton in Hin; now subst.
      * intros k. rewrite keys_app, elem_of_app. intros [Hin|Hin].
        -- specialize (Hflat k Hin). cbn [keys map] in Hflat.
           now apply not_elem_of_cons in Hflat.
        -- now rewrite (owner_entry item k).
    + intros Hin. apply (Hem _ Hin). cbn [keys map]. apply list_elem_of_here.
    + intros k Hin Heq. apply (Hflat k Hin). cbn [keys map]. rewrite Heq.
      apply list_elem_of_here.
Qed.

Lemma flatten_closed p :
  NoDup (keys p) ->
  Forall (fun item => name_ok item = true) p ->
  flatten_parameter_dict p [] = (flat_of p, template_of 0 p, arrays_of p).
Proof.
  intros Hnd Hok. unfold flatten_parameter_dict.
  rewrite flatten_loop_closed; try assumption; try reflexivity.
  all: intros k Hin; cbn in Hin; now apply elem_of_nil in Hin.
Qed.

(** ** The second loop *)

Lemma reverse_step_vector par i x d h a arr :
  contains sep par = false ->
  ends_with_char "_" par = false ->
  dict_get par d = Some (VArray a) ->
  h !! a = Some arr ->
  i < length arr ->
  reverse_step (d, h) (entry_of par (i, x)) = Ok (d, <[a := <[i := x]> arr]> h).
Proof.
  intros Hc He Hd Ha Hi. unfold reverse_step, entry_of. cbn [fst snd].
  rewrite split_key by assumption. rewrite Hd, int_str. cbn.
  unfold setitem. rewrite Ha.
  destruct (Z.leb_spec 0 (Z.of_nat i)); [|lia].
  destruct (Z.ltb_spec (Z.of_nat i) (Z.of_nat (length arr))); [|lia].
  cbn. now rewrite Nat2Z.id.
Qed.

Lemma reverse_loop_vector par xs : forall i d h a done rest,
  contains sep par = false ->
  ends_with_char "_" par = false ->
  dict_get par d = Some (VArray a) ->
  h !! a = Some (done ++ rest) ->
  length done = i ->
  length rest = length xs ->
  reverse_loop (Ok (d, h)) (map (entry_of par) (enumerate_from i xs))
  = Ok (d, <[a := done ++ xs]> h).
Proof.
  induction xs as [|x xs IH]; intros i d h a done rest Hc He Hd Ha Hi Hl.
  - destruct rest; [|discriminate]. cbn [enumerate_from map]. unfold reverse_loop.
    cbn [foldl]. rewrite app_nil_r in *. now rewrite list_insert_id.
  - destruct rest as [|r rest]; [discriminate|].
    cbn [enumerate_from map]. unfold reverse_loop. cbn [foldl].
    change (st' ← Ok (d, h); reverse_step st' (entry_of par (i, x)))
      with (reverse_step (d, h) (entry_of par (i, x))).
    rewrite (reverse_step_vector par i x d h a (done ++ r :: rest))
      by (try assumption; rewrite length_app; cbn; lia).
    fold (reverse_loop (Ok (d, <[a:=<[i:=x]> (done ++ r :: rest)]> h))
            (map (entry_of par) (enumerate_from (S i) xs))).
    assert (a < length h) as Hlt by (eapply lookup_lt_Some; eassumption).
    assert (<[i:=x]> (done ++ r :: rest) = (done ++ [x]) ++ rest) as ->.
    { subst i. rewrite insert_app_r_alt by lia. rewrite Nat.sub_diag.
      cbn. now rewrite <- app_assoc. }
    rewrite (IH (S i) d _ a (done ++ [x]) rest); try assumption.
    + rewrite list_insert_insert_eq. now rewrite <- app_assoc.
    + now rewrite list_lookup_insert_eq.
    + rewrite length_app. cbn. lia.
    + cbn in Hl. lia.
Qed.

Lemma reverse_loop_app st flat1 flat2 :
  reverse_loop st (flat1 ++ flat2) = reverse_loop (reverse_loop st flat1) flat2.
Proof. apply foldl_app. Qed.

Lemma reverse_loop_closed p : forall pre hpre hs,
  NoDup (keys p) ->
  Forall (fun item => name_ok item = true) p ->
  (forall k, k ∈ keys p -> k ∉ keys pre) ->
  same_shape hs (vectors_of p) ->
  reverse_loop (Ok (pre ++ template_of (length hpre) p, hpre ++ hs)) (flat_of p)
  = Ok (pre ++ filled_of (length hpre) p, hpre ++ vectors_of p).
Proof.
  induction p as [|[par [x|xs]] p IH]; intros pre hpre hs Hnd Hok Hpre Hs.
  - apply Forall2_nil_inv_r in Hs as ->. reflexivity.
  - cbn [keys map fst] in Hnd. apply NoDup_cons in Hnd as [Hfresh Hnd].
    apply Forall_cons in Hok as [Hok1 Hok]. apply name_ok_scalar in Hok1.
    assert (par ∉ keys pre) as Hp by (apply Hpre; apply list_elem_of_here).
    unfold flat_of. cbn [map concat entries fst snd app template_of filled_of vectors_of].
    unfold reverse_loop. cbn [foldl].
    change (st' ← Ok ?s; reverse_step st' ?it) with (reverse_step s it).
    unfold reverse_step at 2. rewrite split_no_sep by assumption.
    rewrite dict_set_middle by assumption.
    rewrite (cons_middle (par, VFloat x) pre), (cons_middle (par, VFloat x) pre (filled_of _ _)).
    rewrite !app_assoc.
    apply (IH (pre ++ [(par, VFloat x)]) hpre hs); try assumption.
    intros k Hk. rewrite keys_app, elem_of_app. intros [Hin|Hin].
    + apply (Hpre k); [now apply list_elem_of_further|assumption].
    + cbn in Hin. apply list_elem_of_singleton in Hin. now subst.
  - cbn [keys map fst] in Hnd. apply NoDup_cons in Hnd as [Hfresh Hnd].
    apply Forall_cons in Hok as [Hok1 Hok].
    apply name_ok_vector in Hok1 as [Hc He].
    assert (par ∉ keys pre) as Hp by (apply Hpre; apply list_elem_of_here).
    cbn [vectors_of] in Hs. apply Forall2_cons_inv_r in Hs as (arr & hs' & Hlen & Hs & ->).
    unfold flat_of. cbn [map concat entries fst snd template_of filled_of vectors_of].
    rewrite reverse_loop_app. unfold enumerate.
    change (map _ (enumerate_from 0 xs)) with (map (entry_of par) (enumerate_from 0 xs)).
    rewrite (reverse_loop_vector par xs 0 _ _ (length hpre) [] arr);
      try assumption; try reflexivity.
    + rewrite app_nil_l.
      assert (<[length hpre:=xs]> (hpre ++ arr :: hs') = (hpre ++ [xs]) ++ hs') as ->.
      { rewrite insert_app_r_alt by lia. rewrite Nat.sub_diag. cbn.
        now rewrite <- app_assoc. }
      rewrite (cons_middle (par, VArray (length hpre)) pre),
              (cons_middle (par, VArray (length hpre)) pre (filled_of _ _)).
      rewrite !app_assoc.
      replace (S (length hpre)) with (length (hpre ++ [xs]))
        by (rewrite length_app; cbn; lia).
      fold (flat_of p).
      rewrite (IH (pre ++ [(par, VArray (length hpre))]) (hpre ++ [xs]) hs');
        try assumption.
      * now rewrite <- (app_assoc hpre [xs]).
      * intros k Hk. rewrite keys_app, elem_of_app. intros [Hin|Hin].
        -- apply (Hpre k); [now apply list_elem_of_further|assumption].
        -- cbn in Hin. apply list_elem_of_singleton in Hin. now subst.
    + now apply dict_get_middle.
    + now rewrite list_lookup_middle.
Qed.

Lemma read_dict_filled p : forall hpre,
  read_dict (hpre ++ vectors_of p) (filled_of (length hpre) p) = p.
Proof.
  induction p as [|[par [x|xs]] p IH]; intros hpre; cbn [filled_of vectors_of read_dict map].
  - reflexivity.
  - cbn. f_equal. apply IH.
  - cbn [fst snd read]. rewrite list_lookup_middle by reflexivity. cbn [default].
    f_equal. rewrite (cons_middle xs hpre), app_assoc.
    replace (S (length hpre)) with (length (hpre ++ [xs]))
      by (rewrite length_app; cbn; lia).
    apply IH.
Qed.

(** ** Round trip *)

Lemma same_shape_arrays_vectors p : same_shape (arrays_of p) (vectors_of p).
Proof.
  induction p as [|[par [x|xs]] p IH]; cbn; [constructor|assumption|].
  constructor; [apply length_replicate|assumption].
Qed.

Lemma same_shape_trans h1 h2 h3 :
  same_shape h1 h2 -> same_shape h2 h3 -> same_shape h1 h3.
Proof.
  unfold same_shape. intros H12. revert h3.
  induction H12 as [|a1 a2 h1 h2 Ha H12 IH]; intros h3 H23.
  - now apply Forall2_nil_inv_l in H23 as ->.
  - apply Forall2_cons_inv_l in H23 as (a3 & h3' & Ha' & H23 & ->).
    constructor; [congruence|auto].
Qed.

Lemma same_shape_sym h1 h2 : same_shape h1 h2 -> same_shape h2 h1.
Proof.
  unfold same_shape. induction 1; constructor; auto.
Qed.

(** C2, for names that the flat keys can carry: when no name holds
    the separator and no vector name ends in an underscore, the
    closure returned by [flatten_parameter_dict p []], applied to the
    flat mapping returned with it, gives back [p], entry for entry and
    in the same order. This holds at the first call and at every later
    one: [h] is any store with arrays of the lengths allocated by
    [flatten_parameter_dict], and the call leaves such a store. *)
Theorem flatten_round_trip (p : dict param_value) :
  NoDup (keys p) ->
  Forall (fun item => name_ok item = true) p ->
  exists flat empty_map h0,
    flatten_parameter_dict p [] = (flat, empty_map, h0) /\
    forall h, same_shape h h0 ->
      exists param_dict h',
        reverse_mapper empty_map h flat = Ok (param_dict, h') /\
        read_dict h' param_dict = p /\
        same_shape h' h0.
Proof.
  intros Hnd Hok. exists (flat_of p), (template_of 0 p), (arrays_of p).
  split; [now apply flatten_closed|].
  intros h Hh. exists (filled_of 0 p), (vectors_of p).
  pose proof (reverse_loop_closed p [] [] h Hnd Hok) as Hloop.
  cbn [app length] in Hloop. unfold reverse_mapper. fold (reverse_loop (Ok (template_of 0 p, h)) (flat_of p)).
  rewrite Hloop.
  - split; [reflexivity|]. split.
    + apply (read_dict_filled p []).
    + apply same_shape_sym, same_shape_arrays_vectors.
  - intros k _. apply not_elem_of_nil.
  - eapply same_shape_trans; [eassumption|apply same_shape_arrays_vectors].
Qed.

Lemma flatten_round_trip_witness :
  exists flat empty_map h0,
    flatten_parameter_dict p_example [] = (flat, empty_map, h0) /\
    forall h, same_shape h h0 ->
      exists param_dict h',
        reverse_mapper empty_map h flat = Ok (param_dict, h') /\
        read_dict h' param_dict = p_example /\
        same_shape h' h0.
Proof.
  apply flatten_round_trip.
  - nodup_by_compute.
  - repeat constructor.
Defined.

(** A scalar whose name holds the separator: its flat key is split
    into a name and an index, and the lookup of that name fails. And a
    vector whose name ends in an underscore: the separator is found
    one character early in its flat key. *)
Lemma flatten_separator_in_name :
  (let p := [("a___0", Scalar (Fin 1))] in
   NoDup (keys p) /\
   exists flat empty_map h0,
     flatten_parameter_dict p [] = (flat, empty_map, h0) /\
     reverse_mapper empty_map h0 flat = Raise KeyError /\
     ~ exists param_dict h',
         reverse_mapper empty_map h0 flat = Ok (param_dict, h') /\
         read_dict h' param_dict = p) /\
  (let p := [("a_", Vector [Fin 1])] in
   NoDup (keys p) /\
   exists flat empty_map h0,
     flatten_parameter_dict p [] = (flat, empty_map, h0) /\
     split sep "a____0" = ["a"; "_0"] /\
     reverse_mapper empty_map h0 flat = Raise KeyError).
Proof.
  cbn zeta. split; (split; [nodup_by_compute|]).
  - do 3 eexists. split; [reflexivity|]. split; [reflexivity|].
    intros (d & h' & H & _). vm_compute in H. discriminate.
  - do 3 eexists. repeat split.
Qed.

(** ** A first call on a partial mapping *)

Lemma flatten_exclude_loop E p : forall st,
  foldl (flatten_step E) st p = foldl (flatten_step []) st (included E p).
Proof.
  induction p as [|[par value] p IH]; intros [[flat em] h]; [reflexivity|].
  unfold included. rewrite filter_cons. cbn [fst foldl].
  destruct (decide (str_in par E = false)) as [Hin|Hin].
  - cbn [foldl]. rewrite IH. f_equal.
    unfold flatten_step. rewrite Hin. reflexivity.
  - apply not_false_is_true in Hin. rewrite IH. f_equal.
    unfold flatten_step. now rewrite Hin.
Qed.

Lemma flatten_exclude E p :
  flatten_parameter_dict p E = flatten_parameter_dict (included E p) [].
Proof. apply flatten_exclude_loop. Qed.

Lemma included_keys E p k : k ∈ keys (included E p) -> k ∈ keys p /\ str_in k E = false.
Proof.
  unfold keys, included. rewrite !list_elem_of_fmap.
  intros ([par v] & -> & [H1 H2]%list_elem_of_filter). split; [eauto|exact H1].
Qed.

Lemma included_NoDup E p : NoDup (keys p) -> NoDup (keys (included E p)).
Proof.
  induction p as [|[par v] p IH]; intros Hnd; [constructor|].
  cbn [keys map fst] in Hnd. apply NoDup_cons in Hnd as [Hfresh Hnd].
  unfold included. rewrite filter_cons. cbn [fst].
  destruct (decide _); [|now apply IH].
  cbn [keys map fst]. apply NoDup_cons. split; [|now apply IH].
  intros Hin. apply Hfresh. fold (keys (included E p)) in Hin.
  now apply included_keys in Hin as [? _].
Qed.

Lemma included_name_ok E p :
  Forall (fun item => name_ok item = true) p ->
  Forall (fun item => name_ok item = true) (included E p).
Proof.
  rewrite !Forall_forall. intros H item [_ Hin]%list_elem_of_filter. auto.
Qed.


(** *** The template and its arrays, entry by entry *)

Lemma template_of_keys p : forall base, keys (template_of base p) = keys p.
Proof.
  induction p as [|[par [x|xs]] p IH]; intros base; cbn; [reflexivity|..];
    f_equal; apply IH.
Qed.

(** A scalar entry of the template is NaN. *)
Lemma template_of_scalar p : forall base par x,
  dict_get par (template_of base p) = Some (VFloat x) -> x = NaN.
Proof.
  induction p as [|[par' [x'|xs]] p IH]; intros base par x; cbn; [discriminate|..];
    destruct (String.eqb par par'); try congruence; apply IH.
Qed.

(** The entry of an item: a scalar gets a float, a vector the address
    of an array of its length, filled with NaN. *)
Lemma template_of_item p : forall base par value,
  NoDup (keys p) ->
  (par, value) ∈ p ->
  match value with
  | Scalar _ => exists x, dict_get par (template_of base p) = Some (VFloat x)
  | Vector xs =>
      exists a, dict_get par (template_of base p) = Some (VArray a) /\
        base <= a /\
        arrays_of p !! (a - base) = Some (replicate (length xs) NaN)
  end.
Proof.
  induction p as [|[par' value'] p IH]; intros base par value Hnd Hin.
  - now apply elem_of_nil in Hin.
  - cbn [keys map fst] in Hnd. apply NoDup_cons in Hnd as [Hfresh Hnd].
    apply elem_of_cons in Hin as [[= -> ->]|Hin].
    + destruct value' as [x|xs]; cbn; rewrite String.eqb_refl.
      * eauto.
      * exists base. rewrite Nat.sub_diag. auto.
    + assert (par <> par') as Hne.
      { intros ->. apply Hfresh. apply list_elem_of_fmap. now exists (par', value). }
      apply String.eqb_neq in Hne.
      destruct value' as [x'|xs']; cbn [template_of arrays_of dict_get]; rewrite Hne.
      * now apply IH.
      * specialize (IH (S base) par value Hnd Hin).
        destruct value as [x|xs]; [exact IH|].
        destruct IH as (a & Ha & Hle & Harr). exists a. split; [exact Ha|].
        split; [lia|]. replace (a - base) with (S (a - S base)) by lia. exact Harr.
Qed.

Lemma template_of_addr_ge p : forall base par a,
  dict_get par (template_of base p) = Some (VArray a) -> base <= a.
Proof.
  induction p as [|[par' [x'|xs']] p IH]; intros base par a; cbn; [congruence|..];
    destruct (String.eqb par par'); try congruence.
  - apply IH.
  - intros [= <-]. lia.
  - intros H%IH. lia.
Qed.

(** Two names with one address are one name. *)
Lemma template_of_addr_inj p : forall base par1 par2 a,
  dict_get par1 (template_of base p) = Some (VArray a) ->
  dict_get par2 (template_of base p) = Some (VArray a) ->
  par1 = par2.
Proof.
  induction p as [|[par' [x'|xs']] p IH]; intros base par1 par2 a; cbn; [congruence|..].
  - destruct (String.eqb par1 par'), (String.eqb par2 par'); try congruence. apply IH.
  - destruct (String.eqb_spec par1 par') as [->|H1], (String.eqb_spec par2 par') as [->|H2];
      cbn beta iota.
    + reflexivity.
    + intros [= <-] H%template_of_addr_ge. lia.
    + intros H%template_of_addr_ge [= <-]. lia.
    + apply IH.
Qed.

(** Every array of a fresh template is filled with NaN. *)
Lemma arrays_of_nan p a arr i :
  arrays_of p !! a = Some arr -> i < length arr -> arr !! i = Some NaN.
Proof.
  revert a. induction p as [|[par [x|xs]] p IH]; intros a; cbn; [discriminate|apply IH|].
  destruct a as [|a]; cbn; [|apply IH].
  intros [= <-] Hi. rewrite length_replicate in Hi. now apply lookup_replicate_2.
Qed.

(** *** What a partial mapping supplies *)

Lemma dict_get_snoc {V} k k' (v : V) q :
  dict_get k (q ++ [(k', v)])
  = match dict_get k q with
    | Some x => Some x
    | None => if String.eqb k k' then Some v else None
    end.
Proof.
  induction q as [|[k2 v2] q IH]; cbn; [reflexivity|].
  destruct (String.eqb k k2); [reflexivity|apply IH].
Qed.

Lemma supplied_snoc_eq q k v : k ∉ keys q -> supplied (q ++ [(k, v)]) k = v.
Proof.
  intros H%dict_get_None. unfold supplied.
  now rewrite dict_get_snoc, H, String.eqb_refl.
Qed.

Lemma supplied_snoc_ne q k k' v : k' <> k -> supplied (q ++ [(k, v)]) k' = supplied q k'.
Proof.
  intros H%String.eqb_neq. unfold supplied. rewrite dict_get_snoc, H.
  now destruct (dict_get k' q).
Qed.

Lemma contains_key par i : contains sep (key par i) = true.
Proof.
  unfold key. induction par as [|c par IH].
  - reflexivity.
  - cbn [String.append contains]. rewrite IH. apply orb_true_r.
Qed.

Lemma key_not_plain par i par' : contains sep par' = false -> key par i <> par'.
Proof. intros H <-. now rewrite contains_key in H. Qed.

Lemma key_inj_name par1 par2 i j :
  contains sep par1 = false -> ends_with_char "_" par1 = false ->
  contains sep par2 = false -> ends_with_char "_" par2 = false ->
  key par1 i = key par2 j -> par1 = par2 /\ i = j.
Proof.
  intros Hc1 He1 Hc2 He2 H.
  pose proof (split_key par1 i Hc1 He1) as H1. rewrite H in H1.
  rewrite (split_key par2 j Hc2 He2) in H1. injection H1 as -> _.
  split; [reflexivity|]. now apply key_inj in H.
Qed.

Lemma elem_of_flat_of p k :
  k ∈ keys (flat_of p) ->
  exists item, item ∈ p /\ k ∈ keys (entries item).
Proof.
  induction p as [|item p IH].
  - intros H. now apply elem_of_nil in H.
  - unfold flat_of. cbn [map concat]. rewrite keys_app, elem_of_app.
    intros [H|H].
    + exists item. split; [apply list_elem_of_here|assumption].
    + destruct (IH H) as (item' & Hin & Hk).
      exists item'. split; [now apply list_elem_of_further|assumption].
Qed.

Lemma elem_of_enumerate_from {A} (l : list A) : forall base i x,
  (i, x) ∈ enumerate_from base l -> base <= i < base + length l.
Proof.
  induction l as [|y l IH]; intros base i x; cbn.
  - intros H. now apply elem_of_nil in H.
  - intros [[= -> ->]|H]%elem_of_cons; [lia|]. apply IH in H. lia.
Qed.

Lemma elem_of_entries_vector par xs k :
  k ∈ keys (entries (par, Vector xs)) -> exists i, i < length xs /\ k = key par i.
Proof.
  unfold entries, keys. cbn [fst snd]. rewrite list_elem_of_fmap.
  intros (kv & -> & Hin). apply list_elem_of_fmap in Hin as ([i x] & -> & Hin).
  apply elem_of_enumerate_from in Hin. exists i. split; [lia|reflexivity].
Qed.

Lemma keys_dict_set_mem {V} k (v : V) d : k ∈ keys d -> keys (dict_set k v d) = keys d.
Proof.
  induction d as [|[k' v'] d IH]; cbn.
  - intros H. now apply elem_of_nil in H.
  - intros Hin. destruct (String.eqb_spec k k') as [->|Hne]; [reflexivity|].
    cbn. f_equal. apply IH. apply elem_of_cons in Hin as [?|?]; [congruence|assumption].
Qed.

Lemma dict_get_Some_keys {V} k (v : V) d : dict_get k d = Some v -> k ∈ keys d.
Proof.
  intros H. destruct (decide (k ∈ keys d)) as [?|Hn]; [assumption|].
  apply dict_get_None in Hn. congruence.
Qed.

Lemma same_shape_lookup h1 h2 a arr2 :
  same_shape h1 h2 -> h2 !! a = Some arr2 ->
  exists arr1, h1 !! a = Some arr1 /\ length arr1 = length arr2.
Proof.
  intros Hs Ha. destruct (Forall2_lookup_r _ _ _ _ _ Hs Ha) as (arr1 & H1 & Hl).
  eauto.
Qed.

Lemma same_shape_insert h1 h2 a arr arr' :
  same_shape h1 h2 -> h1 !! a = Some arr -> length arr' = length arr ->
  same_shape (<[a := arr']> h1) h2.
Proof.
  intros Hs Ha Hl. unfold same_shape in *.
  revert a Ha. induction Hs as [|b1 b2 h1 h2 Hb Hs IH]; intros a Ha; [discriminate|].
  destruct a as [|a]; cbn in *.
  - injection Ha as ->. constructor; [congruence|assumption].
  - constructor; [assumption|]. now apply IH.
Qed.

(** *** The state of the loop after a partial mapping [q] *)

Lemma partial_state_init p :
  partial_state p [] (template_of 0 p) (arrays_of p).
Proof.
  split; [|split; [|split]].
  - clear. unfold same_shape. induction (arrays_of p); constructor; auto.
  - apply template_of_keys.
  - intros par. destruct (dict_get par (template_of 0 p)) as [[x|a]|] eqn:E; try reflexivity.
    apply template_of_scalar in E as ->. reflexivity.
  - intros par a arr i _ Ha Hi. now apply (arrays_of_nan p a).
Qed.

Lemma partial_state_step p q d h k v :
  NoDup (keys p) ->
  Forall (fun item => name_ok item = true) p ->
  partial_state p q d h ->
  k ∈ keys (flat_of p) ->
  k ∉ keys q ->
  exists d' h',
    reverse_step (d, h) (k, v) = Ok (d', h') /\
    partial_state p (q ++ [(k, v)]) d' h'.
Proof.
  intros Hnd Hok (Hshape & Hkeys & Hd & Hh) Hk Hfresh.
  apply elem_of_flat_of in Hk as ([par value] & Hitem & Hk).
  pose proof (proj1 (Forall_forall _ _) Hok _ Hitem) as Hname.
  pose proof (template_of_item p 0 par value Hnd Hitem) as Htmpl.
  assert (forall par' x', dict_get par' (template_of 0 p) = Some (VFloat x') ->
            contains sep par' = false) as Hplain.
  { intros par' x' E. pose proof (dict_get_Some_keys _ _ _ E) as Hin.
    rewrite template_of_keys in Hin. apply list_elem_of_fmap in Hin as ([par2 v2] & -> & Hin).
    pose proof (proj1 (Forall_forall _ _) Hok _ Hin) as Hn2.
    pose proof (template_of_item p 0 par2 v2 Hnd Hin) as H2. cbn [fst] in *.
    destruct v2 as [x2|xs2]; [now apply name_ok_scalar in Hn2|].
    destruct H2 as (a & Ha & _). congruence. }
  assert (forall par' a', dict_get par' (template_of 0 p) = Some (VArray a') ->
            contains sep par' = false /\ ends_with_char "_" par' = false) as Hvec.
  { intros par' a' E. pose proof (dict_get_Some_keys _ _ _ E) as Hin.
    rewrite template_of_keys in Hin. apply list_elem_of_fmap in Hin as ([par2 v2] & -> & Hin).
    pose proof (proj1 (Forall_forall _ _) Hok _ Hin) as Hn2.
    pose proof (template_of_item p 0 par2 v2 Hnd Hin) as H2. cbn [fst] in *.
    destruct v2 as [x2|xs2]; [|now apply name_ok_vector in Hn2].
    destruct H2 as (x & Hx). congruence. }
  destruct value as [x|xs].
  - (* a scalar: the entry of [par] is rebound *)
    cbn in Hk. apply list_elem_of_singleton in Hk. subst k.
    destruct Htmpl as (x0 & Hx0). apply name_ok_scalar in Hname.
    unfold reverse_step. rewrite split_no_sep by assumption.
    do 2 eexists. split; [reflexivity|].
    assert (par ∈ keys d) as Hin.
    { rewrite Hkeys. apply list_elem_of_fmap. now exists (par, Scalar x). }
    split; [assumption|]. split; [now rewrite keys_dict_set_mem|]. split.
    + intros par'. specialize (Hd par').
      destruct (dict_get par' (template_of 0 p)) as [[x'|a']|] eqn:E; [| |exact I].
      * destruct (String.eqb_spec par' par) as [->|Hne].
        -- rewrite dict_get_set_eq, supplied_snoc_eq by assumption. reflexivity.
        -- rewrite dict_get_set_ne, supplied_snoc_ne by assumption. exact Hd.
      * rewrite dict_get_set_ne; [exact Hd|]. congruence.
    + intros par' a' arr i E Ha Hi.
      rewrite supplied_snoc_ne by (now apply key_not_plain).
      now apply (Hh par' a' arr i).
  - (* an element of a vector: written into the shared array *)
    apply elem_of_entries_vector in Hk as (i & Hi & ->).
    destruct Htmpl as (a & Ha & _ & Harr). rewrite Nat.sub_0_r in Harr.
    apply name_ok_vector in Hname as [Hc He].
    destruct (same_shape_lookup _ _ _ _ Hshape Harr) as (arr & Harr1 & Hlen).
    rewrite length_replicate in Hlen.
    pose proof (Hd par) as Hdpar. rewrite Ha in Hdpar.
    exists d, (<[a := <[i := v]> arr]> h). split.
    { apply (reverse_step_vector par i v d h a arr); try assumption. lia. }
    split; [|split; [|split]].
    + eapply same_shape_insert; [eassumption..|]. now rewrite length_insert.
    + assumption.
    + intros par'. specialize (Hd par').
      destruct (dict_get par' (template_of 0 p)) as [[x'|a']|] eqn:E; [|exact Hd|exact I].
      rewrite supplied_snoc_ne; [exact Hd|].
      intros Heq. symmetry in Heq. revert Heq. apply key_not_plain. eauto.
    + intros par' a' arr' j E Ha' Hj.
      destruct (decide (a' = a)) as [->|Hne].
      * assert (par' = par) as -> by (eapply template_of_addr_inj; eassumption).
        rewrite list_lookup_insert_eq in Ha' by (eapply lookup_lt_Some; eassumption).
        injection Ha' as <-. rewrite length_insert in Hj.
        destruct (decide (j = i)) as [->|Hji].
        -- rewrite list_lookup_insert_eq by assumption.
           now rewrite supplied_snoc_eq.
        -- rewrite list_lookup_insert_ne by congruence.
           rewrite supplied_snoc_ne by (intros H%key_inj; congruence).
           now apply (Hh par a arr j).
      * rewrite list_lookup_insert_ne in Ha' by congruence.
        rewrite supplied_snoc_ne; [now apply (Hh par' a' arr' j)|].
        destruct (Hvec par' a' E) as [Hc' He'].
        intros [-> _]%key_inj_name; try assumption. congruence.
Qed.

Lemma reverse_loop_partial p q :
  NoDup (keys p) ->
  Forall (fun item => name_ok item = true) p ->
  NoDup (keys q) ->
  (forall k, k ∈ keys q -> k ∈ keys (flat_of p)) ->
  exists d h,
    reverse_loop (Ok (template_of 0 p, arrays_of p)) q = Ok (d, h) /\
    partial_state p q d h.
Proof.
  intros Hnd Hok. induction q as [|[k v] q IH] using rev_ind; intros Hq Hsub.
  - do 2 eexists. split; [reflexivity|apply partial_state_init].
  - rewrite keys_app in Hq. apply NoDup_app in Hq as (Hq & Hfresh & _).
    destruct IH as (d & h & Hloop & Hst); [assumption|..].
    { intros k' Hk'. apply Hsub. rewrite keys_app, elem_of_app. now left. }
    destruct (partial_state_step p q d h k v Hnd Hok Hst) as (d' & h' & Hstep & Hst').
    { apply Hsub. rewrite keys_app, elem_of_app. right. apply list_elem_of_here. }
    { intros Hin. apply (Hfresh k Hin). apply list_elem_of_here. }
    exists d', h'. split; [|assumption].
    rewrite reverse_loop_app, Hloop. exact Hstep.
Qed.

Lemma dict_get_read_dict h d par :
  dict_get par (read_dict h d) = read h <$> dict_get par d.
Proof.
  induction d as [|[k v] d IH]; cbn; [reflexivity|].
  destruct (String.eqb par k); [reflexivity|apply IH].
Qed.

(** At a first call the inverse does what is expected of it, for a
    mapping of scalars and float arrays with distinct names that are
    free of the separator (the name of a vector not ending in an
    underscore). On the
    template as [flatten_parameter_dict] leaves it, the inverse
    applied to a mapping with some of the flat keys returns the names
    of the items not excluded; a scalar holds
    the supplied value, or NaN when its key is absent, and a vector
    has its length and holds at each index the supplied value, or NaN
    when the key of the index is absent. Excluded names have no flat
    key and no entry. *)
Lemma reverse_mapper_first_call (p : dict param_value)
    (exclude_params : list string) (q : dict pyfloat) :
  NoDup (keys p) ->
  Forall (fun item => name_ok item = true) p ->
  NoDup (keys q) ->
  exists flat empty_map h0,
    flatten_parameter_dict p exclude_params = (flat, empty_map, h0) /\
    flat = flat_of (included exclude_params p) /\
    ((forall k, k ∈ keys q -> k ∈ keys flat) ->
     exists param_dict h',
       reverse_mapper empty_map h0 q = Ok (param_dict, h') /\
       keys param_dict = keys (included exclude_params p) /\
       forall par value,
         (par, value) ∈ included exclude_params p ->
         match value with
         | Scalar _ =>
             dict_get par (read_dict h' param_dict)
             = Some (Scalar (supplied q par))
         | Vector xs =>
             exists ys,
               dict_get par (read_dict h' param_dict) = Some (Vector ys) /\
               length ys = length xs /\
               forall i, i < length xs ->
                 ys !! i = Some (supplied q (key par i))
         end).
Proof.
  intros Hnd Hok Hq.
  pose proof (included_NoDup exclude_params p Hnd) as Hnd'.
  pose proof (included_name_ok exclude_params p Hok) as Hok'.
  set (p' := included exclude_params p) in *.
  exists (flat_of p'), (template_of 0 p'), (arrays_of p').
  split; [rewrite flatten_exclude; now apply flatten_closed|].
  split; [reflexivity|]. intros Hsub.
  destruct (reverse_loop_partial p' q Hnd' Hok' Hq Hsub)
    as (d & h & Hloop & Hshape & Hkeys & Hd & Hh).
  exists d, h. split; [exact Hloop|]. split; [exact Hkeys|].
  intros par value Hitem.
  pose proof (template_of_item p' 0 par value Hnd' Hitem) as Htmpl.
  specialize (Hd par). rewrite dict_get_read_dict.
  destruct value as [x|xs].
  - destruct Htmpl as (x0 & Hx0). rewrite Hx0 in Hd. now rewrite Hd.
  - destruct Htmpl as (a & Ha & _ & Harr). rewrite Nat.sub_0_r in Harr.
    rewrite Ha in Hd. rewrite Hd. cbn [fmap option_fmap option_map read].
    destruct (same_shape_lookup _ _ _ _ Hshape Harr) as (arr & Harr1 & Hlen).
    rewrite length_replicate in Hlen. rewrite Harr1. cbn [default].
    exists arr. split; [reflexivity|]. split; [assumption|].
    intros i Hi. apply (Hh par a arr i); [assumption..|lia].
Qed.

(** ** The template of [reverse_mapper] is shared between calls *)

(** C9 at a second call. The vector [k] has two elements. A first
    call with the partial mapping [{"k___0": 5}] returns [5, NaN] for
    [k]; it has written the 5 into the array of [empty_map]. A second
    call with the empty mapping then returns [5, NaN] again, where
    every index is absent and NaN is expected. *)
Lemma reverse_mapper_template_is_shared :
  let p := [("k", Vector [Fin 1; Fin 2])] in
  exists flat empty_map h0 d1 h1 d2 h2,
    flatten_parameter_dict p [] = (flat, empty_map, h0) /\
    reverse_mapper empty_map h0 [("k___0", Fin 5)] = Ok (d1, h1) /\
    read_dict h1 d1 = [("k", Vector [Fin 5; NaN])] /\
    reverse_mapper empty_map h1 [] = Ok (d2, h2) /\
    read_dict h2 d2 = [("k", Vector [Fin 5; NaN])] /\
    read_dict h2 d2 <> [("k", Vector [NaN; NaN])].
Proof.
  cbn zeta. do 7 eexists. repeat (split; [reflexivity|]). discriminate.
Qed.

Import Simulation Diffrax.

(** ** Coordinates *)

Lemma coords_loop_snoc {A} (acc : dict (list A)) l dim x_i :
  coords_loop acc (l ++ [(dim, x_i)]) = dict_set dim x_i (coords_loop acc l).
Proof. unfold coords_loop. now rewrite foldl_app. Qed.

(** The last pair of a name decides its entry. *)
Lemma coords_loop_lookup {A} (l : list (string * list A)) : forall acc i dim x_i,
  l !! i = Some (dim, x_i) ->
  (forall j y, i < j -> l !! j <> Some (dim, y)) ->
  dict_get dim (coords_loop acc l) = Some x_i.
Proof.
  induction l as [|[dim' x'] l IH] using rev_ind; intros acc i dim x_i Hi Hlast.
  - discriminate.
  - rewrite coords_loop_snoc.
    destruct (decide (i = length l)) as [->|Hne].
    + rewrite list_lookup_middle in Hi by reflexivity. injection Hi as -> ->.
      apply dict_get_set_eq.
    + assert (i < length l) as Hlt.
      { apply lookup_lt_Some in Hi. rewrite length_app in Hi. cbn in Hi. lia. }
      rewrite lookup_app_l in Hi by assumption.
      assert (dim <> dim') as Hd.
      { intros ->. apply (Hlast (length l) x'); [assumption|].
        now rewrite list_lookup_middle. }
      rewrite dict_get_set_ne by assumption.
      apply (IH acc i dim x_i Hi). intros j y Hj Hl.
      apply (Hlast j y Hj). rewrite lookup_app_l; [assumption|].
      now apply lookup_lt_Some in Hl.
Qed.

Lemma coords_loop_fresh {A} (l : list (string * list A)) : forall acc,
  NoDup (keys acc ++ keys l) -> coords_loop acc l = acc ++ l.
Proof.
  induction l as [|[dim x_i] l IH]; intros acc Hnd.
  - cbn. now rewrite app_nil_r.
  - cbn [coords_loop foldl]. fold (coords_loop (dict_set dim x_i acc) l).
    cbn [keys map fst] in Hnd.
    rewrite dict_set_fresh.
    + rewrite IH; [now rewrite <- app_assoc|].
      rewrite keys_app. cbn. rewrite <- app_assoc. exact Hnd.
    + apply NoDup_app in Hnd as (_ & Hd & _). intros Hin.
      apply (Hd dim Hin). apply list_elem_of_here.
Qed.

(** C6: [create_coordinates] raises the assertion error exactly when
    the number of coordinate arrays differs from the number of
    declared dimensions; otherwise it returns the mapping that pairs
    the dimension names with the arrays by position: a name is mapped
    to the array at its (last) position, and for distinct names the
    result is the list of pairs in the order of the dimensions. *)
Theorem create_coordinates_spec {A} (dimensions : list string)
    (coordinate_data : list (list A)) :
  (length dimensions <> length coordinate_data ->
     create_coordinates dimensions (CoordSeq coordinate_data)
     = Raise AssertionError) /\
  (length dimensions = length coordinate_data ->
     exists coords,
       create_coordinates dimensions (CoordSeq coordinate_data) = Ok coords /\
       (forall i dim x_i,
          dimensions !! i = Some dim -> coordinate_data !! i = Some x_i ->
          (forall j, i < j -> dimensions !! j <> Some dim) ->
          dict_get dim coords = Some x_i) /\
       (NoDup dimensions -> coords = zip dimensions coordinate_data)).
Proof.
  unfold create_coordinates. split; intros Hlen.
  - now apply Nat.eqb_neq in Hlen as ->.
  - rewrite Hlen, Nat.eqb_refl. eexists. split; [reflexivity|].
    fold (coords_loop [] (zip dimensions coordinate_data)). split.
    + intros i dim x_i Hd Hc Hlast.
      apply (coords_loop_lookup _ [] i).
      * rewrite lookup_zip_with, Hd. cbn. now rewrite Hc.
      * intros j y Hj Hz. apply (Hlast j Hj).
        rewrite lookup_zip_with in Hz.
        destruct (dimensions !! j) as [d|]; [|discriminate]. cbn in Hz.
        destruct (coordinate_data !! j); [|discriminate]. cbn in Hz. congruence.
    + intros Hnd. rewrite coords_loop_fresh; [reflexivity|].
      cbn [keys map app]. unfold keys.
      rewrite fst_zip by lia. exact Hnd.
Qed.

Lemma create_coordinates_spec_witness :
  create_coordinates ["time"; "id"] (CoordSeq [[0%Z; 1%Z]])
  = Raise AssertionError /\
  exists coords,
    create_coordinates ["time"; "id"] (CoordSeq [[0%Z; 1%Z]; [7%Z]]) = Ok coords /\
    dict_get "id" coords = Some [7%Z].
Proof.
  split.
  - apply (proj1 (create_coordinates_spec ["time"; "id"] [[0%Z; 1%Z]])).
    cbn. lia.
  - destruct (proj2 (create_coordinates_spec ["time"; "id"] [[0%Z; 1%Z]; [7%Z]])
                eq_refl) as (coords & Hc & Hl & _).
    exists coords. split; [exact Hc|].
    apply (Hl 1); [reflexivity|reflexivity|].
    intros [|[|[|j]]] Hj; cbn; try lia; discriminate.
Defined.

(** ** Dispatch *)

Lemma merge_loop_snoc m theta p :
  merge_loop m (theta ++ [p]) = <[name p := value p]> (merge_loop m theta).
Proof. unfold merge_loop. now rewrite foldl_app. Qed.

Lemma merge_loop_lookup theta : forall m i p,
  theta !! i = Some p ->
  (forall j q, i < j -> theta !! j = Some q -> name q <> name p) ->
  merge_loop m theta !! name p = Some (value p).
Proof.
  induction theta as [|q theta IH] using rev_ind; intros m i p Hi Hlast.
  - discriminate.
  - rewrite merge_loop_snoc.
    destruct (decide (i = length theta)) as [->|Hne].
    + rewrite list_lookup_middle in Hi by reflexivity. injection Hi as ->.
      apply lookup_insert_eq.
    + assert (i < length theta) as Hlt.
      { apply lookup_lt_Some in Hi. rewrite length_app in Hi. cbn in Hi. lia. }
      rewrite lookup_app_l in Hi by assumption.
      rewrite lookup_insert_ne.
      * apply (IH m i p Hi). intros j q' Hj Hq. apply (Hlast j q' Hj).
        rewrite lookup_app_l; [assumption|]. now apply lookup_lt_Some in Hq.
      * apply (Hlast (length theta) q Hlt). now rewrite list_lookup_middle.
Qed.

Lemma merge_loop_other theta : forall m k,
  k ∉ map name theta -> merge_loop m theta !! k = m !! k.
Proof.
  induction theta as [|q theta IH] using rev_ind; intros m k Hk; [reflexivity|].
  rewrite merge_loop_snoc. rewrite map_app, not_elem_of_app in Hk.
  destruct Hk as [Hk Hq]. cbn in Hq. apply not_elem_of_cons in Hq as [Hq _].
  rewrite lookup_insert_ne by congruence. now apply IH.
Qed.

(** What [dispatch] does with a list of parameter objects, the form
    of [theta] that the signature of [parameterize] declares: every
    parameter object is merged into the parameter dictionary under its
    name (for a name given twice the last value stays); the other
    entries and [y0] are as in the simulation; and the merged
    dictionary is also the one that the simulation holds afterwards.
    A non-empty mapping as [theta] fails in [parameterize]. *)
Theorem dispatch_merges_theta (sim : Sim) (theta : list Param) :
  (exists evaluator sim',
     dispatch sim (ThetaParams theta) = Ok (evaluator, sim') /\
     (forall i p,
        theta !! i = Some p ->
        (forall j q, i < j -> theta !! j = Some q -> name q <> name p) ->
        parameters (ev_parameters evaluator) !! name p = Some (value p)) /\
     (forall k,
        k ∉ map name theta ->
        parameters (ev_parameters evaluator) !! k
        = parameters (model_parameters sim) !! k) /\
     y0 (ev_parameters evaluator) = y0 (model_parameters sim) /\
     model_parameters sim' = ev_parameters evaluator) /\
  (forall kv d, dispatch sim (ThetaMapping (kv :: d)) = Raise AttributeError).
Proof.
  split; [|reflexivity].
  unfold dispatch. do 2 eexists. split; [reflexivity|]. cbn.
  repeat split.
  - intros i p. apply merge_loop_lookup.
  - intros k. apply merge_loop_other.
Qed.

(** In a list of parameter objects a name that is not declared as a
    free parameter is merged like any other: [dispatch] returns an
    evaluator that holds it. *)
Lemma dispatch_unknown_name :
  let theta := ThetaParams [mkParam "gamma" (Scalar (Fin 1))] in
  ("gamma" ∉ model_parameter_names sim_example) /\
  (exists evaluator sim',
     dispatch sim_example theta = Ok (evaluator, sim') /\
     parameters (ev_parameters evaluator) !! "gamma" = Some (Scalar (Fin 1))) /\
  ~ exists e, dispatch sim_example theta = Raise e.
Proof.
  cbn zeta. split; [|split].
  - cbn. rewrite !not_elem_of_cons. repeat split; try discriminate.
    apply not_elem_of_nil.
  - do 2 eexists. split; [reflexivity|]. cbn. apply lookup_insert_eq.
  - intros [e He]. discriminate.
Qed.



(** ** Jump times *)

Lemma Qltb_lt a b : Qltb a b = true <-> (a < b)%Q.
Proof.
  unfold Qltb. rewrite negb_true_iff, <- not_true_iff_false, Qle_bool_iff.
  split; [apply Qnot_le_lt|apply Qlt_not_le].
Qed.

Lemma mask_select_self (f : Q -> bool) (ts : list Q) :
  map fst (filter (fun am : Q * bool => am.2 = true) (zip ts (map f ts)))
  = filter (fun t_i => f t_i = true) ts.
Proof.
  induction ts as [|t_i ts IH]; [reflexivity|].
  cbn [map zip zip_with]. rewrite !filter_cons. cbn [snd].
  destruct (decide (f t_i = true)); cbn; now rewrite IH.
Qed.

(** C8, as the code has it: without forcing no jump times are passed
    to the controller. With forcing, the jump times are the forcing
    times at the positions where the forcing coordinate is strictly
    below the last time coordinate; when the forcing times are the
    forcing coordinate itself, these are exactly the forcing times
    strictly below the last time coordinate. The first time
    coordinate plays no part. *)
Theorem odesolve_jump_times (s : JaxSolver) (x_in : list (list Q)) :
  (x_in = [] ->
     forcing s x_in = Ok (None, None) /\
     jump_ts (stepsize_controller s None) = None) /\
  (forall ts ys rest x_last,
     x_in = ts :: ys :: rest ->
     last (x s) = Some x_last ->
     length ts = length (x_in_coordinate s) ->
     exists interp jumps,
       forcing s x_in = Ok (Some interp, Some jumps) /\
       jump_ts (stepsize_controller s (Some jumps)) = Some jumps /\
       jumps = map fst (filter (fun am : Q * bool => am.2 = true)
                 (zip ts (map (fun c => Qltb c x_last) (x_in_coordinate s)))) /\
       (x_in_coordinate s = ts ->
          forall t_i, t_i ∈ jumps <-> t_i ∈ ts /\ (t_i < x_last)%Q)).
Proof.
  split.
  - intros ->. split; reflexivity.
  - intros ts ys rest x_last -> Hlast Hlen.
    unfold forcing, getitem_last, mask_select. cbn [length Nat.ltb Nat.leb].
    cbn [getitem lookup list_lookup mbind result_bind bind].
    rewrite Hlast. run_bind.
    rewrite length_map, Hlen, Nat.eqb_refl. run_bind.
    do 2 eexists. split; [reflexivity|]. split; [reflexivity|].
    split; [reflexivity|].
    intros Hc t_i. rewrite Hc, mask_select_self, list_elem_of_filter.
    rewrite Qltb_lt. tauto.
Qed.

Lemma odesolve_jump_times_witness :
  exists interp jumps,
    forcing s_example x_in_example = Ok (Some interp, Some jumps) /\
    jump_ts (stepsize_controller s_example (Some jumps)) = Some jumps /\
    forall t_i, t_i ∈ jumps <-> t_i ∈ [0; 1; 2]%Q /\ (t_i < 2)%Q.
Proof.
  destruct (proj2 (odesolve_jump_times s_example x_in_example)
              [0; 1; 2]%Q [5; 5; 5]%Q [] 2%Q eq_refl eq_refl eq_refl)
    as (interp & jumps & Hf & Hj & _ & Hm).
  exists interp, jumps. split; [exact Hf|]. split; [exact Hj|].
  exact (Hm eq_refl).
Defined.

(** The forcing time that equals the last time coordinate lies in the
    solved range and is not a jump time; a forcing time before the
    first time coordinate lies outside the range and is one. *)
Lemma jump_times_not_the_solved_range :
  (exists interp jumps,
     forcing s_example x_in_example = Ok (Some interp, Some jumps) /\
     ~ (forall t_i, t_i ∈ jumps <->
          t_i ∈ [0; 1; 2]%Q /\ (0 <= t_i)%Q /\ (t_i <= 2)%Q)) /\
  (exists interp jumps,
     forcing (mkJaxSolver (1 # 1000000) (1 # 10000000) 0 1 0 5 false
                [1; 2; 3]%Q [0; 1; 2]%Q) x_in_example
     = Ok (Some interp, Some jumps) /\
     0%Q ∈ jumps).
Proof.
  split.
  - do 2 eexists. split; [reflexivity|]. intros H.
    assert (2%Q ∈ [0; 1]%Q) as Hin.
    { apply H. split; [|split; discriminate].
      do 2 apply list_elem_of_further. apply list_elem_of_here. }
    rewrite !elem_of_cons in Hin.
    destruct Hin as [Hin|[Hin|Hin]]; try discriminate.
    now apply elem_of_nil in Hin.
  - do 2 eexists. split; [reflexivity|]. apply list_elem_of_here.
Qed.

(** ** Data scaler *)

Lemma min_list_le acc xs : (min_list acc xs <= acc)%Q.
Proof.
  revert acc. induction xs as [|v xs IH]; intros acc; cbn.
  - apply Qle_refl.
  - eapply Qle_trans; [apply IH|apply Q.le_min_l].
Qed.

Lemma max_list_ge acc xs : (acc <= max_list acc xs)%Q.
Proof.
  revert acc. induction xs as [|v xs IH]; intros acc; cbn.
  - apply Qle_refl.
  - eapply Qle_trans; [apply Q.le_max_l|apply IH].
Qed.

Lemma min_list_eq lo xs : forall acc,
  (acc == lo)%Q -> (forall v, v ∈ xs -> (lo <= v)%Q) ->
  (min_list acc xs == lo)%Q.
Proof.
  induction xs as [|v xs IH]; intros acc Hacc Hxs; cbn; [assumption|].
  apply IH.
  - rewrite Q.min_l; [assumption|]. rewrite Hacc. apply Hxs, list_elem_of_here.
  - intros w Hw. apply Hxs. now apply list_elem_of_further.
Qed.

Lemma max_list_eq hi xs : forall acc,
  (acc == hi)%Q -> (forall v, v ∈ xs -> (v <= hi)%Q) ->
  (max_list acc xs == hi)%Q.
Proof.
  induction xs as [|v xs IH]; intros acc Hacc Hxs; cbn; [assumption|].
  apply IH.
  - rewrite Q.max_l; [assumption|]. rewrite Hacc. apply Hxs, list_elem_of_here.
  - intros w Hw. apply Hxs. now apply list_elem_of_further.
Qed.

Lemma row_stack_ok (row : list Q) rows :
  Forall (fun r => length r = length row) rows ->
  row_stack (row :: rows) = Ok (row :: rows).
Proof.
  intros H. unfold row_stack.
  replace (forallb _ rows) with true; [reflexivity|].
  symmetry. apply forallb_forall. intros r Hr. apply Nat.eqb_eq.
  rewrite Forall_forall in H. apply H. now apply list_elem_of_In.
Qed.

Lemma elem_of_column j rows v :
  v ∈ column j rows -> exists row, row ∈ rows /\ v = nth j row 0%Q.
Proof.
  unfold column. rewrite list_elem_of_fmap. intros (row & -> & Hr). eauto.
Qed.

Lemma nth_lookup_Q (l : list Q) j v : l !! j = Some v -> nth j l 0%Q = v.
Proof. intros H. apply nth_lookup_Some with (d := 0%Q) in H. exact H. Qed.

Lemma lookup_nth_Q (l : list Q) j : j < length l -> l !! j = Some (nth j l 0%Q).
Proof.
  intros H. destruct (lookup_lt_is_Some_2 l j H) as [v Hv].
  now rewrite (nth_lookup_Q l j v Hv).
Qed.

(** The fitted attributes of column [j]. *)
Lemma fit_lookup row rows scaler j :
  fit (row :: rows) = Ok scaler ->
  j < length row ->
  let mn := min_list (nth j row 0%Q) (column j rows) in
  let mx := max_list (nth j row 0%Q) (column j rows) in
  let sc := (1 / handle_zeros_in_scale (mx - mn))%Q in
  data_min_ scaler !! j = Some mn /\
  data_max_ scaler !! j = Some mx /\
  sk_scale_ scaler !! j = Some sc /\
  sk_min_ scaler !! j = Some (0 - mn * sc)%Q.
Proof.
  intros [= <-] Hj. cbn [data_min_ data_max_ sk_scale_ sk_min_].
  assert (forall (f : nat -> Q), map f (seq 0 (length row)) !! j = Some (f j)) as Hmap.
  { intros f. rewrite list_lookup_fmap, lookup_seq_lt by assumption. reflexivity. }
  repeat split.
  - apply Hmap.
  - apply Hmap.
  - rewrite list_lookup_fmap, lookup_zip_with, !Hmap. reflexivity.
  - rewrite lookup_zip_with, Hmap. cbn.
    rewrite list_lookup_fmap, lookup_zip_with, !Hmap. reflexivity.
Qed.

Lemma transform_row_lookup scaler row j v sc mn :
  row !! j = Some v ->
  sk_scale_ scaler !! j = Some sc ->
  sk_min_ scaler !! j = Some mn ->
  transform_row scaler row !! j = Some (v * sc + mn)%Q.
Proof.
  intros Hv Hsc Hmn. unfold transform_row.
  rewrite lookup_zip_with, Hv. cbn. rewrite lookup_zip_with, Hsc. cbn.
  now rewrite Hmn.
Qed.

(** C5, as the code has it. The scaler is fitted on the declared
    bounds stacked on the observations, so for every data variable the
    fitted range contains the declared bounds. When the declared
    minimum is below the declared maximum and every observation of the
    variable lies within the declared bounds, [scale_] maps the
    declared minimum to 0 and the declared maximum to 1. *)
Theorem create_data_scaler_spec (data_variables_min data_variables_max : list Q)
    (obs_2D_array : list (list Q)) :
  length data_variables_max = length data_variables_min ->
  Forall (fun row => length row = length data_variables_min) obs_2D_array ->
  exists scaler,
    create_data_scaler data_variables_min data_variables_max obs_2D_array
    = Ok scaler /\
    forall j lo hi,
      data_variables_min !! j = Some lo ->
      data_variables_max !! j = Some hi ->
      (exists mn mx,
         data_min_ scaler !! j = Some mn /\ data_max_ scaler !! j = Some mx /\
         (mn <= lo)%Q /\ (hi <= mx)%Q) /\
      ((lo < hi)%Q ->
       (forall row v, row ∈ obs_2D_array -> row !! j = Some v ->
          (lo <= v)%Q /\ (v <= hi)%Q) ->
       forall row v, row !! j = Some v ->
         exists row' w,
           scale_ scaler [row] = [row'] /\ row' !! j = Some w /\
           ((v == lo)%Q -> (w == 0)%Q) /\ ((v == hi)%Q -> (w == 1)%Q)).
Proof.
  intros Hup Hobs. unfold create_data_scaler.
  rewrite row_stack_ok by (constructor; assumption).
  run_bind.
  destruct (fit (data_variables_min :: data_variables_max :: obs_2D_array))
    as [scaler|e] eqn:Hfit; [|discriminate].
  exists scaler. split; [reflexivity|].
  intros j lo hi Hlo Hhi.
  assert (j < length data_variables_min) as Hj by (now apply lookup_lt_Some in Hlo).
  destruct (fit_lookup _ _ scaler j Hfit Hj) as (Hmn & Hmx & Hsc & Hmin).
  rewrite (nth_lookup_Q _ _ _ Hlo) in *.
  cbn [column map] in *. rewrite (nth_lookup_Q _ _ _ Hhi) in *.
  fold (column j obs_2D_array) in *.
  set (col := column j obs_2D_array) in *.
  split.
  - do 2 eexists. split; [exact Hmn|]. split; [exact Hmx|]. split.
    + apply min_list_le.
    + change (max_list lo (hi :: col)) with (max_list (Qmax lo hi) col).
      eapply Qle_trans; [apply (Q.le_max_r lo hi)|apply max_list_ge].
  - intros Hlt Hin row v Hv.
    assert (forall w, w ∈ col -> (lo <= w)%Q /\ (w <= hi)%Q) as Hcol.
    { intros w Hw. apply elem_of_column in Hw as (r & Hr & ->).
      apply (Hin r); [assumption|]. apply lookup_nth_Q.
      rewrite Forall_forall in Hobs. now rewrite (Hobs r Hr). }
    assert (min_list lo (hi :: col) == lo)%Q as Emn.
    { apply min_list_eq; [reflexivity|]. intros w [->|Hw]%elem_of_cons.
      - now apply Qlt_le_weak.
      - now apply Hcol. }
    assert (max_list lo (hi :: col) == hi)%Q as Emx.
    { change (max_list lo (hi :: col)) with (max_list (Qmax lo hi) col).
      apply max_list_eq.
      - apply Q.max_r. now apply Qlt_le_weak.
      - intros w Hw. now apply Hcol. }
    set (mn := min_list lo (hi :: col)) in *.
    set (mx := max_list lo (hi :: col)) in *.
    assert (handle_zeros_in_scale (mx - mn) == hi - lo)%Q as Ehz.
    { unfold handle_zeros_in_scale.
      destruct (Qeq_bool (mx - mn) 0) eqn:E.
      - apply Qeq_bool_iff in E. rewrite Emx, Emn in E. lra.
      - now rewrite Emx, Emn. }
    exists (transform_row scaler row). eexists.
    split; [reflexivity|]. split.
    + apply (transform_row_lookup scaler row j v _ _ Hv Hsc Hmin).
    + split; intros ->; rewrite Ehz, Emn; field; lra.
Qed.

Lemma create_data_scaler_spec_witness :
  exists scaler,
    create_data_scaler [0%Q] [1000%Q] [[20%Q]; [500%Q]] = Ok scaler /\
    forall j lo hi,
      [0%Q] !! j = Some lo ->
      [1000%Q] !! j = Some hi ->
      (exists mn mx,
         data_min_ scaler !! j = Some mn /\ data_max_ scaler !! j = Some mx /\
         (mn <= lo)%Q /\ (hi <= mx)%Q) /\
      ((lo < hi)%Q ->
       (forall row v, row ∈ [[20%Q]; [500%Q]] -> row !! j = Some v ->
          (lo <= v)%Q /\ (v <= hi)%Q) ->
       forall row v, row !! j = Some v ->
         exists row' w,
           scale_ scaler [row] = [row'] /\ row' !! j = Some w /\
           ((v == lo)%Q -> (w == 0)%Q) /\ ((v == hi)%Q -> (w == 1)%Q)).
Proof.
  apply (create_data_scaler_spec [0%Q] [1000%Q] [[20%Q]; [500%Q]]).
  - reflexivity.
  - repeat constructor.
Defined.

(** An observation above the declared maximum widens the fitted
    range, and the declared maximum is no longer mapped to 1. And
    without spread (declared minimum, declared maximum and observation
    all equal) the scale is 1 and the declared maximum is mapped
    to 0. *)
Lemma scaler_observation_outside_bounds :
  (exists scaler w,
     create_data_scaler [0%Q] [1000%Q] [[2000%Q]] = Ok scaler /\
     scale_ scaler [[1000%Q]] = [[w]] /\
     (w == 1 # 2)%Q /\
     ~ (w == 1)%Q) /\
  (exists scaler w,
     create_data_scaler [5%Q] [5%Q] [[5%Q]] = Ok scaler /\
     scale_ scaler [[5%Q]] = [[w]] /\
     (w == 0)%Q /\
     ~ (w == 1)%Q).
Proof.
  split; do 2 eexists; (split; [reflexivity|]); (split; [reflexivity|]);
    (split; [reflexivity|]); intros H; vm_compute in H; discriminate.
Qed.

(** ** Result assembly *)

Lemma zip_map_l {A B D} (f : A -> B) (ks : list A) (l : list D) :
  zip (map f ks) l = map (fun kn : A * D => (f kn.1, kn.2)) (zip ks l).
Proof.
  revert l. induction ks as [|k ks IH]; intros [|d l]; cbn; try reflexivity.
  f_equal. apply IH.
Qed.

Section Assembly.
Context {C : Type}.

Lemma index_of_keys (d : dict (list C)) : forall i k v,
  NoDup (keys d) -> d !! i = Some (k, v) -> index_of k (keys d) = Some i.
Proof.
  induction d as [|[k' v'] d IH]; intros i k v Hnd Hi; [discriminate|].
  change (keys ((k', v') :: d)) with (k' :: keys d) in *.
  apply NoDup_cons in Hnd as [Hfresh Hnd].
  cbn [index_of]. destruct i as [|i].
  - injection Hi as -> ->. now rewrite String.eqb_refl.
  - cbn in Hi. destruct (String.eqb_spec k k') as [->|Hne].
    + exfalso. apply Hfresh. apply list_elem_of_fmap.
      exists (k', v). split; [reflexivity|].
      eapply list_elem_of_lookup_2; eassumption.
    + now rewrite (IH i k v Hnd Hi).
Qed.

Lemma DataArray_new_fit (y : ndarray) (coordinates : dict (list C)) name :
  NoDup (keys coordinates) ->
  coords_fit coordinates (shape y) ->
  DataArray_new y coordinates name
  = Ok (mkDataArray name (keys coordinates) coordinates y).
Proof.
  intros Hnd Hfit. unfold DataArray_new.
  assert (length coordinates = length (shape y)) as Hlen.
  { unfold coords_fit in Hfit. rewrite <- Hfit. now rewrite length_map. }
  rewrite Hlen, Nat.eqb_refl.
  replace (forallb _ coordinates) with true; [reflexivity|].
  symmetry. apply forallb_forall. intros [k v] Hin.
  apply list_elem_of_In, list_elem_of_lookup in Hin as [i Hi].
  cbn [fst snd]. rewrite (index_of_keys coordinates i k v Hnd Hi).
  apply Nat.eqb_eq. unfold coords_fit in Hfit. rewrite <- Hfit.
  erewrite nth_lookup_Some; [reflexivity|].
  rewrite list_lookup_fmap, Hi. reflexivity.
Qed.

Lemma make_data_arrays_fit Y n_vars (coordinates : dict (list C))
    (kns : list (nat * string)) :
  NoDup (keys coordinates) ->
  coords_fit coordinates (removelast (shape Y)) ->
  make_data_arrays coordinates
    (map (fun kn => (trailing_slice Y n_vars kn.1, kn.2)) kns)
  = Ok (map (data_array_of Y n_vars coordinates) kns).
Proof.
  intros Hnd Hfit. induction kns as [|[k name] kns IH]; [reflexivity|].
  cbn [map make_data_arrays fst snd].
  rewrite DataArray_new_fit by assumption. run_bind.
  rewrite IH. reflexivity.
Qed.

Lemma merge_loop_fresh (coordinates : dict (list C)) (das : list (DataArray C)) :
  forall vars coords0,
  Forall (fun da => da_coords da = coordinates) das ->
  (forall da, da ∈ das -> da_name da ∉ keys coordinates) ->
  NoDup (keys vars ++ map da_name das) ->
  merge_loop_ds (Ok (mkDataset vars coords0)) das
  = Ok (mkDataset (vars ++ map var_of das)
          (match das with [] => coords0 | _ => coordinates end)).
Proof.
  induction das as [|da das IH]; intros vars coords0 Hc Hn Hnd.
  - cbn. now rewrite app_nil_r.
  - apply Forall_cons in Hc as [Hc1 Hc].
    unfold merge_loop_ds. cbn [foldl mbind result_bind bind].
    unfold merge_step at 2. rewrite Hc1.
    assert (str_in (da_name da) (keys coordinates) = false) as ->.
    { apply not_true_iff_false. unfold str_in. rewrite existsb_exists.
      intros (k & Hk & Heq). apply String.eqb_eq in Heq. subst k.
      apply (Hn da); [apply list_elem_of_here|now apply list_elem_of_In]. }
    cbn [data_vars]. cbn [map] in Hnd.
    assert (da_name da ∉ keys vars) as Hfresh.
    { apply NoDup_app in Hnd as (_ & Hd & _). intros Hin.
      apply (Hd _ Hin). apply list_elem_of_here. }
    apply dict_get_None in Hfresh as Hget. rewrite Hget.
    rewrite dict_set_fresh by assumption.
    fold (merge_loop_ds (Ok (mkDataset (vars ++ [(da_name da, (da_dims da, da_values da))])
                               coordinates)) das).
    rewrite IH; try assumption.
    + rewrite <- app_assoc. cbn [map app var_of]. f_equal. f_equal.
      now destruct das.
    + intros da' Hin. apply Hn. now apply list_elem_of_further.
    + rewrite keys_app. cbn [keys map fst app]. rewrite <- app_assoc. exact Hnd.
Qed.

Lemma make_data_arrays_raises (coordinates : dict (list C)) items e :
  make_data_arrays coordinates items = Raise e -> e = ValueError.
Proof.
  revert e. induction items as [|[y name] items IH]; intros e; [discriminate|].
  cbn [make_data_arrays]. unfold DataArray_new.
  destruct (forallb _ coordinates); run_bind.
  - destruct (make_data_arrays coordinates items) eqn:E; cbn.
    + discriminate.
    + intros [= <-]. now apply IH.
  - now intros [= <-].
Qed.

Lemma merge_loop_raises (das : list (DataArray C)) : forall ds e,
  merge_loop_ds ds das = Raise e -> ds = Raise e \/ e = ValueError.
Proof.
  induction das as [|da das IH]; intros ds e H; [now left|].
  unfold merge_loop_ds in H. cbn [foldl] in H.
  apply IH in H as [H| ->]; [|now right].
  destruct ds as [ds|e']; cbn in H; [|now left].
  right. unfold merge_step in H.
  destruct (str_in _ _); [congruence|].
  destruct (dict_get _ _); [|discriminate].
  destruct (values_agree _ _); congruence.
Qed.

End Assembly.

(** C7, as the code has it. For an array with at least one axis the
    shape-mismatch assertion fails exactly when the length of the
    trailing axis differs from the number of names. When they are
    equal, the coordinates fit the leading axes (one per axis, of its
    length), and the names are distinct and none is the name of a
    coordinate, the result is a dataset with one variable per name, in
    the order of the names: variable [k] has the supplied coordinates
    as dimensions and holds the slice [Y[..., k]]. *)
Theorem create_dataset_from_numpy_spec {C} (Y : ndarray) (Y_names : list string)
    (coordinates : dict (list C)) :
  ((exists n_vars, last (shape Y) = Some n_vars /\ n_vars <> length Y_names) <->
   create_dataset_from_numpy Y Y_names coordinates = Raise AssertionError) /\
  (last (shape Y) = Some (length Y_names) ->
   NoDup (keys coordinates) ->
   coords_fit coordinates (removelast (shape Y)) ->
   NoDup Y_names ->
   (forall name, name ∈ Y_names -> name ∉ keys coordinates) ->
   create_dataset_from_numpy Y Y_names coordinates
   = Ok (mkDataset
           (map (fun kn : nat * string =>
                   (kn.2, (keys coordinates,
                           trailing_slice Y (length Y_names) kn.1)))
                (zip (seq 0 (length Y_names)) Y_names))
           (match Y_names with [] => [] | _ => coordinates end))).
Proof.
  unfold create_dataset_from_numpy, shape_last. split; [split|].
  - intros (n_vars & -> & Hne). run_bind.
    now apply Nat.eqb_neq in Hne as ->.
  - destruct (last (shape Y)) as [n_vars|]; [|discriminate].
    run_bind.
    destruct (Nat.eqb_spec n_vars (length Y_names)) as [->|Hne].
    + intros H. exfalso.
      destruct (make_data_arrays coordinates _) as [das|e] eqn:E;
        cbn [mbind result_bind Py.bind] in H.
      * apply (merge_loop_raises das) in H as [H|H]; discriminate.
      * injection H as ->. apply make_data_arrays_raises in E. discriminate.
    + intros _. eauto.
  - intros -> Hnd Hfit Hnames Hdisj. run_bind.
    rewrite Nat.eqb_refl. unfold transpose_last_first.
    set (n := length Y_names).
    assert (zip (map (trailing_slice Y n) (seq 0 n)) Y_names
            = map (fun kn : nat * string => (trailing_slice Y n kn.1, kn.2))
                  (zip (seq 0 n) Y_names)) as ->.
    { apply zip_map_l. }
    rewrite make_data_arrays_fit by assumption. run_bind.
    unfold merge. fold (merge_loop_ds (Ok (mkDataset [] []))
                          (map (data_array_of Y n coordinates) (zip (seq 0 n) Y_names))).
    assert (map da_name (map (data_array_of Y n coordinates) (zip (seq 0 n) Y_names))
            = Y_names) as Hnm.
    { rewrite <- list_fmap_compose. unfold compose, data_array_of. cbn [da_name].
      change (map (fun x : nat * string => x.2)) with (map (@snd nat string)).
      apply snd_zip. rewrite length_seq. unfold n. lia. }
    rewrite (merge_loop_fresh coordinates).
    + cbn [app]. f_equal. f_equal.
      * rewrite <- list_fmap_compose. reflexivity.
      * destruct Y_names; reflexivity.
    + apply Forall_forall. intros da Hin.
      apply list_elem_of_fmap in Hin as (kn & -> & _). reflexivity.
    + intros da Hin. apply Hdisj. rewrite <- Hnm.
      apply list_elem_of_fmap. eauto.
    + cbn [keys map app]. now rewrite Hnm.
Qed.

Lemma create_dataset_from_numpy_spec_witness :
  create_dataset_from_numpy Y_example ["cext"; "cint"; "nrf2"]
    [("time", [0%Q; 1%Q])]
  = Ok (mkDataset
          [("cext", (["time"], mk_ndarray [2] [1; 4]%Q));
           ("cint", (["time"], mk_ndarray [2] [2; 5]%Q));
           ("nrf2", (["time"], mk_ndarray [2] [3; 6]%Q))]
          [("time", [0%Q; 1%Q])]).
Proof.
  apply (proj2 (create_dataset_from_numpy_spec Y_example
                  ["cext"; "cint"; "nrf2"] [("time", [0%Q; 1%Q])])).
  - reflexivity.
  - nodup_by_compute.
  - reflexivity.
  - nodup_by_compute.
  - intros name Hin Hk. cbn in Hk. apply list_elem_of_singleton in Hk. subst name.
    rewrite !elem_of_cons in Hin.
    destruct Hin as [Hin|[Hin|[Hin|Hin]]]; try discriminate.
    now apply elem_of_nil in Hin.
Defined.

(** Three names and a trailing axis of length three, with a time
    coordinate of five labels for a leading axis of length two: the
    assertion passes and the constructor of the data array raises.
    Two variables of one name with different values, on coordinates
    that fit: the assertion passes and the merge raises. A variable
    with the name of a coordinate: the assertion passes and the merge
    raises. And an array without axes has no trailing axis to
    compare. *)
Lemma create_dataset_coordinates_do_not_fit :
  (last (shape Y_example) = Some (length ["cext"; "cint"; "nrf2"]) /\
   create_dataset_from_numpy Y_example ["cext"; "cint"; "nrf2"]
     [("time", [0; 1; 2; 3; 4]%Q)]
   = Raise ValueError) /\
  (last (shape (mk_ndarray [1; 2] [1; 2]%Q)) = Some (length ["cext"; "cext"]) /\
   create_dataset_from_numpy (mk_ndarray [1; 2] [1; 2]%Q) ["cext"; "cext"]
     [("time", [0%Q])]
   = Raise ValueError) /\
  (last (shape Y_example) = Some (length ["time"; "cint"; "nrf2"]) /\
   create_dataset_from_numpy Y_example ["time"; "cint"; "nrf2"]
     [("time", [0; 1]%Q)]
   = Raise ValueError) /\
  create_dataset_from_numpy (mk_ndarray [] [1%Q]) [] ([] : dict (list Q))
  = Raise IndexError.
Proof. repeat split. Qed.

(** ** Failure policy of the solver *)

Section FailurePolicy.
Context {A : Type}.
Variable attempt_step :
  PIDController -> option LinearInterpolation * A -> istate -> istate.
Variable dense : istate -> istate -> Q -> list pyfloat.

(** An attempt never moves the time backwards: a rejected step keeps
    it, a step taken advances it. *)
Hypothesis attempt_step_forward :
  forall c args st, (t st <= t (attempt_step c args st))%Q.

Lemma save_beyond n ts prev next out :
  (t prev <= t next)%Q ->
  length out = length ts ->
  beyond_is_inf n ts prev out ->
  length (save dense ts prev next out) = length ts /\
  beyond_is_inf n ts next (save dense ts prev next out).
Proof.
  intros Hle Hlen Hinv. unfold save. split.
  - rewrite length_zip_with. lia.
  - intros i t_i Hi Hlt. rewrite lookup_zip_with, Hi. cbn.
    rewrite (Hinv i t_i Hi) by (eapply Qle_lt_trans; eassumption). cbn.
    assert (Qle_bool t_i (t next) = false) as ->.
    { apply not_true_iff_false. rewrite Qle_bool_iff. now apply Qlt_not_le. }
    now rewrite andb_false_r.
Qed.

Lemma steps_beyond n c args t1 ts : forall fuel st out res st' out',
  length out = length ts ->
  beyond_is_inf n ts st out ->
  steps A attempt_step dense c args t1 ts fuel st out = (res, st', out') ->
  length out' = length ts /\
  beyond_is_inf n ts st' out' /\
  (res = max_steps_reached -> (t st' < t1)%Q).
Proof.
  induction fuel as [|fuel IH]; intros st out res st' out' Hlen Hinv; cbn [steps];
    destruct (Qle_bool t1 (t st)) eqn:E.
  - intros [= <- <- <-]. repeat split; try assumption. discriminate.
  - intros [= <- <- <-]. repeat split; try assumption. intros _.
    apply Qnot_le_lt. rewrite <- Qle_bool_iff. now rewrite E.
  - intros [= <- <- <-]. repeat split; try assumption. discriminate.
  - destruct (save_beyond n ts st (attempt_step c args st) out) as [Hlen' Hinv'];
      try assumption; [apply attempt_step_forward|].
    apply IH; assumption.
Qed.

Lemma integrate_beyond t0 t1 dt0 y0 args saveat c max_steps res st out :
  integrate A attempt_step dense t0 t1 dt0 y0 args saveat c max_steps
  = (res, st, out) ->
  length out = length saveat /\
  beyond_is_inf (length y0) saveat st out /\
  (res = max_steps_reached -> (t st < t1)%Q).
Proof.
  unfold integrate. apply steps_beyond.
  - now rewrite length_map.
  - intros i t_i Hi Hlt. cbn [t] in Hlt. rewrite list_lookup_fmap, Hi. cbn.
    assert (Qle_bool t_i t0 = false) as ->; [|reflexivity].
    apply not_true_iff_false. rewrite Qle_bool_iff. now apply Qlt_not_le.
Qed.

Lemma per_state_inf n rows traj i :
  traj ∈ per_state n rows ->
  rows !! i = Some (inf_row n) ->
  traj !! i = Some PInf.
Proof.
  unfold per_state. rewrite list_elem_of_fmap. intros (j & -> & Hj) Hrow.
  apply elem_of_seq in Hj. rewrite list_lookup_fmap, Hrow. cbn. f_equal.
  unfold inf_row. apply nth_lookup_Some with (d := NaN).
  apply lookup_replicate_2. lia.
Qed.

Lemma save_upto y0 t0 ts prev next out :
  (t prev <= t next)%Q ->
  length out = length ts ->
  saved_upto dense y0 t0 ts prev out ->
  saved_upto dense y0 t0 ts next (save dense ts prev next out).
Proof.
  intros Hle Hlen Hinv i t_i Hi Hti. unfold save.
  destruct (lookup_lt_is_Some_2 out i) as (row & Hrow).
  { rewrite Hlen. now apply lookup_lt_Some in Hi. }
  rewrite lookup_zip_with, Hi. cbn. rewrite Hrow. cbn.
  destruct (Qltb (t prev) t_i) eqn:Hlt.
  - assert (Qle_bool t_i (t next) = true) as -> by now apply Qle_bool_iff.
    cbn. right. eauto.
  - cbn. rewrite <- Hrow. apply (Hinv i t_i Hi).
    unfold Qltb in Hlt. apply negb_false_iff in Hlt. now apply Qle_bool_iff.
Qed.

Lemma steps_upto y0 t0 c args t1 ts : forall fuel st out res st' out',
  length out = length ts ->
  saved_upto dense y0 t0 ts st out ->
  steps A attempt_step dense c args t1 ts fuel st out = (res, st', out') ->
  saved_upto dense y0 t0 ts st' out'.
Proof.
  induction fuel as [|fuel IH]; intros st out res st' out' Hlen Hinv; cbn [steps];
    destruct (Qle_bool t1 (t st)) eqn:E; try (now intros [= <- <- <-]).
  apply IH.
  - unfold save. rewrite length_zip_with. lia.
  - apply save_upto; [apply attempt_step_forward|assumption..].
Qed.

Lemma integrate_upto t0 t1 dt0 y0 args saveat c max_steps res st out :
  integrate A attempt_step dense t0 t1 dt0 y0 args saveat c max_steps
  = (res, st, out) ->
  saved_upto dense y0 t0 saveat st out.
Proof.
  unfold integrate. apply steps_upto.
  - now rewrite length_map.
  - intros i t_i Hi Hle. cbn [t] in Hle. left. split; [assumption|].
    rewrite list_lookup_fmap, Hi. cbn.
    assert (Qle_bool t_i t0 = true) as -> by now apply Qle_bool_iff.
    reflexivity.
Qed.

Lemma SaveAt_ok ts saveat : SaveAt ts = Ok saveat -> saveat = ts.
Proof. destruct ts; [discriminate|]. now intros [= <-]. Qed.

(** C1, as the code has it: when the integration uses up [max_steps]
    before the final time, [odesolve] follows the configured policy.
    With [throw_exception] it raises the divergence fault. Without it,
    it returns, one trajectory per state variable, the rows that the
    integration has saved: every trajectory holds [+inf] at each save
    time strictly after the time [t st] at which the solver broke, the
    final time among them; at the save times up to and including
    [t st] the rows are the initial state (at a save time not after
    the start) or the dense output of a step. *)
Theorem odesolve_failure_policy (s : JaxSolver) (y0 : list pyfloat) (args : A)
    (x_in : list (list Q)) (st : istate) (out : list (list pyfloat)) :
  odesolve_integration A attempt_step dense s y0 args x_in
  = Ok (max_steps_reached, st, out) ->
  (throw_exception s = true ->
     odesolve A attempt_step dense s y0 args x_in = Raise SolverDivergence) /\
  (throw_exception s = false ->
     exists ys interp t_min t_max,
       odesolve A attempt_step dense s y0 args x_in = Ok (ys, interp) /\
       ys = per_state (length y0) out /\
       length ys = length y0 /\
       x s !! 0 = Some t_min /\
       last (x s) = Some t_max /\
       (t st < t_max)%Q /\
       (forall traj i t_i,
          traj ∈ ys -> x s !! i = Some t_i -> (t st < t_i)%Q ->
          traj !! i = Some PInf) /\
       (forall i t_i,
          x s !! i = Some t_i -> (t_i <= t st)%Q ->
          ((t_i <= t_min)%Q /\ out !! i = Some y0) \/
          exists prev next, out !! i = Some (dense prev next t_i))).
Proof.
  unfold odesolve_integration, odesolve.
  destruct (forcing s x_in) as [[interp jumps]|e]; [|discriminate].
  run_bind.
  destruct (SaveAt (x s)) as [saveat|e] eqn:Hsave; [|discriminate].
  apply SaveAt_ok in Hsave as ->. run_bind.
  unfold getitem.
  destruct (x s !! 0) as [t_min|] eqn:Hmin; [|discriminate].
  run_bind.
  unfold getitem_last.
  destruct (last (x s)) as [t_max|] eqn:Hlast; [|discriminate].
  run_bind. intros [= Hrun]. unfold diffeqsolve.
  rewrite Hrun.
  destruct (integrate_beyond _ _ _ _ _ _ _ _ _ _ _ Hrun) as (Hlen & Hinv & Hlt).
  pose proof (integrate_upto _ _ _ _ _ _ _ _ _ _ _ Hrun) as Hupto.
  split; intros ->; run_bind; [reflexivity|].
  exists (per_state (length y0) out), interp, t_min, t_max.
  split; [reflexivity|]. split; [reflexivity|]. split.
  { unfold per_state. now rewrite length_map, length_seq. }
  split; [reflexivity|]. split; [reflexivity|]. split; [now apply Hlt|]. split.
  - intros traj i t_i Htraj Hi Hti.
    apply (per_state_inf (length y0) out); [assumption|].
    now apply (Hinv i t_i).
  - exact Hupto.
Qed.

End FailurePolicy.

Lemma tenth_step_forward c args st : (t st <= t (tenth_step c args st))%Q.
Proof. cbn. rewrite <- (Qplus_0_r (t st)) at 1. apply Qplus_le_r. discriminate. Qed.

Lemma odesolve_failure_policy_witness :
  exists ys interp,
    odesolve unit tenth_step hold s_example [Fin 1; Fin 2] tt [] = Ok (ys, interp) /\
    forall traj, traj ∈ ys -> traj !! 2 = Some PInf.
Proof.
  destruct (odesolve_failure_policy tenth_step hold tenth_step_forward
              s_example [Fin 1; Fin 2] tt [] _ _ eq_refl) as [_ H].
  destruct (H eq_refl)
    as (ys & interp & t_min & t_max & Ho & _ & _ & _ & _ & _ & Hinf & _).
  exists ys, interp. split; [exact Ho|].
  intros traj Htraj. apply (Hinf traj 2 2%Q Htraj eq_refl). reflexivity.
Defined.

(** At the time that the solver had reached when the budget ran out
    the states are not [+inf]. With a budget of ten steps of one
    tenth, from time 0 to time 2 and save times 0, 1 and 2, the
    solver breaks at time 1: the trajectory holds the state at the
    save times 0 and 1, and [+inf] only at the save time 2. *)
Lemma odesolve_finite_at_time_reached :
  exists st out ys interp,
    odesolve_integration unit tenth_step hold s_ten_steps [Fin 1] tt []
    = Ok (max_steps_reached, st, out) /\
    (t st == 1)%Q /\
    x s_ten_steps !! 1 = Some 1%Q /\
    odesolve unit tenth_step hold s_ten_steps [Fin 1] tt [] = Ok (ys, interp) /\
    ys = [[Fin 1; Fin 1; PInf]] /\
    forall traj, traj ∈ ys ->
      traj !! 1 = Some (Fin 1) /\ traj !! 1 <> Some PInf.
Proof.
  do 4 eexists. split; [vm_compute; reflexivity|].
  split; [vm_compute; reflexivity|]. split; [reflexivity|].
  split; [vm_compute; reflexivity|]. split; [reflexivity|].
  intros traj Htraj. apply list_elem_of_singleton in Htraj as ->.
  split; [reflexivity|discriminate].
Qed.

(** ** Seed pool *)

Section SeedPoolProperties.
Import SeedPool.
Context {G : Type} (integers : G -> nat -> list Z * G).

(** The generator hands out as many integers as it is asked for. *)
Hypothesis integers_length :
  forall g n, length (integers g n).1 = n.

Let pool (s : Sim G) : nat := length (_random_integers s).

Lemma init_pool cores g s :
  init integers cores g = Ok s ->
  n_cores s = cores /\ _seed_buffer_size s = (cores * 2)%Z /\
  (0 <= cores)%Z /\ Z.of_nat (pool s) = (cores * 2)%Z.
Proof.
  unfold init, create_random_integers, pool.
  destruct (Z.ltb_spec (cores * 2) 0) as [Hneg|Hpos]; cbn; [discriminate|].
  destruct (integers g (Z.to_nat (cores * 2))) as [seeds g'] eqn:E.
  intros [= <-]; cbn.
  pose proof (integers_length g (Z.to_nat (cores * 2))) as Hl.
  rewrite E in Hl; cbn in Hl. rewrite Hl. lia.
Qed.

(** What one call does to a pool that respects the buffer bounds. *)
Lemma draw_seed_step s :
  _seed_buffer_size s = (n_cores s * 2)%Z ->
  (1 <= n_cores s)%Z ->
  (n_cores s <= Z.of_nat (pool s) <= n_cores s * 2)%Z ->
  exists seed s',
    draw_seed integers s = Ok (seed, s') /\
    head (_random_integers s) = Some seed /\
    n_cores s' = n_cores s /\
    _seed_buffer_size s' = _seed_buffer_size s /\
    (Z.of_nat (pool s) = n_cores s ->
       exists fresh, Z.of_nat (length fresh) = n_cores s /\
         _random_integers s' = tail (_random_integers s ++ fresh)) /\
    (Z.of_nat (pool s) <> n_cores s ->
       _random_integers s' = tail (_random_integers s) /\ RNG s' = RNG s) /\
    (n_cores s <= Z.of_nat (pool s') <= n_cores s * 2 - 1)%Z.
Proof.
  intros Hbuf Hpos Hlen. unfold pool in *.
  unfold draw_seed, refill_consumed_seeds.
  destruct (Z.eqb_spec (Z.of_nat (length (_random_integers s))) (n_cores s))
    as [Heq|Hne].
  - unfold create_random_integers.
    destruct (Z.ltb_spec (_seed_buffer_size s
                - Z.of_nat (length (_random_integers s))) 0); [lia|].
    destruct (integers (RNG s) _) as [fresh g'] eqn:E; cbn.
    pose proof (integers_length (RNG s) (Z.to_nat (_seed_buffer_size s
                - Z.of_nat (length (_random_integers s))))) as Hl.
    rewrite E in Hl; cbn in Hl.
    destruct (_random_integers s) as [|seed rest] eqn:Epool;
      cbn [length] in *; [lia|].
    cbn. exists seed. eexists. split; [reflexivity|]. cbn.
    repeat split; try lia.
    + intros _. exists fresh. split; [lia|reflexivity].
    + rewrite length_app. lia.
    + rewrite length_app. lia.
  - cbn. destruct (_random_integers s) as [|seed rest] eqn:Epool;
      cbn [length] in *; [lia|].
    exists seed. eexists. split; [reflexivity|]. cbn.
    repeat split; try lia.
Qed.

Lemma reachable_bounds cores g s :
  (1 <= cores)%Z ->
  reachable integers cores g s ->
  n_cores s = cores /\ _seed_buffer_size s = (cores * 2)%Z /\
  (cores <= Z.of_nat (pool s) <= cores * 2)%Z.
Proof.
  intros Hpos Hr. induction Hr as [s Hinit|s seed s' Hr IH Hdraw].
  - apply init_pool in Hinit as (-> & -> & _ & Hl). lia.
  - destruct IH as (Hn & Hb & Hl).
    destruct (draw_seed_step s) as (seed0 & s0 & Hd & _ & Hn' & Hb' & _ & _ & Hl');
      [congruence|lia|lia|].
    rewrite Hd in Hdraw. injection Hdraw as <- <-.
    rewrite Hn', Hb', Hn, Hb. split; [reflexivity|]. split; [reflexivity|].
    rewrite Hn in Hl'. lia.
Qed.

(** The refill draws from the generator: a call that finds the pool
    at length [n_cores] appends the [n_cores] integers that the
    generator hands out at its current state, and leaves the
    generator at the state after them. *)
Lemma draw_seed_refill s seed s' :
  _seed_buffer_size s = (n_cores s * 2)%Z ->
  (1 <= n_cores s)%Z ->
  Z.of_nat (pool s) = n_cores s ->
  draw_seed integers s = Ok (seed, s') ->
  _random_integers s'
  = tail (_random_integers s ++ (integers (RNG s) (Z.to_nat (n_cores s))).1) /\
  RNG s' = (integers (RNG s) (Z.to_nat (n_cores s))).2.
Proof.
  intros Hbuf Hpos Hlen. unfold pool in Hlen.
  unfold draw_seed, refill_consumed_seeds, create_random_integers.
  rewrite Hlen, Z.eqb_refl, Hbuf.
  replace (n_cores s * 2 - n_cores s)%Z with (n_cores s) by lia.
  destruct (Z.ltb_spec (n_cores s) 0); [lia|].
  destruct (integers (RNG s) (Z.to_nat (n_cores s))) as [fresh g'].
  cbn [mbind result_bind Py.bind _random_integers n_cores _seed_buffer_size RNG fst snd].
  destruct (_random_integers s) as [|seed0 rest]; cbn [length] in Hlen; [lia|].
  cbn [app]. intros [= <- <-]. cbn. split; reflexivity.
Qed.

(** C10, for a simulation with at least one core: the pool starts
    with the [2 * n_cores] integers that the generator hands out at
    the start; every [draw_seed] of a sequential run succeeds, hands
    out the first seed of the pool and removes it; the pool is topped
    up exactly in the calls that find it at length [n_cores], back to
    [2 * n_cores], by the [n_cores] fresh integers that the generator
    hands out at its current state, and the generator is left at the
    state after them; in the other calls the generator is not
    touched; and after every call the pool holds between [n_cores]
    and [2 * n_cores - 1] seeds. *)
Theorem seed_pool_invariant (cores : Z) (g : G) :
  (1 <= cores)%Z ->
  (exists s0, init integers cores g = Ok s0 /\
              _random_integers s0 = (integers g (Z.to_nat (cores * 2))).1 /\
              RNG s0 = (integers g (Z.to_nat (cores * 2))).2 /\
              Z.of_nat (length (_random_integers s0)) = (2 * cores)%Z) /\
  (forall s, reachable integers cores g s ->
     exists seed s',
       draw_seed integers s = Ok (seed, s') /\
       head (_random_integers s) = Some seed /\
       (Z.of_nat (length (_random_integers s)) = cores ->
          let fresh := integers (RNG s) (Z.to_nat cores) in
          Z.of_nat (length fresh.1) = cores /\
          Z.of_nat (length (_random_integers s ++ fresh.1)) = (2 * cores)%Z /\
          _random_integers s' = tail (_random_integers s ++ fresh.1) /\
          RNG s' = fresh.2) /\
       (Z.of_nat (length (_random_integers s)) <> cores ->
          _random_integers s' = tail (_random_integers s) /\
          RNG s' = RNG s) /\
       (cores <= Z.of_nat (length (_random_integers s')) <= 2 * cores - 1)%Z).
Proof.
  intros Hpos. split.
  - unfold init, create_random_integers.
    destruct (Z.ltb_spec (cores * 2) 0); [lia|].
    pose proof (integers_length g (Z.to_nat (cores * 2))) as Hl.
    destruct (integers g (Z.to_nat (cores * 2))) as [seeds g'] eqn:E; cbn.
    eexists. split; [reflexivity|]. cbn. cbn in Hl.
    split; [reflexivity|]. split; [reflexivity|]. lia.
  - intros s Hr.
    destruct (reachable_bounds cores g s Hpos Hr) as (Hn & Hb & Hl).
    destruct (draw_seed_step s) as (seed & s' & Hd & Hh & _ & _ & _ & Hkeep & Hl');
      [congruence|lia|lia|].
    exists seed, s'. split; [exact Hd|]. split; [exact Hh|].
    split; [|split].
    + intros Hlen. cbn zeta.
      destruct (draw_seed_refill s seed s') as [Hs' Hg];
        [congruence|lia|unfold pool; lia|exact Hd|].
      rewrite Hn in Hs', Hg.
      pose proof (integers_length (RNG s) (Z.to_nat cores)) as Hfresh.
      split; [lia|]. split; [rewrite length_app; lia|].
      split; assumption.
    + intros Hne. apply Hkeep. unfold pool. congruence.
    + rewrite Hn in Hl'. unfold pool in Hl'. lia.
Qed.

End SeedPoolProperties.

Lemma counter_integers_length (g n : nat) :
  length (SeedPool.counter_integers g n).1 = n.
Proof. cbn. now rewrite length_map, length_seq. Qed.

Lemma seed_pool_invariant_witness :
  (exists s0, SeedPool.init SeedPool.counter_integers 2 0 = Ok s0 /\
              SeedPool._random_integers s0
              = (SeedPool.counter_integers 0 (Z.to_nat (2 * 2))).1 /\
              SeedPool.RNG s0
              = (SeedPool.counter_integers 0 (Z.to_nat (2 * 2))).2 /\
              Z.of_nat (length (SeedPool._random_integers s0)) = (2 * 2)%Z) /\
  (forall s, SeedPool.reachable SeedPool.counter_integers 2 0 s ->
     exists seed s',
       SeedPool.draw_seed SeedPool.counter_integers s = Ok (seed, s') /\
       head (SeedPool._random_integers s) = Some seed /\
       (Z.of_nat (length (SeedPool._random_integers s)) = 2%Z ->
          let fresh :=
            SeedPool.counter_integers (SeedPool.RNG s) (Z.to_nat 2) in
          Z.of_nat (length fresh.1) = 2%Z /\
          Z.of_nat (length (SeedPool._random_integers s ++ fresh.1))
          = (2 * 2)%Z /\
          SeedPool._random_integers s'
          = tail (SeedPool._random_integers s ++ fresh.1) /\
          SeedPool.RNG s' = fresh.2) /\
       (Z.of_nat (length (SeedPool._random_integers s)) <> 2%Z ->
          SeedPool._random_integers s' = tail (SeedPool._random_integers s) /\
          SeedPool.RNG s' = SeedPool.RNG s) /\
       (2 <= Z.of_nat (length (SeedPool._random_integers s')) <= 2 * 2 - 1)%Z).
Proof.
  apply (seed_pool_invariant SeedPool.counter_integers
           counter_integers_length 2%Z 0); lia.
Defined.

(** With no core configured the pool starts empty, the refill adds
    nothing, and the first [draw_seed] pops from the empty list. *)
Lemma seed_pool_no_cores :
  exists s0,
    SeedPool.init SeedPool.counter_integers 0 0 = Ok s0 /\
    Z.of_nat (length (SeedPool._random_integers s0)) = (2 * 0)%Z /\
    SeedPool.draw_seed SeedPool.counter_integers s0 = Raise IndexError.
Proof. eexists. repeat split. Qed.

Import FlatKeys.

(** * Further properties of the flattening *)

Lemma reverse_mapper_first_call_witness :
  exists flat empty_map h0,
    flatten_parameter_dict p_example ["a"] = (flat, empty_map, h0) /\
    flat = flat_of (included ["a"] p_example) /\
    ((forall k, k ∈ keys [("k___1", Fin 5)] -> k ∈ keys flat) ->
     exists param_dict h',
       reverse_mapper empty_map h0 [("k___1", Fin 5)] = Ok (param_dict, h') /\
       keys param_dict = keys (included ["a"] p_example) /\
       forall par value,
         (par, value) ∈ included ["a"] p_example ->
         match value with
         | Scalar _ =>
             dict_get par (read_dict h' param_dict)
             = Some (Scalar (supplied [("k___1", Fin 5)] par))
         | Vector xs =>
             exists ys,
               dict_get par (read_dict h' param_dict) = Some (Vector ys) /\
               length ys = length xs /\
               forall i, i < length xs ->
                 ys !! i = Some (supplied [("k___1", Fin 5)] (key par i))
         end).
Proof.
  apply (reverse_mapper_first_call p_example ["a"] [("k___1", Fin 5)]).
  - nodup_by_compute.
  - repeat constructor.
  - nodup_by_compute.
Defined.

(** With an exclude list the round trip gives back the items that
    are not excluded. *)
Theorem flatten_round_trip_excluding (p : dict param_value)
    (exclude_params : list string) :
  NoDup (keys p) ->
  Forall (fun item => name_ok item = true) (included exclude_params p) ->
  exists flat empty_map h0 param_dict h',
    flatten_parameter_dict p exclude_params = (flat, empty_map, h0) /\
    flat = flat_of (included exclude_params p) /\
    reverse_mapper empty_map h0 flat = Ok (param_dict, h') /\
    read_dict h' param_dict = included exclude_params p.
Proof.
  intros Hnd Hok.
  pose proof (included_NoDup exclude_params p Hnd) as Hnd'.
  set (p' := included exclude_params p) in *.
  exists (flat_of p'), (template_of 0 p'), (arrays_of p'),
         (filled_of 0 p'), (vectors_of p').
  split; [rewrite flatten_exclude; now apply flatten_closed|].
  split; [reflexivity|].
  pose proof (reverse_loop_closed p' [] [] (arrays_of p') Hnd' Hok) as Hloop.
  cbn [app length] in Hloop. unfold reverse_mapper. split.
  - apply Hloop.
    + intros k _. apply not_elem_of_nil.
    + apply same_shape_arrays_vectors.
  - apply (read_dict_filled p' []).
Qed.

Lemma flatten_round_trip_excluding_witness :
  exists flat empty_map h0 param_dict h',
    flatten_parameter_dict (p_example ++ [("b___", Scalar (Fin 1))]) ["b___"]
    = (flat, empty_map, h0) /\
    flat = flat_of (included ["b___"] (p_example ++ [("b___", Scalar (Fin 1))])) /\
    reverse_mapper empty_map h0 flat = Ok (param_dict, h') /\
    read_dict h' param_dict
    = included ["b___"] (p_example ++ [("b___", Scalar (Fin 1))]).
Proof.
  apply (flatten_round_trip_excluding
           (p_example ++ [("b___", Scalar (Fin 1))]) ["b___"]).
  - nodup_by_compute.
  - repeat constructor.
Defined.

(** ** What the inverse keeps, whatever it is given *)

Lemma same_shape_refl h : same_shape h h.
Proof. unfold same_shape. induction h; constructor; auto. Qed.

Lemma setitem_same_shape h a i v h' :
  setitem h a i v = Ok h' -> same_shape h' h.
Proof.
  unfold setitem. destruct (h !! a) as [arr|] eqn:Ha; [|discriminate].
  destruct (_ && _)%bool.
  - intros [= <-]. eapply same_shape_insert;
      [apply same_shape_refl|exact Ha|apply length_insert].
  - destruct (_ && _)%bool; [|discriminate].
    intros [= <-]. eapply same_shape_insert;
      [apply same_shape_refl|exact Ha|apply length_insert].
Qed.

Lemma keys_dict_set_incl {V} k k' (v : V) d : k ∈ keys d -> k ∈ keys (dict_set k' v d).
Proof.
  induction d as [|[k0 v0] d IH]; cbn; [intros H; now apply elem_of_nil in H|].
  destruct (String.eqb_spec k' k0) as [->|Hne]; cbn; [auto|].
  rewrite !elem_of_cons. intros [->|H]; [now left|right; now apply IH].
Qed.

Lemma reverse_step_keeps d h item d' h' :
  reverse_step (d, h) item = Ok (d', h') ->
  same_shape h' h /\ forall k, k ∈ keys d -> k ∈ keys d'.
Proof.
  destruct item as [subpar value]. unfold reverse_step.
  destruct (split sep subpar) as [|par [|par_index [|? ?]]]; try discriminate.
  - intros [= <- <-]. split; [apply same_shape_refl|].
    intros k. apply keys_dict_set_incl.
  - destruct (dict_get par d) as [target|]; [|discriminate].
    destruct (int par_index) as [i|]; [|discriminate]. run_bind.
    destruct target as [x|a]; [discriminate|].
    destruct (setitem h a i value) as [h1|] eqn:Hset; [|discriminate].
    run_bind. intros [= <- <-]. split; [|auto].
    now apply setitem_same_shape in Hset.
Qed.

Lemma reverse_loop_snoc st q item :
  reverse_loop st (q ++ [item]) = (st' ← reverse_loop st q; reverse_step st' item).
Proof. unfold reverse_loop. now rewrite foldl_app. Qed.

Lemma reverse_loop_keeps q : forall d h d' h',
  reverse_loop (Ok (d, h)) q = Ok (d', h') ->
  same_shape h' h /\ forall k, k ∈ keys d -> k ∈ keys d'.
Proof.
  induction q as [|item q IH] using rev_ind; intros d h d' h'.
  - intros [= <- <-]. split; [apply same_shape_refl|auto].
  - rewrite reverse_loop_snoc.
    destruct (reverse_loop (Ok (d, h)) q) as [[d1 h1]|] eqn:Hq; [|discriminate].
    run_bind. intros Hstep. apply reverse_step_keeps in Hstep as [Hs Hk].
    destruct (IH d h d1 h1 Hq) as [Hs1 Hk1]. split.
    + eapply same_shape_trans; eassumption.
    + auto.
Qed.

(** A call of the inverse that returns leaves every array of the
    store with its length, on any template, store and flat mapping,
    and the result has every name of the template. *)
Theorem reverse_mapper_keeps_shape (empty_map : dict pyval)
    (h : list (list pyfloat)) (parameters : dict pyfloat)
    (param_dict : dict pyval) (h' : list (list pyfloat)) :
  reverse_mapper empty_map h parameters = Ok (param_dict, h') ->
  same_shape h' h /\
  length h' = length h /\
  forall k, k ∈ keys empty_map -> k ∈ keys param_dict.
Proof.
  intros H. apply reverse_loop_keeps in H as [Hs Hk].
  split; [assumption|]. split; [|assumption].
  now apply Forall2_length in Hs.
Qed.

Lemma reverse_mapper_keeps_shape_witness :
  same_shape [[Fin 5; NaN]] [[NaN; NaN]] /\
  length [[Fin 5; NaN]] = length [[NaN; NaN]] /\
  forall k, k ∈ keys [("k", VArray 0); ("a", VFloat NaN)] ->
            k ∈ keys [("k", VArray 0); ("a", VFloat (Fin 3))].
Proof.
  apply (reverse_mapper_keeps_shape
           [("k", VArray 0); ("a", VFloat NaN)] [[NaN; NaN]]
           [("k___0", Fin 5); ("a", Fin 3)]).
  reflexivity.
Defined.

(** ** Flat keys that the flattening did not write *)

Lemma dict_get_elem_of {V} k (v : V) d : dict_get k d = Some v -> (k, v) ∈ d.
Proof.
  induction d as [|[k' v'] d IH]; cbn; [discriminate|].
  destruct (String.eqb_spec k k') as [->|Hne].
  - intros [= ->]. apply list_elem_of_here.
  - intros H. apply list_elem_of_further. now apply IH.
Qed.

Lemma template_of_None p par base :
  dict_get par p = None -> dict_get par (template_of base p) = None.
Proof.
  rewrite !dict_get_None. now rewrite template_of_keys.
Qed.

Lemma reverse_mapper_one em h item :
  reverse_mapper em h [item] = reverse_step (em, h) item.
Proof. reflexivity. Qed.

(** The flat key of an index, from the state that
    [flatten_parameter_dict] leaves (at any call): the key of a name
    that the mapping does not have is a [KeyError], the key of a
    scalar is a [TypeError], and an index at or beyond the length of
    the vector is an [IndexError]. *)
Theorem reverse_mapper_errors (p : dict param_value) (par : string) (i : nat)
    (v : pyfloat) :
  NoDup (keys p) ->
  Forall (fun item => name_ok item = true) p ->
  contains sep par = false ->
  ends_with_char "_" par = false ->
  exists flat empty_map h0,
    flatten_parameter_dict p [] = (flat, empty_map, h0) /\
    forall h, same_shape h h0 ->
      match dict_get par p with
      | None => reverse_mapper empty_map h [(key par i, v)] = Raise KeyError
      | Some (Scalar _) =>
          reverse_mapper empty_map h [(key par i, v)] = Raise TypeError
      | Some (Vector xs) =>
          length xs <= i ->
          reverse_mapper empty_map h [(key par i, v)] = Raise IndexError
      end.
Proof.
  intros Hnd Hok Hc He.
  exists (flat_of p), (template_of 0 p), (arrays_of p).
  split; [now apply flatten_closed|]. intros h Hh.
  rewrite reverse_mapper_one. unfold reverse_step.
  rewrite split_key by assumption.
  destruct (dict_get par p) as [[x|xs]|] eqn:Hp.
  - apply dict_get_elem_of in Hp.
    destruct (template_of_item p 0 par (Scalar x) Hnd Hp) as (x0 & ->).
    now rewrite int_str.
  - apply dict_get_elem_of in Hp.
    destruct (template_of_item p 0 par (Vector xs) Hnd Hp) as (a & -> & _ & Harr).
    rewrite Nat.sub_0_r in Harr. intros Hi.
    destruct (same_shape_lookup _ _ _ _ Hh Harr) as (arr & Ha & Hlen).
    rewrite length_replicate in Hlen.
    rewrite int_str. run_bind. unfold setitem. rewrite Ha, Hlen.
    destruct (Z.ltb_spec (Z.of_nat i) (Z.of_nat (length xs))); [lia|].
    destruct (Z.ltb_spec (Z.of_nat i) 0); [lia|].
    now rewrite !andb_false_r.
  - now rewrite (template_of_None p par 0 Hp).
Qed.

Lemma reverse_mapper_errors_witness :
  exists flat empty_map h0,
    flatten_parameter_dict p_example [] = (flat, empty_map, h0) /\
    forall h, same_shape h h0 ->
      match dict_get "k" p_example with
      | None => reverse_mapper empty_map h [(key "k" 2, Fin 1)] = Raise KeyError
      | Some (Scalar _) =>
          reverse_mapper empty_map h [(key "k" 2, Fin 1)] = Raise TypeError
      | Some (Vector xs) =>
          length xs <= 2 ->
          reverse_mapper empty_map h [(key "k" 2, Fin 1)] = Raise IndexError
      end.
Proof.
  apply (reverse_mapper_errors p_example "k" 2 (Fin 1)).
  - nodup_by_compute.
  - repeat constructor.
  - reflexivity.
  - reflexivity.
Defined.

Lemma keys_dict_set_fresh {V} k (v : V) d :
  k ∉ keys d -> keys (dict_set k v d) = keys d ++ [k].
Proof. intros H. now rewrite dict_set_fresh, keys_app. Qed.

(** A flat key without the separator is stored as a scalar under its
    own name, whatever the template holds for it: the call cannot
    fail, the result reads the supplied value under the key, the
    store is not touched, a name that the mapping does not have is
    added after the others, and a vector of that name is not in the
    result. *)
Theorem reverse_mapper_plain_key (p : dict param_value) (k : string)
    (v : pyfloat) :
  NoDup (keys p) ->
  Forall (fun item => name_ok item = true) p ->
  contains sep k = false ->
  exists flat empty_map h0,
    flatten_parameter_dict p [] = (flat, empty_map, h0) /\
    forall h, exists param_dict,
      reverse_mapper empty_map h [(k, v)] = Ok (param_dict, h) /\
      dict_get k (read_dict h param_dict) = Some (Scalar v) /\
      (k ∈ keys p -> keys param_dict = keys p) /\
      (k ∉ keys p -> keys param_dict = keys p ++ [k]).
Proof.
  intros Hnd Hok Hc.
  exists (flat_of p), (template_of 0 p), (arrays_of p).
  split; [now apply flatten_closed|]. intros h.
  rewrite reverse_mapper_one. unfold reverse_step.
  rewrite split_no_sep by assumption.
  eexists. split; [reflexivity|]. split; [|split].
  - now rewrite dict_get_read_dict, dict_get_set_eq.
  - intros Hin. rewrite keys_dict_set_mem; [apply template_of_keys|].
    now rewrite template_of_keys.
  - intros Hin. rewrite keys_dict_set_fresh; [now rewrite template_of_keys|].
    now rewrite template_of_keys.
Qed.

Lemma reverse_mapper_plain_key_witness :
  exists flat empty_map h0,
    flatten_parameter_dict p_example [] = (flat, empty_map, h0) /\
    forall h, exists param_dict,
      reverse_mapper empty_map h [("k", Fin 9)] = Ok (param_dict, h) /\
      dict_get "k" (read_dict h param_dict) = Some (Scalar (Fin 9)) /\
      ("k" ∈ keys p_example -> keys param_dict = keys p_example) /\
      ("k" ∉ keys p_example -> keys param_dict = keys p_example ++ ["k"]).
Proof.
  apply (reverse_mapper_plain_key p_example "k" (Fin 9)).
  - nodup_by_compute.
  - repeat constructor.
  - reflexivity.
Defined.

(** ** A negative index *)

Lemma digits_value_str j : digits_value (str j) = Ok (Z.of_nat j).
Proof.
  unfold str, digits_value.
  pose proof (to_uint_not_nil j) as Hn.
  pose proof (NilEmpty.usu (Nat.to_uint j)) as Hu.
  destruct (NilEmpty.string_of_uint (Nat.to_uint j)) eqn:E.
  - destruct (Nat.to_uint j); cbn in E; congruence.
  - rewrite Hu. now rewrite Unsigned.of_to.
Qed.

Lemma split_minus_key par j :
  contains sep par = false ->
  ends_with_char "_" par = false ->
  split sep (minus_key par j) = [par; String "-" (str j)].
Proof.
  intros Hc He. unfold split, minus_key. rewrite split_from_key; auto.
  cbn [contains starts_with]. unfold sep at 1. cbn [starts_with Ascii.eqb Bool.eqb andb orb].
  apply str_no_sep.
Qed.

(** A flat key whose index is written with a minus sign counts from
    the end of the vector, as numpy does. For a mapping of scalars and
    float arrays with distinct names that are free of the separator
    (the name of a vector not ending in an underscore): at a first
    call the key [par___-j], for [j] from 1 to the length of the
    vector, writes the element at the position [length - j] and
    nothing else, so that the other elements are the NaN of the
    template. *)
Theorem reverse_mapper_negative_index (p : dict param_value) (par : string)
    (xs : list pyfloat) (j : nat) (v : pyfloat) :
  NoDup (keys p) ->
  Forall (fun item => name_ok item = true) p ->
  (par, Vector xs) ∈ p ->
  1 <= j <= length xs ->
  exists flat empty_map h0 param_dict h',
    flatten_parameter_dict p [] = (flat, empty_map, h0) /\
    reverse_mapper empty_map h0 [(minus_key par j, v)] = Ok (param_dict, h') /\
    dict_get par (read_dict h' param_dict)
    = Some (Vector (<[length xs - j := v]> (replicate (length xs) NaN))).
Proof.
  intros Hnd Hok Hin Hj.
  exists (flat_of p), (template_of 0 p), (arrays_of p).
  destruct (template_of_item p 0 par (Vector xs) Hnd Hin) as (a & Ha & _ & Harr).
  rewrite Nat.sub_0_r in Harr.
  assert (name_ok (par, Vector xs) = true) as Hn.
  { rewrite Forall_forall in Hok. now apply Hok. }
  apply name_ok_vector in Hn as [Hc He].
  do 2 eexists. split; [now apply flatten_closed|].
  rewrite reverse_mapper_one. unfold reverse_step.
  rewrite split_minus_key by assumption. rewrite Ha.
  unfold int. cbn [Ascii.eqb Bool.eqb]. rewrite digits_value_str.
  cbn [fmap result_fmap Py.bind]. run_bind.
  unfold setitem. rewrite Harr, length_replicate.
  destruct (Z.leb_spec 0 (- Z.of_nat j)); [lia|]. cbn [andb].
  destruct (Z.leb_spec (- Z.of_nat (length xs)) (- Z.of_nat j)); [|lia].
  destruct (Z.ltb_spec (- Z.of_nat j) 0); [|lia]. cbn [andb]. run_bind.
  split; [reflexivity|].
  rewrite dict_get_read_dict, Ha. cbn [fmap option_fmap option_map read].
  rewrite list_lookup_insert_eq by (now apply lookup_lt_Some in Harr).
  cbn [default]. unfold id.
  replace (Z.to_nat (Z.of_nat (length xs) + - Z.of_nat j)) with (length xs - j)
    by lia.
  reflexivity.
Qed.

Lemma reverse_mapper_negative_index_witness :
  exists flat empty_map h0 param_dict h',
    flatten_parameter_dict p_example [] = (flat, empty_map, h0) /\
    reverse_mapper empty_map h0 [(minus_key "k" 1, Fin 7)] = Ok (param_dict, h') /\
    dict_get "k" (read_dict h' param_dict)
    = Some (Vector (<[length [Fin 1; Fin 2] - 1 := Fin 7]>
                      (replicate (length [Fin 1; Fin 2]) NaN))).
Proof.
  apply (reverse_mapper_negative_index p_example "k" [Fin 1; Fin 2] 1 (Fin 7)).
  - nodup_by_compute.
  - repeat constructor.
  - apply list_elem_of_here.
  - cbn. lia.
Defined.

(** ** What a later call finds *)

Lemma read_dict_template p : forall hpre,
  read_dict (hpre ++ vectors_of p) (template_of (length hpre) p) = scalars_blank p.
Proof.
  induction p as [|[par [x|xs]] p IH]; intros hpre;
    cbn [template_of vectors_of read_dict scalars_blank map].
  - reflexivity.
  - cbn. f_equal. apply IH.
  - cbn [fst snd read]. rewrite list_lookup_middle by reflexivity. cbn [default].
    f_equal. rewrite (cons_middle xs hpre), app_assoc.
    replace (S (length hpre)) with (length (hpre ++ [xs]))
      by (rewrite length_app; cbn; lia).
    apply IH.
Qed.

(** After the inverse has been applied to the whole flat mapping, a
    call with the empty mapping does not return the template filled
    with NaN: every vector comes back with the values of the earlier
    call, and only the scalars are NaN. *)
Theorem reverse_mapper_later_call (p : dict param_value) :
  NoDup (keys p) ->
  Forall (fun item => name_ok item = true) p ->
  exists flat empty_map h0 d1 h1 d2 h2,
    flatten_parameter_dict p [] = (flat, empty_map, h0) /\
    reverse_mapper empty_map h0 flat = Ok (d1, h1) /\
    reverse_mapper empty_map h1 [] = Ok (d2, h2) /\
    read_dict h2 d2 = scalars_blank p.
Proof.
  intros Hnd Hok.
  exists (flat_of p), (template_of 0 p), (arrays_of p),
         (filled_of 0 p), (vectors_of p), (template_of 0 p), (vectors_of p).
  split; [now apply flatten_closed|].
  pose proof (reverse_loop_closed p [] [] (arrays_of p) Hnd Hok) as Hloop.
  cbn [app length] in Hloop. unfold reverse_mapper. split; [|split].
  - apply Hloop.
    + intros k _. apply not_elem_of_nil.
    + apply same_shape_arrays_vectors.
  - reflexivity.
  - apply (read_dict_template p []).
Qed.

Lemma reverse_mapper_later_call_witness :
  exists flat empty_map h0 d1 h1 d2 h2,
    flatten_parameter_dict p_example [] = (flat, empty_map, h0) /\
    reverse_mapper empty_map h0 flat = Ok (d1, h1) /\
    reverse_mapper empty_map h1 [] = Ok (d2, h2) /\
    read_dict h2 d2 = scalars_blank p_example.
Proof.
  apply (reverse_mapper_later_call p_example).
  - nodup_by_compute.
  - repeat constructor.
Defined.

(** * The return statement of the model *)

Import OdeStates.

Lemma append_assoc (a b c : string) : (a +:+ b) +:+ c = a +:+ (b +:+ c).
Proof. induction a as [|x a IH]; cbn; [reflexivity|]. now rewrite IH. Qed.

Lemma starts_with_app p t : starts_with p (p +:+ t) = true.
Proof.
  induction p as [|a p IH]; cbn; [reflexivity|].
  now rewrite Ascii.eqb_refl, IH.
Qed.

Lemma no_char_app c a b : no_char c (a +:+ b) = no_char c a && no_char c b.
Proof.
  induction a as [|x a IH]; cbn; [reflexivity|].
  now rewrite IH, andb_assoc.
Qed.

Lemma no_char_starts_with c p t :
  no_char c t = true -> starts_with (String c p) t = false.
Proof.
  destruct t as [|x t]; cbn; [reflexivity|].
  intros [Hx _]%andb_prop. rewrite Ascii.eqb_sym.
  apply negb_true_iff in Hx. now rewrite Hx.
Qed.

Lemma no_char_contains c p t :
  no_char c t = true -> contains (String c p) t = false.
Proof.
  induction t as [|x t IH]; intros H.
  - reflexivity.
  - cbn [contains]. rewrite (no_char_starts_with c p _ H).
    cbn in H. apply andb_prop in H as [_ H]. now apply IH.
Qed.

(** Passing the rest of a separator that has been found. *)
Lemma split_from_skip p s b cur :
  split_from p (String.length s) cur (s +:+ b) = split_from p 0 cur b.
Proof.
  induction s as [|a s IH]; [reflexivity|].
  cbn [String.length append]. change (String a s +:+ b) with (String a (s +:+ b)).
  cbn [split_from]. apply IH.
Qed.

(** The first cut is at the first place where the separator stands. *)
Lemma split_from_first c p a b : forall cur,
  no_char c a = true ->
  split_from (String c p) 0 cur (a +:+ (String c p +:+ b))
  = (string_of_rev cur +:+ a) :: split_from (String c p) 0 [] b.
Proof.
  induction a as [|x a IH]; intros cur Ha.
  - rewrite append_empty_r.
    change ("" +:+ (String c p +:+ b)) with (String c (p +:+ b)).
    cbn [split_from].
    change (String c (p +:+ b)) with (String c p +:+ b) at 1.
    rewrite starts_with_app. f_equal.
    replace (String.length (String c p) - 1) with (String.length p)
      by (cbn [String.length]; lia).
    apply split_from_skip.
  - change (String x a +:+ (String c p +:+ b))
      with (String x (a +:+ (String c p +:+ b))).
    cbn [no_char] in Ha. apply andb_prop in Ha as [Hx Ha].
    apply negb_true_iff in Hx.
    cbn [split_from starts_with]. rewrite Ascii.eqb_sym, Hx. cbn [andb].
    rewrite IH by assumption.
    unfold string_of_rev. cbn [rev]. now rewrite string_of_snoc.
Qed.

(** A separator of one character cuts a text wherever it stands. *)
Lemma split_from_char c x y : forall cur,
  split_from (String c "") 0 cur (x +:+ String c y)
  = split_from (String c "") 0 cur x ++ split_from (String c "") 0 [] y.
Proof.
  induction x as [|a x IH]; intros cur.
  - cbn [append split_from starts_with]. rewrite Ascii.eqb_refl. reflexivity.
  - change (String a x +:+ String c y) with (String a (x +:+ String c y)).
    cbn [split_from starts_with].
    destruct (Ascii.eqb c a); cbn [andb]; rewrite IH; reflexivity.
Qed.

Lemma split_from_nonempty p t : forall skip cur, split_from p skip cur t <> [].
Proof.
  induction t as [|a t IH]; intros skip cur; cbn [split_from]; [discriminate|].
  destruct skip; [|apply IH].
  destruct (starts_with p (String a t)); [discriminate|apply IH].
Qed.

Lemma split_join c p (l : list string) :
  l <> [] ->
  Forall (fun a => no_char c a = true) l ->
  split (String c p) (join (String c p) l) = l.
Proof.
  induction l as [|a l IH]; [congruence|]. intros _ Hl.
  apply Forall_cons in Hl as [Ha Hl].
  destruct l as [|b l].
  - cbn [join]. apply split_no_sep. now apply no_char_contains.
  - change (join (String c p) (a :: b :: l))
      with (a +:+ (String c p +:+ join (String c p) (b :: l))).
    unfold split. rewrite split_from_first by assumption.
    f_equal. apply IH; [discriminate|assumption].
Qed.

Lemma replace_blank_app a b :
  replace_blank (a +:+ b) = replace_blank a +:+ replace_blank b.
Proof.
  induction a as [|x a IH]; cbn; [reflexivity|].
  destruct (Ascii.eqb x " "); cbn; now rewrite IH.
Qed.

Lemma replace_blank_id a : no_char " " a = true -> replace_blank a = a.
Proof.
  induction a as [|x a IH]; cbn; [reflexivity|].
  intros [Hx Ha]%andb_prop. apply negb_true_iff in Hx. rewrite Hx.
  now rewrite IH.
Qed.

Lemma replace_blank_join (l : list string) :
  Forall (fun a => no_char " " a = true) l ->
  replace_blank (join ", " l) = join "," l.
Proof.
  induction l as [|a l IH]; [reflexivity|]. intros Hl.
  apply Forall_cons in Hl as [Ha Hl].
  destruct l as [|b l].
  - cbn [join]. now apply replace_blank_id.
  - change (join ", " (a :: b :: l)) with (a +:+ (", " +:+ join ", " (b :: l))).
    change (join "," (a :: b :: l)) with (a +:+ ("," +:+ join "," (b :: l))).
    rewrite !replace_blank_app, replace_blank_id by assumption.
    rewrite IH by assumption. reflexivity.
Qed.

Lemma no_char_join c sep (l : list string) :
  no_char c sep = true ->
  Forall (fun a => no_char c a = true) l ->
  no_char c (join sep l) = true.
Proof.
  intros Hs. induction l as [|a l IH]; [reflexivity|]. intros Hl.
  apply Forall_cons in Hl as [Ha Hl].
  destruct l as [|b l]; [exact Ha|].
  change (join sep (a :: b :: l)) with (a +:+ (sep +:+ join sep (b :: l))).
  rewrite !no_char_app, Ha, Hs, IH by assumption. reflexivity.
Qed.

Lemma getitem_neg2_app {A} (l : list A) a b : getitem_neg2 (l ++ [a; b]) = Ok a.
Proof. unfold getitem_neg2. rewrite rev_app_distr. reflexivity. Qed.

(** The last line of a text that ends in a line feed. *)
Lemma return_statement_of body line :
  no_char "010" line = true ->
  getitem_neg2 (split nl (body +:+ (nl +:+ (line +:+ nl)))) = Ok line.
Proof.
  intros Hl. unfold split, nl.
  change (String "010" "" +:+ (line +:+ String "010" ""))
    with (String "010" (line +:+ String "010" "")).
  rewrite !split_from_char.
  rewrite (split_from_no_sep _ line) by (now apply no_char_contains).
  cbn [split_from app]. unfold string_of_rev. cbn [rev string_of_list_ascii append].
  apply getitem_neg2_app.
Qed.

(** The text after the word [return]. *)
Lemma return_args_of indent rest :
  no_char "r" indent = true ->
  contains "return" rest = false ->
  Diffrax.getitem (split "return" (indent +:+ ("return" +:+ rest))) 1 = Ok rest.
Proof.
  intros Hi Hr. unfold split. rewrite split_from_first by assumption.
  rewrite split_from_no_sep by assumption. reflexivity.
Qed.

Lemma plain_name_parts n :
  plain_name n = true ->
  no_char " " n = true /\ no_char "," n = true /\ no_char "010" n = true.
Proof.
  unfold plain_name. intros [[H1 H2]%andb_prop H3]%andb_prop. auto.
Qed.

(** For a model whose text ends in the line of its return statement,
    and whose return statement lists names separated by a comma and a
    blank, the function returns the names. The text before the line is
    arbitrary; the line is indented by characters other than [r], and
    the word [return] does not occur in the list of names. *)
Theorem get_return_arguments_names (body indent : string)
    (names : list string) :
  no_char "r" indent = true ->
  no_char "010" indent = true ->
  names <> [] ->
  Forall (fun n => plain_name n = true) names ->
  contains "return" (join ", " names) = false ->
  get_return_arguments
    (body +:+ (nl +:+ ((indent +:+ ("return" +:+ (" " +:+ join ", " names))) +:+ nl)))
  = Ok names.
Proof.
  intros Hr Hn Hne Hnames Hret. unfold get_return_arguments.
  assert (Forall (fun n => no_char " " n = true) names) as Hb.
  { eapply Forall_impl; [exact Hnames|]. intros n H. now apply plain_name_parts in H. }
  assert (Forall (fun n => no_char "," n = true) names) as Hc.
  { eapply Forall_impl; [exact Hnames|]. intros n H. now apply plain_name_parts in H. }
  assert (Forall (fun n => no_char "010" n = true) names) as Hl.
  { eapply Forall_impl; [exact Hnames|]. intros n H. now apply plain_name_parts in H. }
  rewrite return_statement_of.
  - run_bind. rewrite return_args_of; [|assumption|].
    + run_bind. rewrite replace_blank_app. cbn [replace_blank Ascii.eqb Bool.eqb].
      change ("" +:+ ?t) with t. rewrite replace_blank_join by assumption.
      f_equal. now apply split_join.
    + change (" " +:+ join ", " names) with (String " " (join ", " names)).
      cbn [contains starts_with Ascii.eqb Bool.eqb andb orb]. exact Hret.
  - rewrite !no_char_app, Hn. cbn [andb].
    change (no_char "010" "return") with true.
    change (no_char "010" " ") with true. cbn [andb].
    now apply no_char_join.
Qed.

Lemma get_return_arguments_names_witness :
  get_return_arguments
    ("def model(t, y, a):" +:+
     (nl +:+ (("    " +:+ ("return" +:+ (" " +:+ join ", " ["dx"; "dy"]))) +:+ nl)))
  = Ok ["dx"; "dy"].
Proof.
  apply (get_return_arguments_names "def model(t, y, a):" "    " ["dx"; "dy"]).
  - reflexivity.
  - reflexivity.
  - discriminate.
  - repeat constructor.
  - reflexivity.
Defined.

(** A configured state count is returned as it is. When the count is
    left at -1 it is read from the text of the model: the answer is
    then -1 (the text could not be read) or at least 1, never 0; and
    it is -1 when the text of the model cannot be had. *)
Theorem infer_ode_states_range (n_ode_states : Z) (source : result string) :
  (n_ode_states <> (-1)%Z -> infer_ode_states n_ode_states source = n_ode_states) /\
  (n_ode_states = (-1)%Z ->
     infer_ode_states n_ode_states source = (-1)%Z \/
     (1 <= infer_ode_states n_ode_states source)%Z) /\
  (forall e, infer_ode_states (-1) (Raise e) = (-1)%Z).
Proof.
  unfold infer_ode_states. split; [|split].
  - intros Hn. destruct (Z.eqb_spec n_ode_states (-1)); [congruence|reflexivity].
  - intros ->. cbn [Z.eqb Pos.eqb].
    destruct source as [src|e]; run_bind; [|now left].
    unfold get_return_arguments.
    destruct (getitem_neg2 _) as [stmt|]; run_bind; [|now left].
    destruct (Diffrax.getitem _ 1) as [args|]; run_bind; [|now left].
    right. pose proof (split_from_nonempty "," (replace_blank args) 0 []) as Hne.
    unfold split. destruct (split_from _ _ _ _); [congruence|]. cbn [length]. lia.
  - reflexivity.
Qed.

(** A return statement without a value counts as one state: the
    text after [return] is empty, and splitting the empty text at the
    commas gives one empty name. *)
Theorem infer_ode_states_bare_return (body indent : string) :
  no_char "r" indent = true ->
  no_char "010" indent = true ->
  get_return_arguments (body +:+ (nl +:+ ((indent +:+ ("return" +:+ "")) +:+ nl)))
  = Ok [""] /\
  infer_ode_states (-1)
    (Ok (body +:+ (nl +:+ ((indent +:+ ("return" +:+ "")) +:+ nl)))) = 1%Z.
Proof.
  intros Hr Hn.
  assert (get_return_arguments
            (body +:+ (nl +:+ ((indent +:+ ("return" +:+ "")) +:+ nl))) = Ok [""]) as H.
  { unfold get_return_arguments. rewrite return_statement_of.
    - run_bind. now rewrite return_args_of.
    - now rewrite no_char_app, Hn. }
  split; [exact H|]. unfold infer_ode_states. cbn [Z.eqb Pos.eqb]. run_bind.
  now rewrite H.
Qed.

Lemma infer_ode_states_bare_return_witness :
  get_return_arguments
    ("def model(t, y):" +:+ (nl +:+ (("    " +:+ ("return" +:+ "")) +:+ nl)))
  = Ok [""] /\
  infer_ode_states (-1)
    (Ok ("def model(t, y):" +:+ (nl +:+ (("    " +:+ ("return" +:+ "")) +:+ nl))))
  = 1%Z.
Proof.
  apply (infer_ode_states_bare_return "def model(t, y):" "    "); reflexivity.
Defined.

(** * Coordinates and dimension order *)

Import Dims.

Lemma comprehension_ok {A B} (d : B) (f : A -> result B) (l : list A) :
  (forall a, a ∈ l -> exists b, f a = Ok b) ->
  comprehension f l = Ok (map (value_or d f) l).
Proof.
  induction l as [|a l IH]; intros H; [reflexivity|].
  cbn [comprehension map]. unfold value_or at 1.
  destruct (H a) as (b & ->); [apply list_elem_of_here|]. run_bind.
  rewrite IH by (intros a' Ha'; apply H; now apply list_elem_of_further).
  reflexivity.
Qed.

Lemma comprehension_raise {A B} (f : A -> result B) (l : list A) e :
  comprehension f l = Raise e -> exists a, a ∈ l /\ f a = Raise e.
Proof.
  induction l as [|a l IH]; [discriminate|]. cbn [comprehension].
  destruct (f a) as [b|e'] eqn:Ha; run_bind.
  - destruct (comprehension f l) as [bs|e'] eqn:Hl; run_bind; [discriminate|].
    intros [= ->]. destruct (IH eq_refl) as (a' & Hin & Ha').
    exists a'. split; [now apply list_elem_of_further|assumption].
  - intros [= ->]. exists a. split; [apply list_elem_of_here|assumption].
Qed.

Lemma comprehension_inv {A B} (f : A -> result B) (l : list A) bs :
  comprehension f l = Ok bs -> forall a, a ∈ l -> exists b, f a = Ok b.
Proof.
  revert bs. induction l as [|a l IH]; intros bs H a' Hin.
  - now apply elem_of_nil in Hin.
  - cbn [comprehension] in H.
    destruct (f a) as [b|] eqn:Ha; [|discriminate].
    cbn [mbind result_bind Py.bind] in H.
    destruct (comprehension f l) as [bs'|] eqn:Hl; [|discriminate].
    apply elem_of_cons in Hin as [->|Hin]; [eauto|].
    now apply (IH bs').
Qed.

Lemma zip_map_r {A B} (g : A -> B) (l : list A) :
  zip l (map g l) = map (fun a => (a, g a)) l.
Proof. induction l as [|a l IH]; cbn; [reflexivity|]. now rewrite IH. Qed.

(** The comprehension over the pairs of a name and what a function
    gives for it holds, for every name of the list, what the function
    gives for it. *)
Lemma coords_loop_map {A} (g : string -> list A) (l : list string) : forall acc dim,
  dim ∈ l ->
  dict_get dim (coords_loop acc (map (fun a => (a, g a)) l)) = Some (g dim).
Proof.
  induction l as [|d l IH] using rev_ind; intros acc dim Hin.
  - now apply elem_of_nil in Hin.
  - rewrite map_app. cbn [map]. rewrite coords_loop_snoc.
    destruct (decide (dim = d)) as [->|Hne].
    + apply dict_get_set_eq.
    + rewrite dict_get_set_ne by assumption. apply IH.
      apply elem_of_app in Hin as [Hin|Hin]; [assumption|].
      apply list_elem_of_singleton in Hin. congruence.
Qed.

Lemma keys_pairs {A} (g : string -> A) (l : list string) :
  keys (map (fun a => (a, g a)) l) = l.
Proof. unfold keys. rewrite map_map. cbn. apply map_id. Qed.

(** The coordinates that the setter of [observations] stores. The
    length check of [create_coordinates] cannot fail on the list that
    [set_coordinates] builds: the only failures are those of the
    lookups of the dimensions in the observations. Where every lookup
    returns, the coordinates hold for every dimension the values
    looked up for it, and for distinct dimensions their names are the
    dimensions in order. *)
Theorem coordinates_from_observations_spec {A}
    (observations_values : string -> result (list A))
    (dimensions : list string) :
  (forall e,
     coordinates_from_observations observations_values dimensions = Raise e ->
     exists dim, dim ∈ dimensions /\ observations_values dim = Raise e) /\
  ((forall dim, dim ∈ dimensions -> exists x, observations_values dim = Ok x) ->
   exists coords,
     coordinates_from_observations observations_values dimensions = Ok coords /\
     (forall dim, dim ∈ dimensions ->
        exists x, observations_values dim = Ok x /\
                  dict_get dim coords = Some x) /\
     (NoDup dimensions -> keys coords = dimensions)).
Proof.
  unfold coordinates_from_observations, set_coordinates. split.
  - intros e.
    destruct (comprehension observations_values dimensions) as [xs|e'] eqn:Hc.
    + run_bind. unfold create_coordinates.
      pose proof (comprehension_inv _ _ _ Hc) as Hall.
      rewrite (comprehension_ok [] _ _ Hall) in Hc. injection Hc as <-.
      rewrite length_map, Nat.eqb_refl. discriminate.
    + run_bind. intros [= ->]. now apply comprehension_raise.
  - intros Hall. rewrite (comprehension_ok [] _ _ Hall). run_bind.
    unfold create_coordinates. rewrite length_map, Nat.eqb_refl.
    eexists. split; [reflexivity|]. rewrite zip_map_r. split.
    + intros dim Hin. destruct (Hall dim Hin) as (x & Hx). exists x.
      split; [assumption|]. rewrite coords_loop_map by assumption.
      unfold value_or. now rewrite Hx.
    + intros Hnd. rewrite coords_loop_fresh; [apply keys_pairs|].
      cbn [keys map app]. fold (keys (map (fun a => (a, value_or [] observations_values a)) dimensions)).
      now rewrite keys_pairs.
Qed.

(** ** The positions of the dimensions *)

Lemma str_in_elem_of e l : str_in e l = true <-> e ∈ l.
Proof.
  unfold str_in. induction l as [|a l IH]; cbn.
  - split; [discriminate|]. intros H. now apply elem_of_nil in H.
  - rewrite orb_true_iff, IH, elem_of_cons.
    destruct (String.eqb_spec e a); intuition congruence.
Qed.

Lemma index_of_lookup e l : forall i, index_of e l = Some i -> l !! i = Some e.
Proof.
  induction l as [|a l IH]; intros i; cbn; [discriminate|].
  destruct (String.eqb_spec e a) as [->|Hne].
  - now intros [= <-].
  - destruct (index_of e l) as [j|]; [|discriminate].
    intros [= <-]. cbn. now apply IH.
Qed.

Lemma index_of_elem_of e l : e ∈ l -> exists i, index_of e l = Some i.
Proof.
  induction l as [|a l IH]; intros H; [now apply elem_of_nil in H|].
  cbn. destruct (String.eqb_spec e a) as [->|Hne]; [eauto|].
  apply elem_of_cons in H as [?|H]; [congruence|].
  destruct (IH H) as (i & ->). eauto.
Qed.

Lemma index_of_None e l : e ∉ l -> index_of e l = None.
Proof.
  intros H. destruct (index_of e l) as [i|] eqn:E; [|reflexivity].
  exfalso. apply H. apply index_of_lookup in E. now apply list_elem_of_lookup_2 in E.
Qed.

(** The guard [e_i in obs_var_dims] keeps [index] from raising: the
    positions are those of the evaluator dimensions that the variable
    has, in the order of the evaluator. *)
Lemma dim_positions_closed evaluator_dims obs_var_dims :
  dim_positions evaluator_dims obs_var_dims
  = Ok (omap (fun e_i => index_of e_i obs_var_dims) evaluator_dims).
Proof.
  induction evaluator_dims as [|e ev IH]; [reflexivity|].
  cbn [dim_positions omap list_omap].
  destruct (str_in e obs_var_dims) eqn:Hin.
  - apply str_in_elem_of, index_of_elem_of in Hin as (i & Hi).
    unfold tuple_index. rewrite Hi. run_bind. now rewrite IH.
  - rewrite index_of_None; [exact IH|].
    intros H. apply str_in_elem_of in H. congruence.
Qed.

Lemma dims_at_omap obs_var_dims evaluator_dims :
  dims_at obs_var_dims (omap (fun e_i => index_of e_i obs_var_dims) evaluator_dims)
  = map Some (filter (fun e_i => e_i ∈ obs_var_dims) evaluator_dims).
Proof.
  induction evaluator_dims as [|e ev IH]; [reflexivity|].
  cbn [omap list_omap]. rewrite filter_cons.
  destruct (decide (e ∈ obs_var_dims)) as [Hin|Hin].
  - destruct (index_of_elem_of _ _ Hin) as (i & Hi). rewrite Hi.
    cbn [dims_at map]. fold (dims_at obs_var_dims (omap (fun e_i => index_of e_i obs_var_dims) ev)).
    rewrite IH. f_equal. now apply index_of_lookup.
  - rewrite index_of_None by assumption. exact IH.
Qed.

Lemma create_dim_index_loop_closed (obs_ordered_dims : string -> result (list string))
    evaluator_dims data_variables : forall acc,
  create_dim_index_loop obs_ordered_dims data_variables evaluator_dims acc
  = (l ← comprehension
           (fun var => obs_var_dims ← obs_ordered_dims var;
                       dim_positions evaluator_dims obs_var_dims)
           data_variables;
     Ok (coords_loop acc (zip data_variables l))).
Proof.
  induction data_variables as [|var vars IH]; intros acc; [reflexivity|].
  cbn [create_dim_index_loop comprehension].
  destruct (obs_ordered_dims var) as [ds|e]; run_bind; [|reflexivity].
  rewrite dim_positions_closed. run_bind. rewrite IH.
  destruct (comprehension _ vars) as [l|e]; reflexivity.
Qed.

(** [create_dim_index] fails only where the observations fail to
    give the dimensions of a data variable: [index] never raises.
    Where the dimensions of every data variable are found, the mapper
    holds for every data variable a list of positions, each within the
    dimensions of the variable, and taking the dimensions of the
    variable at these positions lists the evaluator dimensions that
    the variable has, in the order of the evaluator. *)
Theorem create_dim_index_spec (obs_ordered_dims : string -> result (list string))
    (data_variables evaluator_dims : list string) :
  (forall e,
     create_dim_index obs_ordered_dims data_variables evaluator_dims = Raise e ->
     exists var, var ∈ data_variables /\ obs_ordered_dims var = Raise e) /\
  ((forall var, var ∈ data_variables -> exists ds, obs_ordered_dims var = Ok ds) ->
   exists var_dim_mapper,
     create_dim_index obs_ordered_dims data_variables evaluator_dims
     = Ok var_dim_mapper /\
     forall var obs_var_dims,
       var ∈ data_variables -> obs_ordered_dims var = Ok obs_var_dims ->
       exists positions,
         dict_get var var_dim_mapper = Some positions /\
         Forall (fun i => i < length obs_var_dims) positions /\
         dims_at obs_var_dims positions
         = map Some (filter (fun e_i => e_i ∈ obs_var_dims) evaluator_dims)).
Proof.
  unfold create_dim_index. rewrite create_dim_index_loop_closed. split.
  - intros e. destruct (comprehension _ data_variables) as [l|e'] eqn:Hc; [discriminate|].
    run_bind. intros [= ->]. apply comprehension_raise in Hc as (var & Hin & Hvar).
    exists var. split; [assumption|].
    destruct (obs_ordered_dims var) as [ds|e'];
      cbn [mbind result_bind Py.bind] in Hvar; [|congruence].
    now rewrite dim_positions_closed in Hvar.
  - intros Hall.
    rewrite (comprehension_ok [] _ data_variables).
    + run_bind. eexists. split; [reflexivity|].
      intros var ds Hin Hds. rewrite zip_map_r, coords_loop_map by assumption.
      eexists. split; [reflexivity|]. unfold value_or. rewrite Hds. run_bind.
      rewrite dim_positions_closed. split; [|apply dims_at_omap].
      apply Forall_forall. intros i Hi.
      apply list_elem_of_omap in Hi as (e & _ & He).
      apply index_of_lookup in He. now apply lookup_lt_Some in He.
    + intros var Hin. destruct (Hall var Hin) as (ds & ->). run_bind.
      rewrite dim_positions_closed. eauto.
Qed.

(** When the evaluator dimensions are distinct and the dimensions of
    a variable are distinct and all among them, the positions are a
    permutation of the axes of the variable. *)
Theorem dim_positions_permutation (evaluator_dims obs_var_dims : list string) :
  NoDup evaluator_dims ->
  NoDup obs_var_dims ->
  (forall d, d ∈ obs_var_dims -> d ∈ evaluator_dims) ->
  exists positions,
    dim_positions evaluator_dims obs_var_dims = Ok positions /\
    positions ≡ₚ seq 0 (length obs_var_dims).
Proof.
  intros Hev Hobs Hsub. rewrite dim_positions_closed.
  eexists. split; [reflexivity|].
  apply NoDup_Permutation.
  - clear Hsub. induction Hev as [|e ev Hfresh Hev IH]; [constructor|].
    cbn [omap list_omap]. destruct (index_of e obs_var_dims) as [i|] eqn:Hi; [|exact IH].
    constructor; [|exact IH]. intros Hin.
    apply list_elem_of_omap in Hin as (e' & He' & Hi').
    apply index_of_lookup in Hi, Hi'. congruence.
  - apply NoDup_seq.
  - intros i. rewrite list_elem_of_omap, elem_of_seq. split.
    + intros (e & _ & He). apply index_of_lookup, lookup_lt_Some in He. lia.
    + intros [_ Hi]. cbn in Hi.
      destruct (lookup_lt_is_Some_2 obs_var_dims i Hi) as (e & He).
      exists e. split; [apply Hsub; now apply list_elem_of_lookup_2 in He|].
      destruct (index_of_elem_of e obs_var_dims) as (j & Hj);
        [now apply list_elem_of_lookup_2 in He|].
      rewrite Hj. f_equal. apply index_of_lookup in Hj.
      eapply NoDup_lookup; eassumption.
Qed.

Lemma dim_positions_permutation_witness :
  exists positions,
    dim_positions ["id"; "time"] ["time"; "id"] = Ok positions /\
    positions ≡ₚ seq 0 (length ["time"; "id"]).
Proof.
  apply (dim_positions_permutation ["id"; "time"] ["time"; "id"]).
  - nodup_by_compute.
  - nodup_by_compute.
  - intros d Hd. apply (bool_decide_unpack _).
    apply elem_of_cons in Hd as [->|Hd]; [reflexivity|].
    apply elem_of_cons in Hd as [->|Hd]; [reflexivity|].
    now apply elem_of_nil in Hd.
Defined.

(** * Dispatching more than once *)

(** Two calls of [dispatch] in a row end as one call with the two
    lists of parameters joined: the first call has written its values
    into the parameter dictionary of the simulation. A value of the
    first call is therefore in the evaluator of the second call, unless
    the second call names the parameter again. *)
Theorem dispatch_twice (sim : Sim) (theta1 theta2 : list Param) :
  exists e1 sim1 e2 sim2,
    dispatch sim (ThetaParams theta1) = Ok (e1, sim1) /\
    dispatch sim1 (ThetaParams theta2) = Ok (e2, sim2) /\
    dispatch sim (ThetaParams (theta1 ++ theta2)) = Ok (e2, sim2) /\
    forall i p,
      theta1 !! i = Some p ->
      (forall j q, i < j -> theta1 !! j = Some q -> name q <> name p) ->
      name p ∉ map name theta2 ->
      parameters (ev_parameters e2) !! name p = Some (value p).
Proof.
  unfold dispatch. do 4 eexists. split; [reflexivity|].
  split; [reflexivity|]. cbn. split.
  - unfold merge_loop. now rewrite foldl_app.
  - intros i p Hi Hlast Hfresh. rewrite merge_loop_other by assumption.
    now apply (merge_loop_lookup theta1 _ i).
Qed.

(** * The benchmark *)

Import Benchmark.

Lemma dict_set_not_nil {V} k (v : V) d : dict_set k v d <> [].
Proof.
  destruct d as [|[k' v'] d]; cbn; [discriminate|].
  destruct (String.eqb k k'); discriminate.
Qed.

(** [benchmark] hands the mapping [model_parameter_dict] to
    [dispatch]. With at least one free parameter the mapping is not
    empty, and [parameterize] fails on its first name with an
    [AttributeError]: the benchmark does not get to evaluate the
    model. Without free parameters the dispatch returns. *)
Theorem benchmark_dispatch_raises (sim : Sim) :
  (free_model_parameters sim <> [] ->
   benchmark_dispatch sim = Raise AttributeError) /\
  (free_model_parameters sim = [] ->
   exists evaluator, benchmark_dispatch sim = Ok (evaluator, sim)).
Proof.
  unfold benchmark_dispatch, model_parameter_dict. split.
  - intros Hne.
    destruct (free_model_parameters sim) as [|p ps] using rev_ind; [congruence|].
    rewrite foldl_app. cbn [foldl].
    pose proof (dict_set_not_nil (name p) (value p)
      (foldl (fun d p0 => dict_set (name p0) (value p0) d) [] ps)) as Hd.
    destruct (dict_set _ _ _); [congruence|reflexivity].
  - intros ->. destruct sim as [f [ps y] d v n m]. eexists. reflexivity.
Qed.

(** * Fixed model parameters *)

Section FixedParametersProperties.
Import FixedParameters.
Variable float_of : string -> result pyfloat.

Lemma comprehension_Forall2 {A B} (f : A -> result B) (l : list A) (bs : list B) :
  Forall2 (fun a b => f a = Ok b) l bs -> comprehension f l = Ok bs.
Proof.
  induction 1 as [|a b l bs Hab _ IH]; [reflexivity|].
  cbn [comprehension]. rewrite Hab. run_bind. now rewrite IH.
Qed.

Lemma parse_value_words (ws : list string) (xs : list pyfloat) :
  ws <> [] ->
  Forall (fun w => no_char " " w = true) ws ->
  Forall2 (fun w x => float_of w = Ok x) ws xs ->
  parse_value float_of (SText (join " " ws)) = Ok (parsed xs).
Proof.
  intros Hne Hb Hf. unfold parse_value.
  rewrite (split_join " " "" ws Hne Hb).
  unfold floats. rewrite (comprehension_Forall2 _ _ _ Hf). run_bind.
  pose proof (Forall2_length _ _ _ Hf) as Hlen.
  destruct Hf as [|w x ws xs _ Hf]; [congruence|].
  destruct Hf as [|w' x' ws xs _ Hf]; reflexivity.
Qed.

(** On a text the only failures are those of [float]. *)
Lemma parse_value_raises v e :
  (forall w e, float_of w = Raise e -> e = ValueError) ->
  parse_value float_of (SText v) = Raise e -> e = ValueError.
Proof.
  intros Honly. unfold parse_value, floats.
  destruct (comprehension float_of (split " " v)) as [xs|e'] eqn:Hc.
  - run_bind. destruct (Nat.eqb_spec (length (split " " v)) 1) as [Hl|Hl];
      [|discriminate].
    pose proof (comprehension_inv _ _ _ Hc) as Hall.
    rewrite (comprehension_ok NaN _ _ Hall) in Hc. injection Hc as <-.
    destruct (split " " v) as [|w [|? ?]]; discriminate.
  - run_bind. intros [= ->].
    apply comprehension_raise in Hc as (w & _ & Hw). eauto.
Qed.

Lemma parse_value_empty_word (ws : list string) :
  (forall w e, float_of w = Raise e -> e = ValueError) ->
  float_of "" = Raise ValueError ->
  Forall (fun w => no_char " " w = true) ws ->
  "" ∈ ws ->
  parse_value float_of (SText (join " " ws)) = Raise ValueError.
Proof.
  intros Honly Hempty Hb Hin.
  destruct (parse_value float_of (SText (join " " ws))) as [value|e] eqn:Hp.
  - exfalso. unfold parse_value in Hp.
    rewrite (split_join " " "" ws) in Hp;
      [|intros ->; now apply elem_of_nil in Hin|assumption].
    unfold floats in Hp.
    destruct (comprehension float_of ws) as [xs|] eqn:Hc; [|discriminate].
    destruct (comprehension_inv _ _ _ Hc "" Hin) as (b & Hb'). congruence.
  - f_equal. exact (parse_value_raises (join " " ws) e Honly Hp).
Qed.

Lemma dict_get_NoDup {V} k (v : V) d :
  NoDup (keys d) -> (k, v) ∈ d -> dict_get k d = Some v.
Proof.
  intros Hnd Hin. apply list_elem_of_split in Hin as (pre & post & ->).
  apply dict_get_middle. rewrite keys_app in Hnd. cbn in Hnd.
  apply NoDup_app in Hnd as (_ & Hd & _). intros Hk. apply (Hd k Hk).
  apply list_elem_of_here.
Qed.

Lemma fixed_model_parameters_loop_closed params : forall acc outs,
  NoDup (keys acc ++ keys params) ->
  Forall2 (fun kv out => kv.1 = out.1 /\ parse_value float_of kv.2 = Ok out.2)
          params outs ->
  fixed_model_parameters_loop float_of params acc = Ok (acc ++ outs).
Proof.
  induction params as [|[k v] params IH]; intros acc outs Hnd Hf.
  - apply Forall2_nil_inv_l in Hf as ->. now rewrite app_nil_r.
  - apply Forall2_cons_inv_l in Hf as ([k' v'] & outs' & [Hk Hv] & Hf & ->).
    cbn [fst snd] in Hk, Hv. subst k'. cbn [fixed_model_parameters_loop].
    rewrite Hv. run_bind.
    cbn [keys map fst] in Hnd. rewrite dict_set_fresh.
    + rewrite (IH _ outs'); [now rewrite <- app_assoc| |assumption].
      rewrite keys_app. cbn. rewrite <- app_assoc. exact Hnd.
    + apply NoDup_app in Hnd as (_ & Hd & _). intros Hin.
      apply (Hd k Hin). apply list_elem_of_here.
Qed.

(** Every text of the mapping is read as blank-separated numbers:
    where the names are distinct and every value is a text of one or
    more readable words separated by single blanks, the result has the
    names in their order, a float for a text of one word and an array
    of the floats for a text of more words. *)
Theorem fixed_model_parameters_spec (params : dict section_value) :
  NoDup (keys params) ->
  (forall k v, (k, v) ∈ params ->
     exists ws xs, v = SText (join " " ws) /\ ws <> [] /\
       Forall (fun w => no_char " " w = true) ws /\
       Forall2 (fun w x => float_of w = Ok x) ws xs) ->
  exists fixed_parameters,
    fixed_model_parameters float_of params = Ok fixed_parameters /\
    keys fixed_parameters = keys params /\
    forall k ws xs,
      (k, SText (join " " ws)) ∈ params -> ws <> [] ->
      Forall (fun w => no_char " " w = true) ws ->
      Forall2 (fun w x => float_of w = Ok x) ws xs ->
      dict_get k fixed_parameters = Some (parsed xs).
Proof.
  intros Hnd Hall.
  set (outs := map (fun kv : string * section_value =>
                      (kv.1, value_or (Scalar NaN) (parse_value float_of) kv.2))
                   params).
  assert (keys outs = keys params) as Hkeys.
  { unfold outs, keys. rewrite map_map. reflexivity. }
  exists outs. split; [|split].
  - unfold fixed_model_parameters.
    rewrite (fixed_model_parameters_loop_closed params [] outs); [reflexivity|exact Hnd|].
    unfold outs. apply Forall2_fmap_r, Forall_Forall2_diag, Forall_forall.
    intros [k v] Hin. cbn [fst snd]. split; [reflexivity|].
    destruct (Hall k v Hin) as (ws & xs & -> & Hne & Hb & Hf).
    unfold value_or. cbn [fst snd].
    now rewrite !(parse_value_words ws xs) by assumption.
  - exact Hkeys.
  - intros k ws xs Hin Hne Hb Hf. apply dict_get_NoDup; [now rewrite Hkeys|].
    unfold outs. apply list_elem_of_fmap. exists (k, SText (join " " ws)).
    split; [|assumption]. cbn [fst snd]. unfold value_or.
    now rewrite (parse_value_words ws xs).
Qed.

(** The loop stops at the first entry that is not read. *)
Lemma fixed_model_parameters_loop_app pre rest : forall acc,
  fixed_model_parameters_loop float_of (pre ++ rest) acc
  = (acc' ← fixed_model_parameters_loop float_of pre acc;
     fixed_model_parameters_loop float_of rest acc').
Proof.
  induction pre as [|[k v] pre IH]; intros acc; [reflexivity|].
  cbn [app fixed_model_parameters_loop].
  destruct (parse_value float_of v) as [value|e]; run_bind; [apply IH|reflexivity].
Qed.

Lemma fixed_model_parameters_loop_texts pre : forall acc e,
  (forall w e, float_of w = Raise e -> e = ValueError) ->
  Forall (fun kv : string * section_value => exists v, kv.2 = SText v) pre ->
  fixed_model_parameters_loop float_of pre acc = Raise e -> e = ValueError.
Proof.
  induction pre as [|[k v] pre IH]; intros acc e Honly Hpre; [discriminate|].
  apply Forall_cons in Hpre as [[t Ht] Hpre]. cbn [snd] in Ht. subst v.
  cbn [fixed_model_parameters_loop].
  destruct (parse_value float_of (SText t)) as [value|e'] eqn:Hv; run_bind.
  - now apply IH.
  - intros [= ->]. exact (parse_value_raises t _ Honly Hv).
Qed.

(** A text with an empty word (two blanks in a row, a blank at either
    end, the empty text) is a [ValueError] of [float], and so is the
    whole property when the entries before it are texts: [float]
    raises nothing else, and it refuses the empty text. *)
Theorem fixed_model_parameters_empty_word (pre post : dict section_value)
    (k : string) (ws : list string) :
  (forall w e, float_of w = Raise e -> e = ValueError) ->
  float_of "" = Raise ValueError ->
  Forall (fun kv : string * section_value => exists v, kv.2 = SText v) pre ->
  Forall (fun w => no_char " " w = true) ws ->
  "" ∈ ws ->
  fixed_model_parameters float_of (pre ++ (k, SText (join " " ws)) :: post)
  = Raise ValueError.
Proof.
  intros Honly Hempty Hpre Hb Hw. unfold fixed_model_parameters.
  rewrite fixed_model_parameters_loop_app.
  destruct (fixed_model_parameters_loop float_of pre []) as [acc|e] eqn:Hp.
  - run_bind. cbn [fixed_model_parameters_loop].
    now rewrite parse_value_empty_word.
  - run_bind. f_equal. exact (fixed_model_parameters_loop_texts pre [] e Honly Hpre Hp).
Qed.

(** A value that [parse_config_section] has returned as an [int] has
    no method [split]: when the entries before it are read, the
    property fails on it with an [AttributeError], whatever follows. *)
Theorem fixed_model_parameters_number (pre post : dict section_value)
    (k : string) (z : Z) :
  Forall (fun kv : string * section_value =>
            exists value, parse_value float_of kv.2 = Ok value) pre ->
  fixed_model_parameters float_of (pre ++ (k, SInt z) :: post)
  = Raise AttributeError.
Proof.
  intros Hpre. unfold fixed_model_parameters.
  rewrite fixed_model_parameters_loop_app.
  assert (forall acc, exists acc',
            fixed_model_parameters_loop float_of pre acc = Ok acc') as Hok.
  { induction Hpre as [|[k' v'] pre [value Hv] _ IH]; intros acc; [eauto|].
    cbn [fixed_model_parameters_loop]. cbn [snd] in Hv. rewrite Hv. run_bind.
    apply IH. }
  destruct (Hok []) as (acc' & ->). reflexivity.
Qed.

End FixedParametersProperties.

Lemma float_of_digits_raises w e :
  FixedParameters.float_of_digits w = Raise e -> e = ValueError.
Proof.
  unfold FixedParameters.float_of_digits, int, digits_value.
  destruct w as [|a w]; [now intros [= <-]|].
  destruct (Ascii.eqb a "-").
  { destruct w; [now intros [= <-]|].
    destruct (NilEmpty.uint_of_string _); [discriminate|now intros [= <-]]. }
  destruct (Ascii.eqb a "+").
  { destruct w; [now intros [= <-]|].
    destruct (NilEmpty.uint_of_string _); [discriminate|now intros [= <-]]. }
  destruct (NilEmpty.uint_of_string _); [discriminate|now intros [= <-]].
Qed.

Lemma fixed_model_parameters_spec_witness :
  exists fixed_parameters,
    FixedParameters.fixed_model_parameters FixedParameters.float_of_digits
      [("k", FixedParameters.SText (join " " ["1"; "2"]));
       ("y", FixedParameters.SText (join " " ["3"; "4"; "5"]))]
    = Ok fixed_parameters /\
    keys fixed_parameters
    = keys [("k", FixedParameters.SText (join " " ["1"; "2"]));
            ("y", FixedParameters.SText (join " " ["3"; "4"; "5"]))] /\
    forall k ws xs,
      (k, FixedParameters.SText (join " " ws))
      ∈ [("k", FixedParameters.SText (join " " ["1"; "2"]));
         ("y", FixedParameters.SText (join " " ["3"; "4"; "5"]))] ->
      ws <> [] ->
      Forall (fun w => no_char " " w = true) ws ->
      Forall2 (fun w x => FixedParameters.float_of_digits w = Ok x) ws xs ->
      dict_get k fixed_parameters = Some (FixedParameters.parsed xs).
Proof.
  apply (fixed_model_parameters_spec FixedParameters.float_of_digits
           [("k", FixedParameters.SText (join " " ["1"; "2"]));
            ("y", FixedParameters.SText (join " " ["3"; "4"; "5"]))]).
  - nodup_by_compute.
  - intros k v Hin.
    apply elem_of_cons in Hin as [[= -> ->]|Hin].
    { exists ["1"; "2"], [Fin 1; Fin 2].
      repeat split; try discriminate; repeat constructor. }
    apply elem_of_cons in Hin as [[= -> ->]|Hin].
    { exists ["3"; "4"; "5"], [Fin 3; Fin 4; Fin 5].
      repeat split; try discriminate; repeat constructor. }
    now apply elem_of_nil in Hin.
Defined.

Lemma fixed_model_parameters_empty_word_witness :
  FixedParameters.fixed_model_parameters FixedParameters.float_of_digits
    ([("y", FixedParameters.SText "3 4")]
     ++ ("k", FixedParameters.SText (join " " ["1"; ""; "2"])) :: [])
  = Raise ValueError.
Proof.
  apply (fixed_model_parameters_empty_word FixedParameters.float_of_digits
           [("y", FixedParameters.SText "3 4")] [] "k" ["1"; ""; "2"]).
  - exact float_of_digits_raises.
  - reflexivity.
  - repeat constructor. cbn. eauto.
  - repeat constructor.
  - apply list_elem_of_further, list_elem_of_here.
Defined.

Lemma fixed_model_parameters_number_witness :
  FixedParameters.fixed_model_parameters FixedParameters.float_of_digits
    ([("k", FixedParameters.SText "1 2")]
     ++ ("a", FixedParameters.SInt 3) :: [("y", FixedParameters.SText "3 4")])
  = Raise AttributeError.
Proof.
  apply (fixed_model_parameters_number FixedParameters.float_of_digits
           [("k", FixedParameters.SText "1 2")]
           [("y", FixedParameters.SText "3 4")] "a" 3%Z).
  repeat constructor. cbn [snd]. eexists. reflexivity.
Defined.

(** * The positional arguments of the solver *)

Section SplitArgsProperties.
Import SplitArgs.
Context {V S I X R : Type}.
Variable odesolve : list V -> list V -> list V -> result (list (list S) * I).
Variable post_processing : dict (list S) -> X -> I -> list V -> result R.
Variable x : X.

Lemma slice_app_l {A} (l1 l2 : list A) :
  slice (l1 ++ l2) 0 (length l1) = l1.
Proof. unfold slice. rewrite Nat.sub_0_r, drop_0. apply take_app_length. Qed.

Lemma slice_middle {A} (pre l post : list A) a b :
  a = length pre -> b = a + length l ->
  slice (pre ++ l ++ post) a b = l.
Proof.
  intros -> ->. unfold slice. rewrite drop_app_length.
  replace (length pre + length l - length pre) with (length l) by lia.
  apply take_app_length.
Qed.

Lemma slice_group_3 {A} (l1 l2 l3 post : list A) :
  slice (l1 ++ l2 ++ l3 ++ post) (length l2 + length l1)
        (length l2 + length l1 + length l3) = l3.
Proof.
  rewrite (app_assoc l1 l2). apply slice_middle; rewrite ?length_app; lia.
Qed.

Lemma slice_group_4 {A} (l1 l2 l3 l4 post : list A) :
  slice (l1 ++ l2 ++ l3 ++ l4 ++ post) (length l1 + length l2 + length l3)
        (length l1 + length l2 + length l3 + length l4) = l4.
Proof.
  rewrite (app_assoc l1 l2), (app_assoc (l1 ++ l2) l3).
  apply slice_middle; rewrite ?length_app; lia.
Qed.

(** [odesolve_splitargs] cuts the positional arguments into the four
    groups that [solve] has put in a row: with as many initial values
    as there are state names, and the three counts as [solve] passes
    them, [odesolve] gets the initial values, the model arguments and
    the forcing, the post-processing gets its arguments, and what
    follows the four groups is not read. For distinct state names and
    one trajectory per name, the post-processing gets the
    trajectories paired with the state names in order. An exception
    of [odesolve] is passed on. *)
Theorem odesolve_splitargs_groups (Y_0 ode_args pp_args x_in_flat rest : list V)
    (odestates : list string) :
  length Y_0 = length odestates ->
  (forall e, odesolve Y_0 ode_args x_in_flat = Raise e ->
     odesolve_splitargs odesolve post_processing x
       (Y_0 ++ ode_args ++ pp_args ++ x_in_flat ++ rest) odestates
       (length ode_args) (length pp_args) (length x_in_flat) = Raise e) /\
  (forall sol interp, odesolve Y_0 ode_args x_in_flat = Ok (sol, interp) ->
     NoDup odestates -> length sol = length odestates ->
     odesolve_splitargs odesolve post_processing x
       (Y_0 ++ ode_args ++ pp_args ++ x_in_flat ++ rest) odestates
       (length ode_args) (length pp_args) (length x_in_flat)
     = post_processing (zip odestates sol) x interp pp_args).
Proof.
  intros Hlen. unfold odesolve_splitargs.
  rewrite <- Hlen. rewrite slice_app_l.
  rewrite (slice_middle Y_0 ode_args (pp_args ++ x_in_flat ++ rest)
             (length Y_0) (length ode_args + length Y_0)) by lia.
  rewrite (slice_group_3 Y_0 ode_args pp_args (x_in_flat ++ rest)).
  rewrite (slice_group_4 Y_0 ode_args pp_args x_in_flat rest).
  split.
  - intros e ->. reflexivity.
  - intros sol interp -> Hnd Hsol. run_bind.
    rewrite coords_loop_fresh; [reflexivity|].
    cbn [keys map app]. unfold keys. rewrite fst_zip by lia. exact Hnd.
Qed.

End SplitArgsProperties.

Lemma odesolve_splitargs_groups_witness :
  (forall e,
     (fun y0 args x_in => Ok ([args], x_in)) [1%Z] [2%Z; 3%Z] [5%Z] = Raise e ->
     SplitArgs.odesolve_splitargs
       (fun y0 args x_in => Ok ([args], x_in))
       (fun res_dict (x : unit) interp ppargs => Ok (res_dict, interp, ppargs)) tt
       ([1%Z] ++ [2%Z; 3%Z] ++ [4%Z] ++ [5%Z] ++ [6%Z]) ["B"]
       (length [2%Z; 3%Z]) (length [4%Z]) (length [5%Z]) = Raise e) /\
  (forall sol interp,
     (fun y0 args x_in => Ok ([args], x_in)) [1%Z] [2%Z; 3%Z] [5%Z]
     = Ok (sol, interp) ->
     NoDup ["B"] -> length sol = length ["B"] ->
     SplitArgs.odesolve_splitargs
       (fun y0 args x_in => Ok ([args], x_in))
       (fun res_dict (x : unit) interp ppargs => Ok (res_dict, interp, ppargs)) tt
       ([1%Z] ++ [2%Z; 3%Z] ++ [4%Z] ++ [5%Z] ++ [6%Z]) ["B"]
       (length [2%Z; 3%Z]) (length [4%Z]) (length [5%Z])
     = (fun res_dict (x : unit) interp ppargs => Ok (res_dict, interp, ppargs))
         (zip ["B"] sol) tt interp [4%Z]).
Proof.
  apply (odesolve_splitargs_groups
           (fun y0 args x_in => Ok ([args], x_in))
           (fun res_dict (x : unit) interp ppargs => Ok (res_dict, interp, ppargs))
           tt [1%Z] [2%Z; 3%Z] [4%Z] [5%Z] [6%Z] ["B"]).
  reflexivity.
Defined.

(** * Seeds in a row *)

Section SeedRunsProperties.
Import SeedPool SeedRuns.
Context {G : Type} (integers : G -> nat -> list Z * G).

Hypothesis integers_length :
  forall g n, length (integers g n).1 = n.

Lemma draw_seed_fifo s :
  pool_ok s ->
  exists seed s' fresh,
    draw_seed integers s = Ok (seed, s') /\
    _random_integers s ++ fresh = seed :: _random_integers s' /\
    pool_ok s' /\ n_cores s' = n_cores s /\
    (Z.of_nat (length (_random_integers s)) <> n_cores s ->
       fresh = [] /\ RNG s' = RNG s).
Proof.
  intros (Hbuf & Hpos & Hlen).
  destruct (draw_seed_step integers integers_length s Hbuf Hpos Hlen)
    as (seed & s' & Hd & Hh & Hn & Hb & Hfill & Hkeep & Hl').
  destruct (_random_integers s) as [|seed0 rest] eqn:Epool; [discriminate|].
  injection Hh as ->.
  assert (pool_ok s') as Hok.
  { unfold pool_ok. rewrite Hn, Hb. split; [assumption|]. split; [assumption|]. lia. }
  destruct (Z.eq_dec (Z.of_nat (length (seed :: rest))) (n_cores s)) as [Heq|Hne].
  - destruct (Hfill Heq) as (fresh & _ & Hs').
    exists seed, s', fresh. split; [assumption|]. split; [now rewrite Hs'|].
    split; [assumption|]. split; [assumption|]. congruence.
  - destruct (Hkeep Hne) as (Hs' & Hg).
    exists seed, s', []. split; [assumption|]. rewrite app_nil_r, Hs'.
    split; [reflexivity|]. split; [assumption|]. split; [assumption|]. auto.
Qed.

Lemma draw_seeds_fifo k : forall s,
  pool_ok s ->
  exists seeds s' appended,
    draw_seeds integers k s = Ok (seeds, s') /\
    length seeds = k /\
    _random_integers s ++ appended = seeds ++ _random_integers s' /\
    pool_ok s' /\ n_cores s' = n_cores s /\
    ((Z.of_nat k <= Z.of_nat (length (_random_integers s)) - n_cores s)%Z ->
       appended = [] /\ RNG s' = RNG s).
Proof.
  induction k as [|k IH]; intros s Hok.
  - exists [], s, []. cbn [draw_seeds length app]. rewrite app_nil_r.
    split; [reflexivity|]. split; [reflexivity|]. split; [reflexivity|].
    split; [assumption|]. split; [reflexivity|]. intros _. split; reflexivity.
  - destruct (draw_seed_fifo s Hok) as (seed & s1 & fresh & Hd & Hp & Hok1 & Hn1 & Hk1).
    destruct (IH s1 Hok1) as (seeds & s2 & app2 & Hds & Hl & Hp2 & Hok2 & Hn2 & Hk2).
    exists (seed :: seeds), s2, (fresh ++ app2).
    cbn [draw_seeds]. rewrite Hd. run_bind. rewrite Hds. run_bind.
    split; [reflexivity|]. split; [cbn; lia|]. split.
    { rewrite app_assoc, Hp. cbn. now rewrite Hp2. }
    split; [assumption|]. split; [congruence|].
    intros Hle. destruct Hk1 as [-> Hg1]; [lia|].
    rewrite app_nil_r in Hp.
    destruct Hk2 as [-> Hg2].
    { rewrite Hn1. apply (f_equal (@length Z)) in Hp. cbn [length] in Hp. lia. }
    split; [reflexivity|congruence].
Qed.

(** With at least one core, any number of calls of [draw_seed] in a
    row succeeds and hands out the seeds first in, first out: the
    seeds drawn, followed by the pool that is left, are the initial
    pool followed by what the refills have appended. The first
    [n_cores] draws are the first seeds of the initial pool, and they
    leave the generator as it was. *)
Theorem draw_seeds_first_in_first_out (cores : Z) (g : G) (k : nat) :
  (1 <= cores)%Z ->
  exists s0 seeds s' appended,
    init integers cores g = Ok s0 /\
    draw_seeds integers k s0 = Ok (seeds, s') /\
    length seeds = k /\
    _random_integers s0 ++ appended = seeds ++ _random_integers s' /\
    ((Z.of_nat k <= cores)%Z ->
       seeds = take k (_random_integers s0) /\
       _random_integers s' = drop k (_random_integers s0) /\
       RNG s' = RNG s0).
Proof.
  intros Hpos.
  destruct (init integers cores g) as [s0|e] eqn:Hinit.
  2:{ unfold init, create_random_integers in Hinit.
      destruct (Z.ltb_spec (cores * 2) 0); [lia|].
      cbn in Hinit. destruct (integers g _); discriminate. }
  destruct (init_pool integers integers_length cores g s0 Hinit) as (Hn & Hb & _ & Hl).
  assert (pool_ok s0) as Hok.
  { unfold pool_ok. rewrite Hn, Hb. split; [reflexivity|]. split; [assumption|]. lia. }
  destruct (draw_seeds_fifo k s0 Hok)
    as (seeds & s' & appended & Hd & Hlen & Hp & _ & _ & Hk).
  exists s0, seeds, s', appended. split; [reflexivity|].
  do 3 (split; [assumption|]).
  intros Hle. destruct Hk as [-> Hg]; [lia|]. rewrite app_nil_r in Hp.
  rewrite Hp. subst k. rewrite take_app_length, drop_app_length. auto.
Qed.

End SeedRunsProperties.

Lemma draw_seeds_first_in_first_out_witness :
  exists s0 seeds s' appended,
    SeedPool.init SeedPool.counter_integers 2 0 = Ok s0 /\
    SeedRuns.draw_seeds SeedPool.counter_integers 5 s0 = Ok (seeds, s') /\
    length seeds = 5 /\
    SeedPool._random_integers s0 ++ appended
    = seeds ++ SeedPool._random_integers s' /\
    ((Z.of_nat 5 <= 2)%Z ->
       seeds = take 5 (SeedPool._random_integers s0) /\
       SeedPool._random_integers s' = drop 5 (SeedPool._random_integers s0) /\
       SeedPool.RNG s' = SeedPool.RNG s0).
Proof.
  apply (draw_seeds_first_in_first_out SeedPool.counter_integers
           counter_integers_length 2%Z 0 5).
  lia.
Defined.

(** * What [odesolve] refuses before it integrates *)

Section InputErrors.
Context {A : Type}.
Variable attempt_step :
  PIDController -> option LinearInterpolation * A -> istate -> istate.
Variable dense : istate -> istate -> Q -> list pyfloat.

(** [odesolve] reads [x_in[1]] without a check: a forcing of one
    array only is an [IndexError]. A solver without time coordinate
    and without forcing fails at [SaveAt(ts=self.x)] with a
    [ValueError], before [self.x[0]] is read. Both happen before the
    integration is started, whatever the model and the failure policy
    are. *)
Theorem odesolve_input_errors (s : JaxSolver) (y0 : list pyfloat) (args : A) :
  (forall ts, odesolve A attempt_step dense s y0 args [ts] = Raise IndexError) /\
  (x s = [] ->
   odesolve A attempt_step dense s y0 args [] = Raise ValueError).
Proof.
  unfold odesolve, forcing. split.
  - intros ts. reflexivity.
  - intros Hx. rewrite Hx. reflexivity.
Qed.

End InputErrors.
